(** * FasterBASIC: a shallow embedding of the compiler core and its stores

    This development embeds in Rocq the parts of the FasterBASIC sources
    that the specification's testable properties talk about:

    - [runtime/ConstantsManager.cpp]   (module [ConstantsManager]),
    - [shell/program_manager.cpp]      (module [ProgramManager]),
    - [src/fasterbasic_semantic.cpp]   (module [Semantic]),
    - [src/fasterbasic_ircode.cpp]     (module [IRGen]).

    Conventions.  A C++ [int] is a [Z]; where the source converts or adds
    machine integers the wrap-around is written out with [Cpp.to_int] and
    [Cpp.to_size_t]; the label counters, which count up from a small
    constant, are plain integers.  A [double] literal of the AST is the rational number
    it denotes ([Q]).  [std::unordered_map] and [std::map] are [gmap]s,
    [std::vector] and [std::stack] are lists (a stack has its top at the
    head).  Member functions take the object as an explicit state and
    return the new state.  A C++ exception is the [Throw] case of
    [Cpp.Result].  The recursion of the sources that is not structural,
    the inline expansion of [DEF FN] bodies and the search for a free
    line number of the automatic numbering, carries fuel. *)

From Stdlib Require Import ZArith QArith Qabs String Ascii List DecimalString Lia.
From stdpp Require Import gmap strings list sorting.
Import ListNotations.

Open Scope string_scope.
Open Scope list_scope.
Open Scope Z_scope.

(** ** C++ values used by the sources *)

Module Cpp.

Definition INT_MIN : Z := -2147483648.
Definition INT_MAX : Z := 2147483647.

(** [static_cast<int>(z)] and [int] arithmetic: 32-bit two's complement. *)
Definition to_int (z : Z) : Z := (z + 2147483648) mod 4294967296 - 2147483648.

(** [size_t] arithmetic: 64-bit, unsigned. *)
Definition to_size_t (z : Z) : Z := z mod 18446744073709551616.

(** [std::string::npos]. *)
Definition npos : Z := 18446744073709551615.

(** [static_cast<int>(d)] of a [double]: truncation toward zero. *)
Definition double_to_int (d : Q) : Z := Z.quot (Qnum d) (Zpos (Qden d)).

(** [std::modf(d, &ip) == 0.0]: the value has no fractional part. *)
Definition is_integral (d : Q) : bool := Z.rem (Qnum d) (Zpos (Qden d)) =? 0.

Inductive Result (A : Type) : Type :=
| Ok (a : A)
| Throw (what : string).
Arguments Ok {A} a.
Arguments Throw {A} what.

Definition in_chars (c : ascii) (chars : string) : bool :=
  existsb (Ascii.eqb c) (list_ascii_of_string chars).

(** [s.find_first_not_of(chars)], scanning from position [i]. *)
Fixpoint find_first_not_of_from (s chars : string) (i : Z) : Z :=
  match s with
  | EmptyString => npos
  | String c s' =>
      if in_chars c chars then find_first_not_of_from s' chars (i + 1) else i
  end.

Definition find_first_not_of (s chars : string) : Z :=
  find_first_not_of_from s chars 0.

(** [s.find_last_not_of(chars)]: [found] is the last position seen so far. *)
Fixpoint find_last_not_of_from (s chars : string) (i found : Z) : Z :=
  match s with
  | EmptyString => found
  | String c s' =>
      find_last_not_of_from s' chars (i + 1) (if in_chars c chars then found else i)
  end.

Definition find_last_not_of (s chars : string) : Z :=
  find_last_not_of_from s chars 0 npos.

(** [s.substr(pos, count)]: throws when [pos > s.size()], and otherwise
    takes [min(count, size - pos)] characters. *)
Definition substr (s : string) (pos count : Z) : Result string :=
  let size := Z.of_nat (String.length s) in
  if size <? pos then Throw "basic_string::substr"
  else Ok (substring (Z.to_nat pos) (Z.to_nat (Z.min count (size - pos))) s).

Definition string_empty (s : string) : bool :=
  match s with EmptyString => true | String _ _ => false end.

(** [s.back()] of a non-empty string. *)
Fixpoint back (s : string) : option ascii :=
  match s with
  | EmptyString => None
  | String c EmptyString => Some c
  | String _ s' => back s'
  end.

(** [s.size() > n && s.substr(s.size() - n) == suffix], with [n] the
    length of [suffix]: the way the sources test a normalized type suffix. *)
Definition has_proper_suffix (suffix s : string) : bool :=
  let n := String.length suffix in
  (n <? String.length s)%nat &&
  String.eqb (substring (String.length s - n) n s) suffix.

(** [s.find(p) == 0]. *)
Definition starts_with (p s : string) : bool := String.prefix p s.

(** [std::to_string(int)]. *)
Definition int_to_string (z : Z) : string :=
  if z <? 0 then "-" +:+ NilZero.string_of_uint (N.to_uint (Z.to_N (- z)))
  else NilZero.string_of_uint (N.to_uint (Z.to_N z)).

(** Rounding of a rational to the nearest integer, ties to even. *)
Definition round_half_even (q : Q) : Z :=
  let n := Qnum q in
  let d := Zpos (Qden q) in
  let f := n / d in
  let r := 2 * (n mod d) in
  if r <? d then f
  else if d <? r then f + 1
  else if Z.even f then f else f + 1.

Definition pad_left (width : nat) (s : string) : string :=
  string_of_list_ascii (repeat "0"%char (width - String.length s)) +:+ s.

(** [std::to_string(double)], that is [printf("%f")]: six decimals. *)
Definition double_to_string (d : Q) : string :=
  let scaled := round_half_even (Qabs d * 1000000) in
  (if Qlt_le_dec d 0 then "-" else "") +:+
  int_to_string (scaled / 1000000) +:+ "." +:+
  pad_left 6 (int_to_string (scaled mod 1000000)).

End Cpp.

(** ** runtime/ConstantsManager.cpp *)

(** [using ConstantValue = std::variant<int64_t, double, std::string>]. *)
Inductive ConstantValue : Type :=
| CV_int (i : Z)
| CV_double (d : Q)
| CV_string (s : string).

Module ConstantsManager.

Record t : Type := Build {
  m_constants : list ConstantValue;      (* indexed storage *)
  m_nameToIndex : gmap string Z          (* name to index mapping *)
}.

(** The constructor only reserves capacity. *)
Definition empty : t := {| m_constants := []; m_nameToIndex := ∅ |}.

(** [m_constants[i] = value].  Indexing a vector out of range is undefined
    in the source; the model leaves the vector unchanged there. *)
Definition vector_set (v : list ConstantValue) (i : Z) (value : ConstantValue)
  : list ConstantValue :=
  if (0 <=? i) && (i <? Z.of_nat (length v)) then <[Z.to_nat i := value]> v else v.

(** The three overloads of [addConstant] (for [int64_t], [double] and
    [std::string]) have the same body; the argument is the variant they
    store. *)
Definition addConstant (name : string) (value : ConstantValue) (m : t) : Z * t :=
  match m_nameToIndex m !! name with
  | Some index =>
      (* update existing constant *)
      (index, {| m_constants := vector_set (m_constants m) index value;
                 m_nameToIndex := m_nameToIndex m |})
  | None =>
      (* add new constant *)
      let index := Cpp.to_int (Z.of_nat (length (m_constants m))) in
      (index, {| m_constants := m_constants m ++ [value];
                 m_nameToIndex := <[name := index]> (m_nameToIndex m) |})
  end.

Definition getConstant (index : Z) (m : t) : Cpp.Result ConstantValue :=
  if (index <? 0) || (Cpp.to_int (Z.of_nat (length (m_constants m))) <=? index)
  then Cpp.Throw "Constant index out of range"
  else match m_constants m !! Z.to_nat index with
       | Some v => Cpp.Ok v
       | None => Cpp.Throw "Constant index out of range"
       end.

Definition hasConstant (name : string) (m : t) : bool :=
  match m_nameToIndex m !! name with Some _ => true | None => false end.

Definition getConstantIndex (name : string) (m : t) : Z :=
  match m_nameToIndex m !! name with
  | Some index => index
  | None => -1
  end.

Definition getConstantCount (m : t) : Z := Z.of_nat (length (m_constants m)).

Definition clear (m : t) : t := {| m_constants := []; m_nameToIndex := ∅ |}.

(** Class invariant: every index of the name map points into the vector. *)
Definition indices_in_range (m : t) : Prop :=
  ∀ name index, m_nameToIndex m !! name = Some index →
                0 <= index < Z.of_nat (length (m_constants m)).

Definition copyFrom (other : t) (m : t) : t :=
  (* the entire vector, which preserves indices, and the name map *)
  {| m_constants := m_constants other; m_nameToIndex := m_nameToIndex other |}.

(** The names in the order in which the map happens to be iterated (an
    [unordered_map] promises no order). *)
Definition getAllConstantNames (m : t) : list string :=
  (map_to_list (m_nameToIndex m)).*1.

Definition getConstantAsString (index : Z) (m : t) : Cpp.Result string :=
  match getConstant index m with
  | Cpp.Throw what => Cpp.Throw what
  | Cpp.Ok (CV_string s) => Cpp.Ok s
  | Cpp.Ok (CV_int i) => Cpp.Ok (Cpp.int_to_string i)
  | Cpp.Ok (CV_double d) => Cpp.Ok (Cpp.double_to_string d)
  end.

(** Names and slots correspond one to one. *)
Definition one_to_one (m : t) : Prop :=
  indices_in_range m
  ∧ (∀ name1 name2 index,
       m_nameToIndex m !! name1 = Some index → m_nameToIndex m !! name2 = Some index →
       name1 = name2)
  ∧ (∀ index, 0 <= index < Z.of_nat (length (m_constants m)) →
              ∃ name, m_nameToIndex m !! name = Some index).

(** The managers that come from an empty one through [addConstant] (while
    the count fits an [int]), [clear] and [copyFrom]. *)
Inductive built : t → Prop :=
| built_empty : built empty
| built_addConstant name value m :
    built m → getConstantCount m < Cpp.INT_MAX → built (snd (addConstant name value m))
| built_clear m : built m → built (clear m)
| built_copyFrom other m : built other → built (copyFrom other m).

(** [PI], [TRUE] and [TITLE], added in this order. *)
Definition sample : t :=
  snd (addConstant "TITLE" (CV_string "demo")
         (snd (addConstant "TRUE" (CV_int 1)
                 (snd (addConstant "PI" (CV_double (314159 # 100000)) empty))))).

End ConstantsManager.

(** ** shell/program_manager.cpp *)

Module ProgramManager.

Record t : Type := Build {
  m_lines : gmap Z string;
  m_filename : string;
  m_modified : bool;
  (* auto-numbering state *)
  m_autoMode : bool;
  m_autoStart : Z;
  m_autoStep : Z;
  m_autoCurrentLine : Z
}.

Definition new : t :=
  {| m_lines := ∅; m_filename := ""; m_modified := false;
     m_autoMode := false; m_autoStart := 10; m_autoStep := 10;
     m_autoCurrentLine := 10 |}.

Definition set_lines (l : gmap Z string) (pm : t) : t :=
  {| m_lines := l; m_filename := m_filename pm; m_modified := m_modified pm;
     m_autoMode := m_autoMode pm; m_autoStart := m_autoStart pm;
     m_autoStep := m_autoStep pm; m_autoCurrentLine := m_autoCurrentLine pm |}.

Definition setModified (modified : bool) (pm : t) : t :=
  {| m_lines := m_lines pm; m_filename := m_filename pm; m_modified := modified;
     m_autoMode := m_autoMode pm; m_autoStart := m_autoStart pm;
     m_autoStep := m_autoStep pm; m_autoCurrentLine := m_autoCurrentLine pm |}.

Definition set_autoMode (enabled : bool) (pm : t) : t :=
  {| m_lines := m_lines pm; m_filename := m_filename pm; m_modified := m_modified pm;
     m_autoMode := enabled; m_autoStart := m_autoStart pm;
     m_autoStep := m_autoStep pm; m_autoCurrentLine := m_autoCurrentLine pm |}.

Definition set_autoCurrentLine (n : Z) (pm : t) : t :=
  {| m_lines := m_lines pm; m_filename := m_filename pm; m_modified := m_modified pm;
     m_autoMode := m_autoMode pm; m_autoStart := m_autoStart pm;
     m_autoStep := m_autoStep pm; m_autoCurrentLine := n |}.

Definition isValidLineNumber (lineNumber : Z) : bool :=
  (0 <? lineNumber) && (lineNumber <=? 65535).

Definition deleteLine (lineNumber : Z) (pm : t) : t :=
  match m_lines pm !! lineNumber with
  | Some _ => setModified true (set_lines (delete lineNumber (m_lines pm)) pm)
  | None => pm
  end.

Definition getLine (lineNumber : Z) (pm : t) : string :=
  match m_lines pm !! lineNumber with
  | Some code => code
  | None => ""
  end.

Definition hasLine (lineNumber : Z) (pm : t) : bool :=
  match m_lines pm !! lineNumber with Some _ => true | None => false end.

Definition isModified (pm : t) : bool := m_modified pm.

(** The characters of [" \t"] and of [" \t\r\n"]. *)
Definition blanks : string :=
  String " " (String "009" EmptyString).
Definition blanks_and_newlines : string :=
  String " " (String "009" (String "013" (String "010" EmptyString))).

Definition setLine (lineNumber : Z) (code : string) (pm : t) : Cpp.Result t :=
  if negb (isValidLineNumber lineNumber) then Cpp.Ok pm
  else
    (* trim whitespace from code *)
    let start := Cpp.find_first_not_of code blanks in
    if start =? Cpp.npos then
      (* empty line - delete it *)
      Cpp.Ok (deleteLine lineNumber pm)
    else
      let end_ := Cpp.find_last_not_of code blanks_and_newlines in
      match Cpp.substr code start (Cpp.to_size_t (end_ - start + 1)) with
      | Cpp.Throw what => Cpp.Throw what
      | Cpp.Ok trimmedCode =>
          if Cpp.string_empty trimmedCode then
            (* empty line - delete it *)
            Cpp.Ok (deleteLine lineNumber pm)
          else
            let pm1 :=
              setModified true (set_lines (<[lineNumber := trimmedCode]> (m_lines pm)) pm) in
            (* update auto-numbering if this line is at or past current auto line *)
            if m_autoMode pm1 && (lineNumber >=? m_autoCurrentLine pm1) then
              Cpp.Ok (set_autoCurrentLine (Cpp.to_int (lineNumber + m_autoStep pm1)) pm1)
            else Cpp.Ok pm1
      end.

(** Reading of the specification's [set(n, text)], word for word: the text
    is trimmed of spaces and tabs at both ends. *)
Fixpoint drop_leading (chars s : string) : string :=
  match s with
  | EmptyString => EmptyString
  | String c s' => if Cpp.in_chars c chars then drop_leading chars s' else s
  end.

Fixpoint drop_trailing (chars s : string) : string :=
  match s with
  | EmptyString => EmptyString
  | String c s' =>
      let r := drop_trailing chars s' in
      if Cpp.string_empty r && Cpp.in_chars c chars then EmptyString else String c r
  end.

Definition trim_blanks (s : string) : string :=
  drop_trailing blanks (drop_leading blanks s).

(** What the source's trimming keeps when the text has a visible
    character: leading blanks go, trailing blanks and line ends go. *)
Definition trimmed (s : string) : string :=
  drop_trailing blanks_and_newlines (drop_leading blanks s).

(** A character of the text that is neither a blank nor a line end. *)
Fixpoint has_visible (s : string) : bool :=
  match s with
  | EmptyString => false
  | String c s' => negb (Cpp.in_chars c blanks_and_newlines) || has_visible s'
  end.

Fixpoint all_in (chars s : string) : bool :=
  match s with
  | EmptyString => true
  | String c s' => Cpp.in_chars c chars && all_in chars s'
  end.

(** Positions used to describe the trimming: the number of leading
    characters of [s] that are in [chars], and the position of the last
    character of [s] that is not. *)
Fixpoint leading_count (chars s : string) : nat :=
  match s with
  | EmptyString => O
  | String c s' => if Cpp.in_chars c chars then S (leading_count chars s') else O
  end.

Fixpoint last_not_in (chars s : string) : option nat :=
  match s with
  | EmptyString => None
  | String c s' =>
      match last_not_in chars s' with
      | Some j => Some (S j)
      | None => if Cpp.in_chars c chars then None else Some O
      end
  end.

Definition starts_with_blank (s : string) : bool :=
  match s with
  | EmptyString => false
  | String c _ => Cpp.in_chars c blanks
  end.

(** The state after a line has been stored. *)
Definition stored (lineNumber : Z) (code : string) (pm : t) : t :=
  {| m_lines := <[lineNumber := code]> (m_lines pm);
     m_filename := m_filename pm;
     m_modified := true;
     m_autoMode := m_autoMode pm;
     m_autoStart := m_autoStart pm;
     m_autoStep := m_autoStep pm;
     m_autoCurrentLine :=
       if m_autoMode pm && (lineNumber >=? m_autoCurrentLine pm)
       then lineNumber + m_autoStep pm else m_autoCurrentLine pm |}.

(** *** The lines in the order of [std::map] *)

(** Iterating over [m_lines] visits the lines by ascending line number. *)
Definition key_le (a b : Z * string) : Prop := a.1 <= b.1.

#[global] Instance key_le_dec a b : Decision (key_le a b).
Proof. unfold key_le. apply _. Defined.

Definition entries (pm : t) : list (Z * string) :=
  merge_sort key_le (map_to_list (m_lines pm)).

Definition clear (pm : t) : t :=
  {| m_lines := ∅; m_filename := ""; m_modified := false;
     m_autoMode := m_autoMode pm; m_autoStart := m_autoStart pm;
     m_autoStep := m_autoStep pm;
     (* reset auto-numbering to initial state *)
     m_autoCurrentLine := m_autoStart pm |}.

Definition isEmpty (pm : t) : bool :=
  match entries pm with [] => true | _ :: _ => false end.

Definition getLineCount (pm : t) : Z := Z.of_nat (length (entries pm)).

Definition getLineNumbers (pm : t) : list Z := (entries pm).*1.

Definition getFirstLineNumber (pm : t) : Z :=
  match entries pm with
  | [] => -1
  | (n, _) :: _ => n
  end.

Definition getLastLineNumber (pm : t) : Z :=
  match last (entries pm) with
  | None => -1
  | Some (n, _) => n
  end.

(** [m_lines.upper_bound(currentLine)]: the first line after [currentLine]. *)
Fixpoint upper_bound (currentLine : Z) (l : list (Z * string)) : option (Z * string) :=
  match l with
  | [] => None
  | (n, code) :: rest =>
      if currentLine <? n then Some (n, code) else upper_bound currentLine rest
  end.

Definition getNextLineNumber (currentLine : Z) (pm : t) : Z :=
  match upper_bound currentLine (entries pm) with
  | Some (n, _) => n
  | None => -1
  end.

(** [it = m_lines.lower_bound(currentLine); if (it != begin) --it]: the
    line before the first line that is not below [currentLine]; [before]
    is the line passed last. *)
Fixpoint before_lower_bound (currentLine : Z) (before : option Z) (l : list (Z * string))
  : option Z :=
  match l with
  | [] => before
  | (n, _) :: rest =>
      if n <? currentLine then before_lower_bound currentLine (Some n) rest else before
  end.

Definition getPreviousLineNumber (currentLine : Z) (pm : t) : Z :=
  match before_lower_bound currentLine None (entries pm) with
  | Some n => n
  | None => -1
  end.

(** *** Program generation *)

(** [oss << pair.first << " " << pair.second << "\n"]. *)
Definition line_text (lineNum : Z) (code : string) : string :=
  Cpp.int_to_string lineNum +:+ " " +:+ code +:+ String "010" EmptyString.

Definition lines_text (l : list (Z * string)) : string :=
  fold_right (λ pair text, line_text pair.1 pair.2 +:+ text) "" l.

Definition generateProgram (pm : t) : string := lines_text (entries pm).

(** The loop of [generateProgramRange], with its [continue] and [break]. *)
Fixpoint range_text (startLine endLine : Z) (l : list (Z * string)) : string :=
  match l with
  | [] => ""
  | (lineNum, code) :: rest =>
      if lineNum <? startLine then range_text startLine endLine rest      (* continue *)
      else if negb (endLine =? -1) && (endLine <? lineNum) then ""       (* break *)
      else line_text lineNum code +:+ range_text startLine endLine rest
  end.

Definition generateProgramRange (startLine endLine : Z) (pm : t) : string :=
  range_text startLine endLine (entries pm).

(** *** Listing *)

Record ListRange : Type := {
  startLine : Z;
  endLine : Z;
  hasStart : bool;
  hasEnd : bool
}.

(** The two constructors of [ListRange]. *)
Definition ListRange_all : ListRange :=
  {| startLine := 0; endLine := 0; hasStart := false; hasEnd := false |}.
Definition ListRange_of (first last : Z) : ListRange :=
  {| startLine := first; endLine := last; hasStart := true; hasEnd := true |}.

(** The body of the loop of [filterLinesByRange]. *)
Definition includes (range : ListRange) (pair : Z * string) : bool :=
  let includeThis := true in
  (* check start range *)
  let includeThis :=
    if hasStart range && (pair.1 <? startLine range) then false else includeThis in
  (* check end range *)
  let includeThis :=
    if hasEnd range && (endLine range <? pair.1) then false else includeThis in
  includeThis.

Definition filterLinesByRange (range : ListRange) (pm : t) : list (Z * string) :=
  List.filter (includes range) (entries pm).

Definition getLines (range : ListRange) (pm : t) : list (Z * string) :=
  filterLinesByRange range pm.

Definition getAllLines (pm : t) : list (Z * string) := entries pm.

(** *** Statistics *)

Record ProgramStats : Type := {
  lineCount : Z;
  totalCharacters : Z;
  minLineNumber : Z;
  maxLineNumber : Z;
  hasGaps : bool
}.

(** The loop that looks for a gap in the line numbering. *)
Fixpoint gap_after (expectedNext : Z) (l : list (Z * string)) : bool :=
  match l with
  | [] => false
  | (n, _) :: rest =>
      if expectedNext <? n then true else gap_after (Cpp.to_int (n + 1)) rest
  end.

Definition getStatistics (pm : t) : ProgramStats :=
  match entries pm with
  | [] => {| lineCount := 0; totalCharacters := 0; minLineNumber := 0;
             maxLineNumber := 0; hasGaps := false |}
  | _ :: _ =>
      let minLine := getFirstLineNumber pm in
      {| lineCount := getLineCount pm;
         totalCharacters :=
           fold_left (λ total pair,
                        Cpp.to_size_t (total + Z.of_nat (String.length pair.2)))
                     (entries pm) 0;
         minLineNumber := minLine;
         maxLineNumber := getLastLineNumber pm;
         hasGaps := gap_after (Cpp.to_int (minLine + 1)) (entries pm) |}
  end.

(** *** Automatic line numbering *)

(** [while (hasLine(m_autoCurrentLine)) m_autoCurrentLine += step]: the
    loop need not end, so it carries fuel; [None] is a loop that has not
    ended within the fuel. *)
Fixpoint next_free (fuel : nat) (step current : Z) (pm : t) : option Z :=
  match fuel with
  | O => None
  | S fuel' =>
      if hasLine current pm
      then next_free fuel' step (Cpp.to_int (current + step)) pm
      else Some current
  end.

Definition setAutoMode (fuel : nat) (enabled : bool) (start step : Z) (pm : t)
  : option t :=
  let pm1 := {| m_lines := m_lines pm; m_filename := m_filename pm;
                m_modified := m_modified pm; m_autoMode := enabled;
                m_autoStart := start; m_autoStep := step;
                m_autoCurrentLine := m_autoCurrentLine pm |} in
  if enabled then
    (* set current auto line to first available line *)
    match next_free fuel step start pm1 with
    | Some current => Some (set_autoCurrentLine current pm1)
    | None => None
    end
  else Some pm1.

Definition isAutoMode (pm : t) : bool := m_autoMode pm.

Definition getNextAutoLine (fuel : nat) (pm : t) : option (Z * t) :=
  if negb (m_autoMode pm) then Some (-1, pm)
  else
    (* find next available line number *)
    match next_free fuel (m_autoStep pm) (m_autoCurrentLine pm) pm with
    | Some current => Some (current, set_autoCurrentLine current pm)
    | None => None
    end.

Definition incrementAutoLine (pm : t) : t :=
  if m_autoMode pm
  then set_autoCurrentLine (Cpp.to_int (m_autoCurrentLine pm + m_autoStep pm)) pm
  else pm.

(** *** What the store keeps *)

(** Every stored line has a valid number, is not empty and does not
    start with a space or a tab. *)
Definition kept_line (n : Z) (code : string) : Prop :=
  isValidLineNumber n = true
  ∧ Cpp.string_empty code = false
  ∧ starts_with_blank code = false.

Definition well_kept (pm : t) : Prop :=
  ∀ n code, m_lines pm !! n = Some code → kept_line n code.

(** The stores that come from a new one through [setLine], [deleteLine]
    and [clear]. *)
Inductive built : t → Prop :=
| built_new : built new
| built_setLine n text pm pm' :
    built pm → setLine n text pm = Cpp.Ok pm' → built pm'
| built_deleteLine n pm : built pm → built (deleteLine n pm)
| built_clear pm : built pm → built (clear pm).

(** [10 PRINT 1 / 20 GOTO 10 / 40 END], entered line by line. *)
Definition enter (n : Z) (text : string) (pm : t) : t :=
  match setLine n text pm with
  | Cpp.Ok pm' => pm'
  | Cpp.Throw _ => pm
  end.

Definition sample : t :=
  enter 40 "END" (enter 20 "GOTO 10" (enter 10 "  PRINT 1 " new)).

(** The range that [generateProgramRange] prints: from [first] on, up to
    [last] unless [last] is -1. *)
Definition printed_range (first last : Z) : ListRange :=
  {| startLine := first; endLine := last; hasStart := true;
     hasEnd := negb (last =? -1) |}.

(** Strictly ascending line numbers. *)
Definition ascending (l : list Z) : Prop := StronglySorted Z.lt l.

End ProgramManager.

(** ** The abstract syntax tree and the symbol table

    The headers that declare tokens and AST nodes are not part of the
    sources at hand; the types below list the enumerators and the node
    fields that [fasterbasic_semantic.cpp] and [fasterbasic_ircode.cpp]
    name. *)

Module TokenType.
Inductive t : Type :=
| PLUS | MINUS | MULTIPLY | DIVIDE | INT_DIVIDE | MOD | POWER
| EQUAL | NOT_EQUAL | LESS_THAN | LESS_EQUAL | GREATER_THAN | GREATER_EQUAL
| AND | OR | XOR | EQV | IMP | NOT
| TYPE_INT | TYPE_FLOAT | TYPE_DOUBLE | TYPE_STRING
| UNKNOWN.

#[global] Instance token_eq_dec : EqDecision t.
Proof. solve_decision. Defined.

(** [op >= TokenType::EQUAL && op <= TokenType::GREATER_EQUAL]: the six
    comparison tokens, which the token enumeration lists in a row. *)
Definition is_comparison (op : t) : bool :=
  match op with
  | EQUAL | NOT_EQUAL | LESS_THAN | LESS_EQUAL | GREATER_THAN | GREATER_EQUAL => true
  | _ => false
  end.
End TokenType.

Module VariableType.
Inductive t : Type := INT | FLOAT | DOUBLE | STRING | UNICODE | VOID | UNKNOWN.

#[global] Instance type_eq_dec : EqDecision t.
Proof. solve_decision. Defined.

(** [type == STRING || type == UNICODE]. *)
Definition is_string (ty : t) : bool :=
  match ty with STRING | UNICODE => true | _ => false end.
End VariableType.

(** [ModularCommands::ReturnType], the return tag of a registry function. *)
Module ReturnType.
Inductive t : Type := VOID | INT | FLOAT | STRING | BOOL.
End ReturnType.

Record SourceLocation : Type := { line : Z; column : Z }.

#[global] Instance SourceLocation_eq_dec : EqDecision SourceLocation.
Proof. solve_decision. Defined.

(** A source position, for examples. *)
Definition at_line (n : Z) : SourceLocation := {| line := n; column := 1 |}.

#[local] Set Warnings "-register-all".

Inductive Expression : Type :=
| NumberExpression (value : Q)
| StringExpression (value : string)
| VariableExpression (name : string) (location : SourceLocation)
| ArrayAccessExpression (name : string) (indices : list Expression)
                        (location : SourceLocation)
| FunctionCallExpression (name : string) (arguments : list Expression) (isFN : bool)
                         (location : SourceLocation)
| RegistryFunctionExpression (name : string) (arguments : list Expression)
                             (returnType : ReturnType.t) (location : SourceLocation)
| BinaryExpression (left : Expression) (op : TokenType.t) (right : Expression)
| UnaryExpression (op : TokenType.t) (expr : Expression)
| IIFExpression (condition trueValue falseValue : Expression).

(** One array of a [DIM] statement. *)
Record ArrayDim : Type := {
  dim_name : string;
  dim_typeSuffix : TokenType.t;
  dim_dimensions : list Expression
}.

(** [DoStatement::ConditionType] and [LoopStatement::ConditionType]. *)
Module ConditionType.
Inductive t : Type := NONE | WHILE | UNTIL.
End ConditionType.

(** The statements covered by this development.  Each carries its source
    location first; a pointer that may be null is an [option]. *)
Inductive Statement : Type :=
| PrintStatement (location : SourceLocation) (items : list Expression)
| LetStatement (location : SourceLocation) (variable : string)
               (indices : list Expression) (value : Expression)
| GotoStatement (location : SourceLocation) (isLabel : bool) (label : string)
                (lineNumber : Z)
| GosubStatement (location : SourceLocation) (isLabel : bool) (label : string)
                 (lineNumber : Z)
| IfStatement (location : SourceLocation) (condition : Expression)
              (hasGoto : bool) (gotoLine : Z)
              (thenStatements elseStatements : list Statement)
| ForStatement (location : SourceLocation) (variable : string)
               (start end_ : Expression) (step : option Expression)
| NextStatement (location : SourceLocation) (variable : string)
| WhileStatement (location : SourceLocation) (condition : Expression)
| WendStatement (location : SourceLocation)
| RepeatStatement (location : SourceLocation)
| UntilStatement (location : SourceLocation) (condition : Expression)
| DoStatement (location : SourceLocation) (conditionType : ConditionType.t)
              (condition : option Expression)
| LoopStatement (location : SourceLocation) (conditionType : ConditionType.t)
                (condition : option Expression)
| DimStatement (location : SourceLocation) (arrays : list ArrayDim)
| DefStatement (location : SourceLocation) (functionName : string)
               (parameters : list string) (body : Expression)
| LabelStatement (location : SourceLocation) (labelName : string)
| EndStatement (location : SourceLocation)
| RemStatement (location : SourceLocation).

Record ProgramLine : Type := {
  lineNumber : Z;
  statements : list Statement;
  line_location : SourceLocation
}.

Record Program : Type := { lines : list ProgramLine }.

(** [CompilerOptions], as far as [analyze] reads it. *)
Record CompilerOptions : Type := {
  opt_arrayBase : Z;
  opt_unicodeMode : bool;
  opt_errorTracking : bool;
  opt_cancellableLoops : bool
}.

(** *** Symbols (fasterbasic_semantic.h) *)

Record VariableSymbol : Type := {
  var_name : string;
  var_type : VariableType.t;
  var_isDeclared : bool;
  var_isUsed : bool;
  var_firstUse : SourceLocation
}.

Record ArraySymbol : Type := {
  arr_name : string;
  arr_type : VariableType.t;
  arr_dimensions : list Z;
  arr_isDeclared : bool;
  arr_declaration : SourceLocation;
  arr_totalSize : Z
}.

Record FunctionSymbol : Type := {
  fn_name : string;
  fn_parameters : list string;
  fn_returnType : VariableType.t;
  fn_definition : SourceLocation;
  fn_body : option Expression          (* pointer into the AST, may be null *)
}.

Record LineNumberSymbol : Type := {
  ln_lineNumber : Z;
  ln_programLineIndex : Z;
  ln_references : list SourceLocation
}.

Record LabelSymbol : Type := {
  lbl_name : string;
  lbl_labelId : Z;
  lbl_programLineIndex : Z;
  lbl_definition : SourceLocation;
  lbl_references : list SourceLocation
}.

Record ConstantSymbol : Type := {
  const_value : ConstantValue;
  const_index : Z
}.

Record SymbolTable : Type := {
  variables : gmap string VariableSymbol;
  arrays : gmap string ArraySymbol;
  functions : gmap string FunctionSymbol;
  lineNumbers : gmap Z LineNumberSymbol;
  labels : gmap string LabelSymbol;
  constants : gmap string ConstantSymbol;
  nextLabelId : Z;
  arrayBase : Z;
  unicodeMode : bool;
  errorTracking : bool;
  cancellableLoops : bool;
  eventsUsed : bool
}.

(** [SymbolTable()]: the member initializers of the struct. *)
Definition SymbolTable_new : SymbolTable :=
  {| variables := ∅; arrays := ∅; functions := ∅; lineNumbers := ∅; labels := ∅;
     constants := ∅;
     nextLabelId := 10000;   (* start label IDs at 10000 to avoid conflicts with line numbers *)
     arrayBase := 1; unicodeMode := false; errorTracking := true;
     cancellableLoops := true; eventsUsed := false |}.

Module SemanticErrorType.
Inductive t : Type :=
| UNDEFINED_LINE | UNDEFINED_LABEL | DUPLICATE_LABEL | UNDEFINED_VARIABLE
| UNDEFINED_ARRAY | UNDEFINED_FUNCTION | ARRAY_NOT_DECLARED | ARRAY_REDECLARED
| FUNCTION_REDECLARED | TYPE_MISMATCH | WRONG_DIMENSION_COUNT | INVALID_ARRAY_INDEX
| CONTROL_FLOW_MISMATCH | NEXT_WITHOUT_FOR | WEND_WITHOUT_WHILE | UNTIL_WITHOUT_REPEAT
| LOOP_WITHOUT_DO | FOR_WITHOUT_NEXT | WHILE_WITHOUT_WEND | DO_WITHOUT_LOOP
| REPEAT_WITHOUT_UNTIL | RETURN_WITHOUT_GOSUB | DUPLICATE_LINE_NUMBER.

#[global] Instance error_type_eq_dec : EqDecision t.
Proof. solve_decision. Defined.
End SemanticErrorType.

(** A diagnostic is kept as its kind and its location; the message text
    is a rendering of the two and of the statement's fields. *)
Record SemanticError : Type := {
  err_type : SemanticErrorType.t;
  err_location : SourceLocation
}.

#[global] Instance SemanticError_eq_dec : EqDecision SemanticError.
Proof. solve_decision. Defined.

Inductive SemanticWarning : Type :=
| NonConstantDimension (location : SourceLocation)
| UnusedVariable (name : string) (location : SourceLocation).

(** *** Type suffixes of names *)

(** [name.back() == '$' || (name.size() > 7 && name ends in "_STRING")]. *)
Definition has_string_suffix (name : string) : bool :=
  match Cpp.back name with
  | Some c => Ascii.eqb c "$" || Cpp.has_proper_suffix "_STRING" name
  | None => false
  end.

(** ** src/fasterbasic_ircode.cpp: the IR generator *)

Module IROpcode.
Inductive t : Type :=
| PUSH_INT | PUSH_DOUBLE | PUSH_STRING
| LOAD_CONST | LOAD_VAR | STORE_VAR | LOAD_ARRAY | STORE_ARRAY
| ADD | SUB | MUL | DIV | IDIV | POW | MOD
| EQ | NE | LT | LE | GT | GE
| AND | OR | XOR | EQV | IMP | NEG | NOT
| STR_CONCAT | UNICODE_CONCAT
| CALL_FUNCTION | CALL_BUILTIN
| LABEL | JUMP | WHILE_START | WHILE_END
| NOP | HALT.

#[global] Instance opcode_eq_dec : EqDecision t.
Proof. solve_decision. Defined.
End IROpcode.

(** [IROperand], a small tagged variant of int, double and string. *)
Inductive IROperand : Type :=
| OpInt (i : Z)
| OpDouble (d : Q)
| OpString (s : string).

Record IRInstruction : Type := {
  opcode : IROpcode.t;
  operand1 : option IROperand;
  operand2 : option IROperand;
  sourceLineNumber : Z;
  blockId : Z;
  arrayElementTypeSuffix : string;
  isLoopJump : bool
}.

(** The control-flow graph is built by a component that is not among the
    sources; the generator reads the first line of each block and asks the
    graph whether a jump is a back edge. *)
Record BasicBlock : Type := {
  block_id : Z;
  block_firstLineNumber : Z
}.

Record ControlFlowGraph : Type := {
  blocks : list BasicBlock;
  isBackEdge : Z → Z → bool
}.

(** Modelled from the spec: [ControlFlowGraph::getBlockForLineOrNext],
    whose body is not among the sources.  Section 4.6: "block_for_line_or_next(n)
    returns the block with the smallest first line >= n".  The candidate
    found so far is kept while the blocks are scanned in order. *)
Definition better_block (lineNumber : Z) (best : option BasicBlock) (b : BasicBlock)
  : option BasicBlock :=
  if block_firstLineNumber b <? lineNumber then best
  else match best with
       | None => Some b
       | Some b0 =>
           if block_firstLineNumber b <? block_firstLineNumber b0 then Some b else best
       end.

Definition blockForLineOrNext (cfg : ControlFlowGraph) (lineNumber : Z)
  : option BasicBlock :=
  fold_left (better_block lineNumber) (blocks cfg) None.

(** The generator tests the returned block id with [blockId >= 0]: a
    negative id stands for "no such block". *)
Definition getBlockForLineOrNext (cfg : ControlFlowGraph) (lineNumber : Z) : Z :=
  match blockForLineOrNext cfg lineNumber with
  | Some b => block_id b
  | None => -1
  end.

(** [static std::string extractTypeSuffix(const std::string& name)]. *)
Definition extractTypeSuffix (name : string) : string :=
  match Cpp.back name with
  | None => ""
  | Some lastChar =>
      if Ascii.eqb lastChar "%" then "%"
      else if Ascii.eqb lastChar "#" then "#"
      else if Ascii.eqb lastChar "!" then "!"
      else if Ascii.eqb lastChar "$" then "$"
      else if Ascii.eqb lastChar "&" then "&"
      else ""
  end.

Module IRGen.

(** [struct UserFunction]: a [DEF FN] kept for inlining. *)
Record UserFunction : Type := {
  uf_name : string;
  uf_parameters : list string;
  uf_body : Expression
}.

(** [struct FunctionDef]: the generator only looks the name up. *)
Record FunctionDef : Type := {
  fd_name : string;
  fd_returnType : TokenType.t
}.

(** The members of [IRGenerator] that the embedded functions touch.
    [instructions] is [m_code->instructions]; [m_whileLoopLabels] is a
    vector used as a stack, its back is the head of the list. *)
Record t : Type := Build {
  m_cfg : ControlFlowGraph;
  m_symbols : SymbolTable;
  instructions : list IRInstruction;
  m_nextLabel : Z;
  m_blockLabels : gmap Z Z;
  m_currentLineNumber : Z;
  m_currentBlockId : Z;
  m_inFunctionInlining : bool;
  m_parameterMap : gmap string string;
  m_userFunctions : gmap string UserFunction;
  m_functions : gmap string FunctionDef;
  m_whileLoopLabels : list Z
}.

(** The state at the start of [generate]: labels are minted from 1. *)
Definition start (cfg : ControlFlowGraph) (symbols : SymbolTable)
    (functionDefs : gmap string FunctionDef) : t :=
  {| m_cfg := cfg; m_symbols := symbols; instructions := []; m_nextLabel := 1;
     m_blockLabels := ∅; m_currentLineNumber := 0; m_currentBlockId := -1;
     m_inFunctionInlining := false; m_parameterMap := ∅; m_userFunctions := ∅;
     m_functions := functionDefs; m_whileLoopLabels := [] |}.

Definition set_instructions (v : list IRInstruction) (g : t) : t :=
  Build (m_cfg g) (m_symbols g) v (m_nextLabel g) (m_blockLabels g)
        (m_currentLineNumber g) (m_currentBlockId g) (m_inFunctionInlining g)
        (m_parameterMap g) (m_userFunctions g) (m_functions g) (m_whileLoopLabels g).

Definition set_nextLabel (v : Z) (g : t) : t :=
  Build (m_cfg g) (m_symbols g) (instructions g) v (m_blockLabels g)
        (m_currentLineNumber g) (m_currentBlockId g) (m_inFunctionInlining g)
        (m_parameterMap g) (m_userFunctions g) (m_functions g) (m_whileLoopLabels g).

Definition set_blockLabels (v : gmap Z Z) (g : t) : t :=
  Build (m_cfg g) (m_symbols g) (instructions g) (m_nextLabel g) v
        (m_currentLineNumber g) (m_currentBlockId g) (m_inFunctionInlining g)
        (m_parameterMap g) (m_userFunctions g) (m_functions g) (m_whileLoopLabels g).

Definition setSourceContext (lineNumber blockId : Z) (g : t) : t :=
  Build (m_cfg g) (m_symbols g) (instructions g) (m_nextLabel g) (m_blockLabels g)
        lineNumber blockId (m_inFunctionInlining g)
        (m_parameterMap g) (m_userFunctions g) (m_functions g) (m_whileLoopLabels g).

Definition set_inFunctionInlining (v : bool) (g : t) : t :=
  Build (m_cfg g) (m_symbols g) (instructions g) (m_nextLabel g) (m_blockLabels g)
        (m_currentLineNumber g) (m_currentBlockId g) v
        (m_parameterMap g) (m_userFunctions g) (m_functions g) (m_whileLoopLabels g).

Definition set_parameterMap (v : gmap string string) (g : t) : t :=
  Build (m_cfg g) (m_symbols g) (instructions g) (m_nextLabel g) (m_blockLabels g)
        (m_currentLineNumber g) (m_currentBlockId g) (m_inFunctionInlining g)
        v (m_userFunctions g) (m_functions g) (m_whileLoopLabels g).

Definition set_userFunctions (v : gmap string UserFunction) (g : t) : t :=
  Build (m_cfg g) (m_symbols g) (instructions g) (m_nextLabel g) (m_blockLabels g)
        (m_currentLineNumber g) (m_currentBlockId g) (m_inFunctionInlining g)
        (m_parameterMap g) v (m_functions g) (m_whileLoopLabels g).

Definition set_whileLoopLabels (v : list Z) (g : t) : t :=
  Build (m_cfg g) (m_symbols g) (instructions g) (m_nextLabel g) (m_blockLabels g)
        (m_currentLineNumber g) (m_currentBlockId g) (m_inFunctionInlining g)
        (m_parameterMap g) (m_userFunctions g) (m_functions g) v.

(** An instruction stamped with the current source context. *)
Definition instruction (op : IROpcode.t) (op1 op2 : option IROperand)
    (suffix : string) (isLoop : bool) (g : t) : IRInstruction :=
  {| opcode := op; operand1 := op1; operand2 := op2;
     sourceLineNumber := m_currentLineNumber g; blockId := m_currentBlockId g;
     arrayElementTypeSuffix := suffix; isLoopJump := isLoop |}.

(** [m_code->emit(instr)] and [m_code->instructions.push_back(instr)]. *)
Definition push_back (i : IRInstruction) (g : t) : t :=
  set_instructions (instructions g ++ [i]) g.

(** The overloads of [emit], by number of operands. *)
Definition emit (op : IROpcode.t) (g : t) : t :=
  push_back (instruction op None None "" false g) g.

Definition emit1 (op : IROpcode.t) (op1 : IROperand) (g : t) : t :=
  push_back (instruction op (Some op1) None "" false g) g.

Definition emit2 (op : IROpcode.t) (op1 op2 : IROperand) (g : t) : t :=
  push_back (instruction op (Some op1) (Some op2) "" false g) g.

Definition emitLoopJump (op : IROpcode.t) (op1 : IROperand) (isLoop : bool) (g : t) : t :=
  push_back (instruction op (Some op1) None "" isLoop g) g.

Definition allocateLabel (g : t) : Z * t :=
  (m_nextLabel g, set_nextLabel (m_nextLabel g + 1) g).

Definition getLabelForBlock (blockId : Z) (g : t) : Z * t :=
  match m_blockLabels g !! blockId with
  | Some labelId => (labelId, g)
  | None =>
      let '(labelId, g1) := allocateLabel g in
      (labelId, set_blockLabels (<[blockId := labelId]> (m_blockLabels g1)) g1)
  end.

Definition getLabelForLineNumber (lineNumber : Z) (g : t) : Z * t :=
  (* the block for this line, or for the next line when the target does not exist *)
  let blockId := getBlockForLineOrNext (m_cfg g) lineNumber in
  if blockId >=? 0 then getLabelForBlock blockId g
  else allocateLabel g.


(** *** String-typed expressions *)

(** The built-in string functions, by original and by mangled name. *)
Definition builtin_string_functions : list string :=
  [ "LEFT$"; "RIGHT$"; "MID$"; "CHR$"; "STR$";
    "LEFT_STRING"; "RIGHT_STRING"; "MID_STRING"; "CHR_STRING";
    "STR_STRING"; "STRING_STRING"; "SPACE_STRING"; "LCASE_STRING";
    "UCASE_STRING"; "LTRIM_STRING"; "RTRIM_STRING"; "TRIM_STRING";
    "REVERSE_STRING" ].

Definition is_builtin_string_function (name : string) : bool :=
  existsb (String.eqb name) builtin_string_functions.

Fixpoint isStringExpression (symbols : SymbolTable) (expr : Expression) : bool :=
  match expr with
  | StringExpression _ => true
  | VariableExpression name _ =>
      (* look the variable up in the symbol table *)
      match variables symbols !! name with
      | Some v => VariableType.is_string (var_type v)
      | None =>
          (* also check the arrays table *)
          match arrays symbols !! name with
          | Some a => VariableType.is_string (arr_type a)
          | None => has_string_suffix name   (* suffix if not in symbol table *)
          end
      end
  | ArrayAccessExpression name _ _ =>
      (* array access, which might be a function call in disguise *)
      is_builtin_string_function name || has_string_suffix name
  | FunctionCallExpression name _ _ _ =>
      is_builtin_string_function name || has_string_suffix name
  | BinaryExpression lhs op rhs =>
      match op with
      | TokenType.PLUS =>
          isStringExpression symbols lhs || isStringExpression symbols rhs
      | _ => false
      end
  | IIFExpression _ trueValue falseValue =>
      isStringExpression symbols trueValue || isStringExpression symbols falseValue
  | NumberExpression _ | RegistryFunctionExpression _ _ _ _ | UnaryExpression _ _ => false
  end.

(** *** Serialization of simple conditions *)

Definition backslash : ascii := "092".
Definition quote : ascii := "034".

(** [while ((pos = s.find(c, pos)) != npos) { s.replace(pos, 1, by); pos += 2; }]
    with a two-character [by]: every [c] is replaced, left to right. *)
Fixpoint replace_each (c : ascii) (by_ : string) (s : string) : string :=
  match s with
  | EmptyString => EmptyString
  | String x s' =>
      if Ascii.eqb x c then by_ +:+ replace_each c by_ s'
      else String x (replace_each c by_ s')
  end.

Definition escape_string (value : string) : string :=
  replace_each quote (String backslash (String quote EmptyString))
    (replace_each backslash (String backslash (String backslash EmptyString)) value).

(** The operator table of [serializeExpression]; [None] is its [default]. *)
Definition serialize_operator (op : TokenType.t) : option string :=
  match op with
  | TokenType.PLUS => Some "+"
  | TokenType.MINUS => Some "-"
  | TokenType.MULTIPLY => Some "*"
  | TokenType.DIVIDE => Some "/"
  | TokenType.INT_DIVIDE => Some "//"
  | TokenType.MOD => Some "%"
  | TokenType.POWER => Some "^"
  | TokenType.EQUAL => Some "=="
  | TokenType.NOT_EQUAL => Some "~="
  | TokenType.LESS_THAN => Some "<"
  | TokenType.LESS_EQUAL => Some "<="
  | TokenType.GREATER_THAN => Some ">"
  | TokenType.GREATER_EQUAL => Some ">="
  | TokenType.AND => Some "and"
  | TokenType.OR => Some "or"
  | _ => None
  end.

(** Returns the empty string for expressions that cannot be deferred. *)
Fixpoint serializeExpression (expr : Expression) : string :=
  match expr with
  | NumberExpression value => Cpp.double_to_string value
  | StringExpression value =>
      String quote (escape_string value +:+ String quote EmptyString)
  | VariableExpression name _ => "var_" +:+ name
  | BinaryExpression lhs op rhs =>
      let l := serializeExpression lhs in
      let r := serializeExpression rhs in
      if Cpp.string_empty l || Cpp.string_empty r then ""
      else match serialize_operator op with
           | Some o => "(" +:+ l +:+ " " +:+ o +:+ " " +:+ r +:+ ")"
           | None => ""      (* unknown operator, fall back *)
           end
  | UnaryExpression op e =>
      let operand := serializeExpression e in
      if Cpp.string_empty operand then ""
      else match op with
           | TokenType.MINUS => "(-" +:+ operand +:+ ")"
           | TokenType.NOT => "(not " +:+ operand +:+ ")"
           | _ => operand
           end
  | FunctionCallExpression _ _ _ _ | RegistryFunctionExpression _ _ _ _ => ""
  | ArrayAccessExpression _ _ _ | IIFExpression _ _ _ => ""
  end.

(** *** Expressions *)

(** A loop [for (e : es) generateExpression(e)], over a generator [gen]
    that may run out of fuel. *)
Fixpoint generate_each (gen : Expression → t → option t) (es : list Expression) (g : t)
  : option t :=
  match es with
  | [] => Some g
  | e :: es' =>
      match gen e g with
      | Some g' => generate_each gen es' g'
      | None => None
      end
  end.

(** The argument loop of [generateInlinedFunction]: each argument that has
    a parameter is evaluated, stored in a temporary, and the parameter is
    mapped to the temporary. *)
Fixpoint bind_arguments (gen : Expression → t → option t) (funcName : string)
    (arguments : list Expression) (parameters : list string) (g : t) : option t :=
  match arguments, parameters with
  | a :: arguments', p :: parameters' =>
      match gen a g with
      | None => None
      | Some g1 =>
          let tempVar := "__fn_" +:+ funcName +:+ "_" +:+ p in
          let g2 := emit1 IROpcode.STORE_VAR (OpString tempVar) g1 in
          bind_arguments gen funcName arguments' parameters'
            (set_parameterMap (<[p := tempVar]> (m_parameterMap g2)) g2)
      end
  | _, _ => Some g
  end.

(** [generateInlinedFunction]; [gen] is [generateExpression], to which the
    source recurses. *)
Definition generateInlinedFunction (gen : Expression → t → option t)
    (funcName : string) (arguments : list Expression) (g : t) : option t :=
  match m_userFunctions g !! funcName with
  | None => Some (emit1 IROpcode.PUSH_INT (OpInt 0) g)   (* push dummy value *)
  | Some func =>
      (* save the current parameter map *)
      let savedParamMap := m_parameterMap g in
      let savedInlining := m_inFunctionInlining g in
      match bind_arguments gen funcName arguments (uf_parameters func) g with
      | None => None
      | Some g1 =>
          match gen (uf_body func) (set_inFunctionInlining true g1) with
          | None => None
          | Some g2 =>
              (* restore the previous state *)
              Some (set_inFunctionInlining savedInlining (set_parameterMap savedParamMap g2))
          end
      end
  end.

Definition arg_count (es : list Expression) : IROperand :=
  OpInt (Cpp.to_int (Z.of_nat (length es))).

(** The opcode of a binary operator other than [+]. *)
Definition binary_opcode (op : TokenType.t) : IROpcode.t :=
  match op with
  | TokenType.MINUS => IROpcode.SUB
  | TokenType.MULTIPLY => IROpcode.MUL
  | TokenType.DIVIDE => IROpcode.DIV
  | TokenType.INT_DIVIDE => IROpcode.IDIV
  | TokenType.POWER => IROpcode.POW
  | TokenType.MOD => IROpcode.MOD
  | TokenType.EQUAL => IROpcode.EQ
  | TokenType.NOT_EQUAL => IROpcode.NE
  | TokenType.LESS_THAN => IROpcode.LT
  | TokenType.LESS_EQUAL => IROpcode.LE
  | TokenType.GREATER_THAN => IROpcode.GT
  | TokenType.GREATER_EQUAL => IROpcode.GE
  | TokenType.AND => IROpcode.AND
  | TokenType.OR => IROpcode.OR
  | TokenType.XOR => IROpcode.XOR
  | TokenType.EQV => IROpcode.EQV
  | TokenType.IMP => IROpcode.IMP
  | _ => IROpcode.NOP     (* unknown operator *)
  end.

(** The opcode of [lhs + rhs]: concatenation when a side is a string. *)
Definition plus_opcode (lhs rhs : Expression) (g : t) : IROpcode.t :=
  if isStringExpression (m_symbols g) lhs || isStringExpression (m_symbols g) rhs
  then if unicodeMode (m_symbols g) then IROpcode.UNICODE_CONCAT else IROpcode.STR_CONCAT
  else IROpcode.ADD.

(** [generateExpression].  The source recurses on sub-expressions and, at
    a [DEF FN] call, on the body found in [m_userFunctions]; the latter is
    not structural, so every call spends one unit of [fuel] and [None]
    means that the fuel ran out. *)
Fixpoint generateExpression (fuel : nat) (expr : Expression) (g : t) : option t :=
  match fuel with
  | O => None
  | S fuel' =>
      let gen := generateExpression fuel' in
      match expr with
      | NumberExpression value =>
          if Cpp.is_integral value
             && Qle_bool (inject_Z Cpp.INT_MIN) value
             && Qle_bool value (inject_Z Cpp.INT_MAX)
          then Some (emit1 IROpcode.PUSH_INT (OpInt (Cpp.double_to_int value)) g)
          else Some (emit1 IROpcode.PUSH_DOUBLE (OpDouble value) g)
      | StringExpression value =>
          Some (emit1 IROpcode.PUSH_STRING (OpString value) g)
      | VariableExpression name _ =>
          match constants (m_symbols g) !! name with
          | Some constValue =>
              (* a constant, loaded by index *)
              Some (emit1 IROpcode.LOAD_CONST (OpInt (const_index constValue)) g)
          | None =>
              match (if m_inFunctionInlining g then m_parameterMap g !! name else None) with
              | Some tempVar =>
                  (* a function parameter being inlined *)
                  Some (emit1 IROpcode.LOAD_VAR (OpString tempVar) g)
              | None => Some (emit1 IROpcode.LOAD_VAR (OpString name) g)
              end
          end
      | ArrayAccessExpression name indices _ =>
          match arrays (m_symbols g) !! name with
          | Some _ =>
              (* a declared array *)
              match generate_each gen indices g with
              | None => None
              | Some g1 =>
                  Some (push_back
                          (instruction IROpcode.LOAD_ARRAY (Some (OpString name))
                             (Some (arg_count indices)) (extractTypeSuffix name) false g1)
                          g1)
              end
          | None =>
              match m_userFunctions g !! name with
              | Some _ => generateInlinedFunction gen name indices g   (* DEF FN *)
              | None =>
                  match generate_each gen indices g with
                  | None => None
                  | Some g1 =>
                      match m_functions g !! name with
                      | Some _ =>
                          Some (emit2 IROpcode.CALL_FUNCTION (OpString name)
                                  (arg_count indices) g1)
                      | None =>
                          Some (emit2 IROpcode.CALL_BUILTIN (OpString name)
                                  (arg_count indices) g1)
                      end
                  end
              end
          end
      | BinaryExpression lhs op rhs =>
          match gen lhs g with
          | None => None
          | Some g1 =>
              match gen rhs g1 with
              | None => None
              | Some g2 =>
                  match op with
                  | TokenType.PLUS => Some (emit (plus_opcode lhs rhs g2) g2)
                  | _ => Some (emit (binary_opcode op) g2)
                  end
              end
          end
      | UnaryExpression op e =>
          match gen e g with
          | None => None
          | Some g1 =>
              match op with
              | TokenType.MINUS => Some (emit IROpcode.NEG g1)
              | TokenType.NOT => Some (emit IROpcode.NOT g1)
              | TokenType.PLUS => Some g1
              | _ => Some (emit IROpcode.NOP g1)
              end
          end
      | FunctionCallExpression name arguments _ _ =>
          match m_userFunctions g !! name with
          | Some _ => generateInlinedFunction gen name arguments g   (* DEF FN *)
          | None =>
              match generate_each gen arguments g with
              | None => None
              | Some g1 =>
                  match m_functions g !! name with
                  | Some _ =>
                      Some (emit2 IROpcode.CALL_FUNCTION (OpString name)
                              (arg_count arguments) g1)
                  | None =>
                      Some (emit2 IROpcode.CALL_BUILTIN (OpString name)
                              (arg_count arguments) g1)
                  end
              end
          end
      | RegistryFunctionExpression name arguments _ _ =>
          match generate_each gen arguments g with
          | None => None
          | Some g1 =>
              Some (emit2 IROpcode.CALL_BUILTIN (OpString name) (arg_count arguments) g1)
          end
      | IIFExpression condition trueValue falseValue =>
          match gen condition g with
          | None => None
          | Some g1 =>
              match gen trueValue g1 with
              | None => None
              | Some g2 =>
                  match gen falseValue g2 with
                  | None => None
                  | Some g3 =>
                      Some (emit2 IROpcode.CALL_BUILTIN (OpString "__IIF") (OpInt 3) g3)
                  end
              end
          end
      end
  end.

(** *** Statements *)

(** [generateWhile(stmt, lineNumber)], [condition] being [stmt->condition]. *)
Definition generateWhile (fuel : nat) (condition : Expression) (lineNumber : Z) (g : t)
  : option t :=
  let g := setSourceContext lineNumber (m_currentBlockId g) g in
  (* try to serialize the expression for deferred evaluation *)
  let serializedExpr := serializeExpression condition in
  if negb (Cpp.string_empty serializedExpr) then
    (* the expression is passed as a string; no label is needed *)
    let g1 := emit1 IROpcode.WHILE_START (OpString serializedExpr) g in
    Some (set_whileLoopLabels (-1 :: m_whileLoopLabels g1) g1)
  else
    (* a label before the condition, to jump back and re-evaluate it *)
    let '(whileLabel, g1) := allocateLabel g in
    let g2 := emit1 IROpcode.LABEL (OpInt whileLabel) g1 in
    let g3 := set_whileLoopLabels (whileLabel :: m_whileLoopLabels g2) g2 in
    match generateExpression fuel condition g3 with
    | None => None
    | Some g4 => Some (emit1 IROpcode.WHILE_START (OpInt whileLabel) g4)
    end.

Definition generateWend (lineNumber : Z) (g : t) : Cpp.Result t :=
  let g := setSourceContext lineNumber (m_currentBlockId g) g in
  match m_whileLoopLabels g with
  | [] => Cpp.Throw "WEND without matching WHILE"
  | whileLabel :: rest =>
      let g1 := set_whileLoopLabels rest g in
      (* -1 marks deferred evaluation: no jump back is needed *)
      if whileLabel >=? 0 then Cpp.Ok (emit1 IROpcode.WHILE_END (OpInt whileLabel) g1)
      else Cpp.Ok (emit IROpcode.WHILE_END g1)
  end.

(** [generateGoto(stmt, lineNumber)]: [isLabel], [label] and [target] are
    the fields of the [GOTO]; [lineNumber] is the line of the statement. *)
Definition generateGoto (isLabel : bool) (label : string) (target : Z)
    (lineNumber : Z) (g : t) : t :=
  let g := setSourceContext lineNumber (m_currentBlockId g) g in
  if isLabel then
    (* symbolic label: its id comes from the symbol table *)
    let '(targetLabel, g1) :=
      match labels (m_symbols g) !! label with
      | Some sym => (lbl_labelId sym, g)
      | None => allocateLabel g      (* fallback to avoid a crash *)
      end in
    emitLoopJump IROpcode.JUMP (OpInt targetLabel) false g1
  else
    (* line number: find the block containing this line *)
    let '(targetLabel, g1) := getLabelForLineNumber target g in
    let isLoop :=
      if (0 <? lineNumber) && (0 <? target)
      then isBackEdge (m_cfg g1) lineNumber target else false in
    emitLoopJump IROpcode.JUMP (OpInt targetLabel) isLoop g1.

(** [generateDef]: the function is stored for inlining; no IR is emitted. *)
Definition generateDef (functionName : string) (parameters : list string)
    (body : Expression) (lineNumber : Z) (g : t) : t :=
  let g := setSourceContext lineNumber (m_currentBlockId g) g in
  set_userFunctions
    (<[functionName := {| uf_name := functionName; uf_parameters := parameters;
                          uf_body := body |}]> (m_userFunctions g)) g.

Definition generateLet (fuel : nat) (variable : string) (indices : list Expression)
    (value : Expression) (lineNumber : Z) (g : t) : option t :=
  let g := setSourceContext lineNumber (m_currentBlockId g) g in
  match generateExpression fuel value g with
  | None => None
  | Some g1 =>
      match indices with
      | [] => Some (emit1 IROpcode.STORE_VAR (OpString variable) g1)
      | _ =>
          match generate_each (generateExpression fuel) indices g1 with
          | None => None
          | Some g2 =>
              Some (push_back
                      (instruction IROpcode.STORE_ARRAY (Some (OpString variable))
                         (Some (arg_count indices)) (extractTypeSuffix variable) false g2)
                      g2)
          end
      end
  end.

(** The first loop of [generate]: a label for every block, in the order
    of the graph, before any code is generated. *)
Definition label_blocks (bs : list BasicBlock) (g : t) : t :=
  fold_left (λ g b, snd (getLabelForBlock (block_id b) g)) bs g.

End IRGen.

(** ** Notions used to state the properties of the generator *)

Module IRSpec.
Import IRGen.

(** [extends g g']: [g'] is [g] with more instructions at the end. *)
Definition extends (g g' : IRGen.t) : Prop :=
  ∃ code, g' = set_instructions (instructions g ++ code) g.

(** The same, up to the parameter map. *)
Definition extends_params (g g' : IRGen.t) : Prop :=
  ∃ code pm, g' = set_parameterMap pm (set_instructions (instructions g ++ code) g).

(** The labels handed out to blocks are below the label counter, from 1
    on, and no two blocks share one. *)
Definition labels_fresh (g : IRGen.t) : Prop :=
  1 <= m_nextLabel g
  ∧ (∀ b l, m_blockLabels g !! b = Some l → 1 <= l < m_nextLabel g)
  ∧ (∀ b1 b2 l, m_blockLabels g !! b1 = Some l → m_blockLabels g !! b2 = Some l →
                b1 = b2).

(** The binary operators that [serializeExpression] knows how to print. *)
Definition deferrable_operator (op : TokenType.t) : bool :=
  match op with
  | TokenType.PLUS | TokenType.MINUS | TokenType.MULTIPLY | TokenType.DIVIDE
  | TokenType.INT_DIVIDE | TokenType.MOD | TokenType.POWER
  | TokenType.EQUAL | TokenType.NOT_EQUAL | TokenType.LESS_THAN
  | TokenType.LESS_EQUAL | TokenType.GREATER_THAN | TokenType.GREATER_EQUAL
  | TokenType.AND | TokenType.OR => true
  | _ => false
  end.

(** A condition built from number literals, string literals, variables,
    unary operators and the binary operators above. *)
Fixpoint simple_condition (e : Expression) : bool :=
  match e with
  | NumberExpression _ | StringExpression _ | VariableExpression _ _ => true
  | UnaryExpression _ e1 => simple_condition e1
  | BinaryExpression lhs op rhs =>
      simple_condition lhs && simple_condition rhs && deferrable_operator op
  | _ => false
  end.

(** The same with any binary operator, as the specification words it:
    "literals, variables, unary, binary, with no function calls". *)
Fixpoint simple_as_stated (e : Expression) : bool :=
  match e with
  | NumberExpression _ | StringExpression _ | VariableExpression _ _ => true
  | UnaryExpression _ e1 => simple_as_stated e1
  | BinaryExpression lhs _ rhs => simple_as_stated lhs && simple_as_stated rhs
  | _ => false
  end.

(** The generator right after [generateWhile] has minted the label of a
    condition that is not deferred, emitted it and pushed it. *)
Definition while_label_state (lineNumber : Z) (g : IRGen.t) : IRGen.t :=
  let g0 := setSourceContext lineNumber (m_currentBlockId g) g in
  let g2 := emit1 IROpcode.LABEL (OpInt (m_nextLabel g0))
              (set_nextLabel (m_nextLabel g0 + 1) g0) in
  set_whileLoopLabels (m_nextLabel g0 :: m_whileLoopLabels g2) g2.

(** A [WEND] met while the stack of loop labels is the one that a [WHILE]
    left in [g'] emits [WHILE_END] with the given operand and pops the
    stack back to [stack]. *)
Definition closes_with (operand : option IROperand) (stack : list Z) (g' : IRGen.t)
  : Prop :=
  ∀ lineNumber g2,
    m_whileLoopLabels g2 = m_whileLoopLabels g' →
    ∃ g3, generateWend lineNumber g2 = Cpp.Ok g3
          ∧ instructions g3
            = instructions g2
              ++ [instruction IROpcode.WHILE_END operand None "" false
                    (setSourceContext lineNumber (m_currentBlockId g2) g2)]
          ∧ m_whileLoopLabels g3 = stack.

(** The type recorded for a name is the one its suffix denotes
    (section 3.6: a type is derived from the sigil or normalized suffix). *)
Definition suffix_consistent (symbols : SymbolTable) : Prop :=
  (∀ name v, variables symbols !! name = Some v →
             VariableType.is_string (var_type v) = has_string_suffix name)
  ∧ (∀ name a, arrays symbols !! name = Some a →
               VariableType.is_string (arr_type a) = has_string_suffix name).








(** [chosen n seen r]: among the blocks [seen], [r] is one with the
    smallest first line that is at least [n], if there is any. *)
Definition chosen (n : Z) (seen : list BasicBlock) (r : option BasicBlock) : Prop :=
  match r with
  | None => ∀ b, b ∈ seen → block_firstLineNumber b < n
  | Some b =>
      b ∈ seen ∧ n <= block_firstLineNumber b
      ∧ ∀ b', b' ∈ seen → n <= block_firstLineNumber b' →
              block_firstLineNumber b <= block_firstLineNumber b'
  end.

(** A generator with an empty graph and an empty symbol table. *)
Definition empty_cfg : ControlFlowGraph :=
  {| blocks := []; isBackEdge := λ _ _, false |}.

Definition blank : IRGen.t := start empty_cfg SymbolTable_new ∅.

(** Induction on expressions that reaches the elements of argument lists. *)
Section ExpressionInduction.
Variable P : Expression → Prop.
Hypothesis H_number : ∀ value, P (NumberExpression value).
Hypothesis H_string : ∀ value, P (StringExpression value).
Hypothesis H_variable : ∀ name location, P (VariableExpression name location).
Hypothesis H_array : ∀ name indices location,
  Forall P indices → P (ArrayAccessExpression name indices location).
Hypothesis H_call : ∀ name arguments isFN location,
  Forall P arguments → P (FunctionCallExpression name arguments isFN location).
Hypothesis H_registry : ∀ name arguments returnType location,
  Forall P arguments → P (RegistryFunctionExpression name arguments returnType location).
Hypothesis H_binary : ∀ lhs op rhs, P lhs → P rhs → P (BinaryExpression lhs op rhs).
Hypothesis H_unary : ∀ op e, P e → P (UnaryExpression op e).
Hypothesis H_iif : ∀ c t f, P c → P t → P f → P (IIFExpression c t f).

Fixpoint Expression_strong_ind (e : Expression) : P e :=
  let all := fix all (es : list Expression) : Forall P es :=
    match es with
    | [] => @List.Forall_nil _ P
    | x :: es' => @List.Forall_cons _ P x es' (Expression_strong_ind x) (all es')
    end in
  match e with
  | NumberExpression value => H_number value
  | StringExpression value => H_string value
  | VariableExpression name location => H_variable name location
  | ArrayAccessExpression name indices location =>
      H_array name indices location (all indices)
  | FunctionCallExpression name arguments isFN location =>
      H_call name arguments isFN location (all arguments)
  | RegistryFunctionExpression name arguments returnType location =>
      H_registry name arguments returnType location (all arguments)
  | BinaryExpression lhs op rhs =>
      H_binary lhs op rhs (Expression_strong_ind lhs) (Expression_strong_ind rhs)
  | UnaryExpression op e1 => H_unary op e1 (Expression_strong_ind e1)
  | IIFExpression c t f =>
      H_iif c t f (Expression_strong_ind c) (Expression_strong_ind t)
        (Expression_strong_ind f)
  end.
End ExpressionInduction.

(** The names in call position in an expression, at any depth. *)
Fixpoint calls (e : Expression) : list string :=
  match e with
  | ArrayAccessExpression name indices _ => name :: flat_map calls indices
  | FunctionCallExpression name arguments _ _ => name :: flat_map calls arguments
  | RegistryFunctionExpression _ arguments _ _ => flat_map calls arguments
  | BinaryExpression lhs _ rhs => calls lhs ++ calls rhs
  | UnaryExpression _ e1 => calls e1
  | IIFExpression c t f => calls c ++ calls t ++ calls f
  | NumberExpression _ | StringExpression _ | VariableExpression _ _ => []
  end.

(** The [DEF FN] functions call each other without a cycle: a rank goes
    down along every call from a body to a [DEF FN] function. *)
Definition ranked (userFunctions : gmap string UserFunction) (rank : string → nat)
  : Prop :=
  ∀ f func callee,
    userFunctions !! f = Some func →
    callee ∈ calls (uf_body func) →
    is_Some (userFunctions !! callee) →
    (rank callee < rank f)%nat.

(** Lowering [e] returns, from every generator that holds [userFunctions]. *)
Definition terminates (userFunctions : gmap string UserFunction) (e : Expression)
  : Prop :=
  ∀ g, m_userFunctions g = userFunctions →
       ∃ fuel g', generateExpression fuel e g = Some g'.

(** [DEF FN F(X) = FN F(X)], and the generator that has seen it. *)
Definition self_call : Expression :=
  FunctionCallExpression "F" [VariableExpression "X" (at_line 10)] true (at_line 10).

Definition after_self_def : IRGen.t := generateDef "F" ["X"] self_call 10 blank.

End IRSpec.

(** ** src/fasterbasic_semantic.cpp: the semantic analyzer *)

Module Semantic.

Record ForContext : Type := {
  for_variable : string;
  for_location : SourceLocation
}.

(** The data members of [SemanticAnalyzer]. *)
Record t : Type := Build {
  m_symbolTable : SymbolTable;
  m_errors : list SemanticError;
  m_warnings : list SemanticWarning;
  m_constantsManager : ConstantsManager.t;
  (* configuration *)
  m_strictMode : bool;
  m_warnUnused : bool;
  m_requireExplicitDim : bool;
  m_cancellableLoops : bool;
  (* control flow stacks *)
  m_forStack : list ForContext;
  m_whileStack : list SourceLocation;
  m_repeatStack : list SourceLocation;
  m_doStack : list SourceLocation;
  (* current analysis context *)
  m_currentLineNumber : Z;
  (* built-in function registry: name -> argument count *)
  m_builtinFunctions : gmap string Z
}.

(** The analyzer as its constructor leaves it.  The constructor fills the
    built-in table from [initializeBuiltinFunctions] and from the global
    command registry, and the constants from [addPredefinedConstants];
    the three tables are arguments here. *)
Definition new (builtinFunctions : gmap string Z) (manager : ConstantsManager.t)
    (predefined : gmap string ConstantSymbol) : t :=
  {| m_symbolTable :=
       {| variables := ∅; arrays := ∅; functions := ∅; lineNumbers := ∅; labels := ∅;
          constants := predefined; nextLabelId := 10000; arrayBase := 1;
          unicodeMode := false; errorTracking := true; cancellableLoops := true;
          eventsUsed := false |};
     m_errors := []; m_warnings := []; m_constantsManager := manager;
     m_strictMode := false; m_warnUnused := true; m_requireExplicitDim := true;
     m_cancellableLoops := true;
     m_forStack := []; m_whileStack := []; m_repeatStack := []; m_doStack := [];
     m_currentLineNumber := 0; m_builtinFunctions := builtinFunctions |}.

(** *** Field updates *)

Definition set_symbolTable (v : SymbolTable) (s : t) : t :=
  Build v (m_errors s) (m_warnings s) (m_constantsManager s) (m_strictMode s)
        (m_warnUnused s) (m_requireExplicitDim s) (m_cancellableLoops s)
        (m_forStack s) (m_whileStack s) (m_repeatStack s) (m_doStack s)
        (m_currentLineNumber s) (m_builtinFunctions s).

Definition set_errors (v : list SemanticError) (s : t) : t :=
  Build (m_symbolTable s) v (m_warnings s) (m_constantsManager s) (m_strictMode s)
        (m_warnUnused s) (m_requireExplicitDim s) (m_cancellableLoops s)
        (m_forStack s) (m_whileStack s) (m_repeatStack s) (m_doStack s)
        (m_currentLineNumber s) (m_builtinFunctions s).

Definition set_warnings (v : list SemanticWarning) (s : t) : t :=
  Build (m_symbolTable s) (m_errors s) v (m_constantsManager s) (m_strictMode s)
        (m_warnUnused s) (m_requireExplicitDim s) (m_cancellableLoops s)
        (m_forStack s) (m_whileStack s) (m_repeatStack s) (m_doStack s)
        (m_currentLineNumber s) (m_builtinFunctions s).

Definition set_cancellableLoops (v : bool) (s : t) : t :=
  Build (m_symbolTable s) (m_errors s) (m_warnings s) (m_constantsManager s)
        (m_strictMode s) (m_warnUnused s) (m_requireExplicitDim s) v
        (m_forStack s) (m_whileStack s) (m_repeatStack s) (m_doStack s)
        (m_currentLineNumber s) (m_builtinFunctions s).

Definition set_forStack (v : list ForContext) (s : t) : t :=
  Build (m_symbolTable s) (m_errors s) (m_warnings s) (m_constantsManager s)
        (m_strictMode s) (m_warnUnused s) (m_requireExplicitDim s) (m_cancellableLoops s)
        v (m_whileStack s) (m_repeatStack s) (m_doStack s)
        (m_currentLineNumber s) (m_builtinFunctions s).

Definition set_whileStack (v : list SourceLocation) (s : t) : t :=
  Build (m_symbolTable s) (m_errors s) (m_warnings s) (m_constantsManager s)
        (m_strictMode s) (m_warnUnused s) (m_requireExplicitDim s) (m_cancellableLoops s)
        (m_forStack s) v (m_repeatStack s) (m_doStack s)
        (m_currentLineNumber s) (m_builtinFunctions s).

Definition set_repeatStack (v : list SourceLocation) (s : t) : t :=
  Build (m_symbolTable s) (m_errors s) (m_warnings s) (m_constantsManager s)
        (m_strictMode s) (m_warnUnused s) (m_requireExplicitDim s) (m_cancellableLoops s)
        (m_forStack s) (m_whileStack s) v (m_doStack s)
        (m_currentLineNumber s) (m_builtinFunctions s).

Definition set_doStack (v : list SourceLocation) (s : t) : t :=
  Build (m_symbolTable s) (m_errors s) (m_warnings s) (m_constantsManager s)
        (m_strictMode s) (m_warnUnused s) (m_requireExplicitDim s) (m_cancellableLoops s)
        (m_forStack s) (m_whileStack s) (m_repeatStack s) v
        (m_currentLineNumber s) (m_builtinFunctions s).

Definition set_currentLineNumber (v : Z) (s : t) : t :=
  Build (m_symbolTable s) (m_errors s) (m_warnings s) (m_constantsManager s)
        (m_strictMode s) (m_warnUnused s) (m_requireExplicitDim s) (m_cancellableLoops s)
        (m_forStack s) (m_whileStack s) (m_repeatStack s) (m_doStack s)
        v (m_builtinFunctions s).

Definition with_variables (v : gmap string VariableSymbol) (st : SymbolTable) : SymbolTable :=
  {| variables := v; arrays := arrays st; functions := functions st;
     lineNumbers := lineNumbers st; labels := labels st; constants := constants st;
     nextLabelId := nextLabelId st; arrayBase := arrayBase st;
     unicodeMode := unicodeMode st; errorTracking := errorTracking st;
     cancellableLoops := cancellableLoops st; eventsUsed := eventsUsed st |}.

Definition with_arrays (v : gmap string ArraySymbol) (st : SymbolTable) : SymbolTable :=
  {| variables := variables st; arrays := v; functions := functions st;
     lineNumbers := lineNumbers st; labels := labels st; constants := constants st;
     nextLabelId := nextLabelId st; arrayBase := arrayBase st;
     unicodeMode := unicodeMode st; errorTracking := errorTracking st;
     cancellableLoops := cancellableLoops st; eventsUsed := eventsUsed st |}.

Definition with_functions (v : gmap string FunctionSymbol) (st : SymbolTable) : SymbolTable :=
  {| variables := variables st; arrays := arrays st; functions := v;
     lineNumbers := lineNumbers st; labels := labels st; constants := constants st;
     nextLabelId := nextLabelId st; arrayBase := arrayBase st;
     unicodeMode := unicodeMode st; errorTracking := errorTracking st;
     cancellableLoops := cancellableLoops st; eventsUsed := eventsUsed st |}.

Definition with_lineNumbers (v : gmap Z LineNumberSymbol) (st : SymbolTable) : SymbolTable :=
  {| variables := variables st; arrays := arrays st; functions := functions st;
     lineNumbers := v; labels := labels st; constants := constants st;
     nextLabelId := nextLabelId st; arrayBase := arrayBase st;
     unicodeMode := unicodeMode st; errorTracking := errorTracking st;
     cancellableLoops := cancellableLoops st; eventsUsed := eventsUsed st |}.

(** A label is stored and the id counter moves on: [nextLabelId++]. *)
Definition with_label (name : string) (sym : LabelSymbol) (st : SymbolTable) : SymbolTable :=
  {| variables := variables st; arrays := arrays st; functions := functions st;
     lineNumbers := lineNumbers st; labels := <[name := sym]> (labels st);
     constants := constants st;
     nextLabelId := nextLabelId st + 1; arrayBase := arrayBase st;
     unicodeMode := unicodeMode st; errorTracking := errorTracking st;
     cancellableLoops := cancellableLoops st; eventsUsed := eventsUsed st |}.

Definition with_labels (v : gmap string LabelSymbol) (st : SymbolTable) : SymbolTable :=
  {| variables := variables st; arrays := arrays st; functions := functions st;
     lineNumbers := lineNumbers st; labels := v; constants := constants st;
     nextLabelId := nextLabelId st; arrayBase := arrayBase st;
     unicodeMode := unicodeMode st; errorTracking := errorTracking st;
     cancellableLoops := cancellableLoops st; eventsUsed := eventsUsed st |}.

Definition update_symbols (f : SymbolTable → SymbolTable) (s : t) : t :=
  set_symbolTable (f (m_symbolTable s)) s.

(** *** Error reporting *)

Definition error (type : SemanticErrorType.t) (loc : SourceLocation) (s : t) : t :=
  set_errors (m_errors s ++ [{| err_type := type; err_location := loc |}]) s.

Definition warning (w : SemanticWarning) (s : t) : t :=
  set_warnings (m_warnings s ++ [w]) s.

(** *** Types from suffixes and names *)

Definition string_type (s : t) : VariableType.t :=
  (* UNICODE in Unicode mode *)
  if unicodeMode (m_symbolTable s) then VariableType.UNICODE else VariableType.STRING.

Definition inferTypeFromSuffix (suffix : TokenType.t) (s : t) : VariableType.t :=
  match suffix with
  | TokenType.TYPE_INT => VariableType.INT
  | TokenType.TYPE_FLOAT => VariableType.FLOAT
  | TokenType.TYPE_DOUBLE => VariableType.DOUBLE
  | TokenType.TYPE_STRING => string_type s
  | _ => VariableType.UNKNOWN
  end.

Definition inferTypeFromName (name : string) (s : t) : VariableType.t :=
  match Cpp.back name with
  | None => VariableType.FLOAT
  | Some lastChar =>
      (* normalized suffixes first *)
      if Cpp.has_proper_suffix "_STRING" name then string_type s
      else if Cpp.has_proper_suffix "_INT" name then VariableType.INT
      else if Cpp.has_proper_suffix "_DOUBLE" name then VariableType.DOUBLE
      (* then the original BASIC suffixes *)
      else if Ascii.eqb lastChar "$" then string_type s
      else if Ascii.eqb lastChar "%" then VariableType.INT
      else if Ascii.eqb lastChar "!" then VariableType.FLOAT
      else if Ascii.eqb lastChar "#" then VariableType.DOUBLE
      else VariableType.FLOAT
  end.

Definition isNumericType (type : VariableType.t) : bool :=
  match type with
  | VariableType.INT | VariableType.FLOAT | VariableType.DOUBLE => true
  | _ => false
  end.

Definition promoteTypes (l r : VariableType.t) : VariableType.t :=
  let either ty := bool_decide (l = ty) || bool_decide (r = ty) in
  if either VariableType.UNICODE then VariableType.UNICODE
  else if either VariableType.STRING then VariableType.STRING
  else if either VariableType.DOUBLE then VariableType.DOUBLE
  else if either VariableType.FLOAT then VariableType.FLOAT
  else if either VariableType.INT then VariableType.INT
  else VariableType.FLOAT.

Definition checkTypeCompatibility (expected actual : VariableType.t)
    (loc : SourceLocation) (s : t) : t :=
  match expected, actual with
  | VariableType.UNKNOWN, _ | _, VariableType.UNKNOWN => s     (* can't check *)
  | _, _ =>
      if negb (Bool.eqb (VariableType.is_string expected) (VariableType.is_string actual))
      then error SemanticErrorType.TYPE_MISMATCH loc s
      else s
  end.

(** *** Built-in functions *)

Definition isBuiltinFunction (name : string) (s : t) : bool :=
  match m_builtinFunctions s !! name with Some _ => true | None => false end.

Definition getBuiltinArgCount (name : string) (s : t) : Z :=
  match m_builtinFunctions s !! name with
  | Some count => count
  | None => 0
  end.

Definition name_in (name : string) (names : list string) : bool :=
  existsb (String.eqb name) names.

(** SuperTerminal API functions that return INT. *)
Definition int_functions : list string :=
  [ "TEXT_GET_WIDTH"; "TEXT_GET_HEIGHT"; "CHUNKY_GET_WIDTH"; "CHUNKY_GET_HEIGHT";
    "COLOR_RGB"; "COLOR_RGBA"; "COLOR_HSV"; "FRAME_COUNT"; "RANDOM_INT";
    "KEY_PRESSED"; "KEY_JUST_PRESSED"; "KEY_JUST_RELEASED"; "KEY_GET_CHAR";
    "MOUSE_X"; "MOUSE_Y"; "MOUSE_GRID_X"; "MOUSE_GRID_Y";
    "MOUSE_BUTTON"; "MOUSE_BUTTON_PRESSED"; "MOUSE_BUTTON_RELEASED";
    "SPRITE_LOAD"; "SPRITE_LOAD_BUILTIN"; "DRAWINTOSPRITE";
    "DRAWTOFILE"; "ENDDRAWTOFILE"; "DRAWTOTILESET"; "DRAWTILE"; "ENDDRAWTOTILESET";
    "DISPLAY_WIDTH"; "DISPLAY_HEIGHT"; "CELL_WIDTH"; "CELL_HEIGHT";
    "SOUND_LOAD"; "SOUND_LOAD_BUILTIN"; "MUSIC_IS_PLAYING";
    "TILEMAP_INIT"; "TILEMAP_CREATE"; "TILEMAP_GET_WIDTH"; "TILEMAP_GET_HEIGHT";
    "TILESET_LOAD"; "TILESET_GET_COUNT"; "TILEMAP_CREATE_LAYER"; "TILEMAP_GET_TILE";
    "PARTICLE_INIT"; "PARTICLE_IS_READY"; "PARTICLE_EXPLODE"; "PARTICLE_EXPLODE_ADV";
    "PARTICLE_GET_COUNT";
    "ASSET_INIT"; "ASSET_IS_INITIALIZED"; "ASSET_LOAD"; "ASSET_LOAD_FILE";
    "ASSET_LOAD_BUILTIN"; "ASSET_IS_LOADED"; "ASSET_IMPORT"; "ASSET_IMPORT_DIR";
    "ASSET_EXPORT"; "ASSET_DELETE"; "ASSET_GET_SIZE"; "ASSET_GET_TYPE";
    "ASSET_EXISTS"; "ASSET_GET_COUNT"; "ASSET_GET_CACHE_SIZE";
    "ASSET_GET_CACHED_COUNT"; "ASSET_GET_DB_SIZE" ].

(** SuperTerminal API functions that return FLOAT. *)
Definition float_functions : list string :=
  [ "TIME"; "DELTA_TIME"; "RANDOM"; "MOUSE_WHEEL_X"; "MOUSE_WHEEL_Y";
    "TILEMAP_GET_CAMERA_X"; "TILEMAP_GET_CAMERA_Y"; "ASSET_GET_HIT_RATE" ].

(** Prefixes and names of the void API functions. *)
Definition void_prefixes : list string :=
  [ "TEXT_"; "CHUNKY_"; "GFX_"; "SPRITE_"; "LAYER_"; "SOUND_"; "MUSIC_"; "SYNTH_";
    "TILEMAP_"; "TILESET_"; "PARTICLE_"; "ASSET_" ].

Definition void_functions : list string :=
  [ "FRAME_WAIT"; "RANDOM_SEED"; "KEY_CLEAR_BUFFER" ].

Definition getBuiltinReturnType (name : string) (s : t) : VariableType.t :=
  if negb (isBuiltinFunction name s) then VariableType.UNKNOWN
  else if match Cpp.back name with Some c => Ascii.eqb c "$" | None => false end
  then string_type s                                 (* string functions *)
  else if name_in name ["LEN"; "ASC"] then VariableType.INT
  else if name_in name int_functions then VariableType.INT
  else if name_in name float_functions then VariableType.FLOAT
  else if existsb (λ p, Cpp.starts_with p name) void_prefixes || name_in name void_functions
  then VariableType.INT                              (* void: a placeholder *)
  else if name_in name ["ASSET_GET_NAME"; "ASSET_GET_ERROR"] then VariableType.STRING
  else VariableType.FLOAT.

(** *** Symbol lookup and use *)

Definition declareVariable (name : string) (type : VariableType.t)
    (loc : SourceLocation) (isDeclared : bool) (s : t) : VariableSymbol * t :=
  match variables (m_symbolTable s) !! name with
  | Some sym => (sym, s)
  | None =>
      let sym := {| var_name := name; var_type := type; var_isDeclared := isDeclared;
                    var_isUsed := false; var_firstUse := loc |} in
      (sym, update_symbols
              (λ st, with_variables (<[name := sym]> (variables st)) st) s)
  end.

(** [lookupVariable] also finds a scalar declared through the arrays table
    and then creates the corresponding variable entry. *)
Definition lookupVariable (name : string) (s : t) : option VariableSymbol * t :=
  match variables (m_symbolTable s) !! name with
  | Some sym => (Some sym, s)
  | None =>
      match arrays (m_symbolTable s) !! name with
      | Some arr =>
          match arr_dimensions arr with
          | [] =>
              let sym := {| var_name := name; var_type := arr_type arr;
                            var_isDeclared := true; var_isUsed := false;
                            var_firstUse := arr_declaration arr |} in
              (Some sym, update_symbols
                           (λ st, with_variables (<[name := sym]> (variables st)) st) s)
          | _ :: _ => (None, s)
          end
      | None => (None, s)
      end
  end.

Definition lookupArray (name : string) (s : t) : option ArraySymbol :=
  arrays (m_symbolTable s) !! name.

Definition lookupFunction (name : string) (s : t) : option FunctionSymbol :=
  functions (m_symbolTable s) !! name.

Definition lookupLine (lineNumber : Z) (s : t) : option LineNumberSymbol :=
  lineNumbers (m_symbolTable s) !! lineNumber.

Definition lookupLabel (name : string) (s : t) : option LabelSymbol :=
  labels (m_symbolTable s) !! name.

Definition mark_used (sym : VariableSymbol) : VariableSymbol :=
  {| var_name := var_name sym; var_type := var_type sym;
     var_isDeclared := var_isDeclared sym; var_isUsed := true;
     var_firstUse := var_firstUse sym |}.

Definition useVariable (name : string) (loc : SourceLocation) (s : t) : t :=
  let '(sym, s1) := lookupVariable name s in
  let s2 :=
    match sym with
    | Some _ => s1
    | None => snd (declareVariable name (inferTypeFromName name s1) loc false s1)  (* implicit *)
    end in
  (* sym->isUsed = true *)
  update_symbols (λ st, with_variables (alter mark_used name (variables st)) st) s2.

Definition useArray (name : string) (dimensionCount : Z) (loc : SourceLocation) (s : t) : t :=
  match functions (m_symbolTable s) !! name with
  | Some _ => s        (* a function or sub, not an array *)
  | None =>
      match lookupArray name s with
      | None =>
          if m_requireExplicitDim s
          then error SemanticErrorType.ARRAY_NOT_DECLARED loc s
          else s
      | Some sym =>
          if negb (dimensionCount =? Z.of_nat (length (arr_dimensions sym)))
          then error SemanticErrorType.WRONG_DIMENSION_COUNT loc s
          else s
      end
  end.

(** [sym->references.push_back(loc)] on a line and on a label. *)
Definition add_line_reference (loc : SourceLocation) (sym : LineNumberSymbol)
  : LineNumberSymbol :=
  {| ln_lineNumber := ln_lineNumber sym; ln_programLineIndex := ln_programLineIndex sym;
     ln_references := ln_references sym ++ [loc] |}.

Definition add_label_reference (loc : SourceLocation) (sym : LabelSymbol) : LabelSymbol :=
  {| lbl_name := lbl_name sym; lbl_labelId := lbl_labelId sym;
     lbl_programLineIndex := lbl_programLineIndex sym;
     lbl_definition := lbl_definition sym;
     lbl_references := lbl_references sym ++ [loc] |}.

Definition reference_line (lineNumber : Z) (loc : SourceLocation) (s : t) : t :=
  update_symbols
    (λ st, with_lineNumbers (alter (add_line_reference loc) lineNumber (lineNumbers st)) st) s.

Definition reference_label (name : string) (loc : SourceLocation) (s : t) : t :=
  update_symbols
    (λ st, with_labels (alter (add_label_reference loc) name (labels st)) st) s.

(** *** Expression validation and type inference *)

(** The loop that validates every argument of a call. *)
Fixpoint validate_each (infer : Expression → t → VariableType.t * t)
    (es : list Expression) (s : t) : t :=
  match es with
  | [] => s
  | e :: es' => validate_each infer es' (snd (infer e s))
  end.

(** The loop over array indices: each index is validated, its type is
    inferred once more, and a non-numeric index is an error at [loc]. *)
Fixpoint validate_indices (infer : Expression → t → VariableType.t * t)
    (loc : SourceLocation) (indices : list Expression) (s : t) : t :=
  match indices with
  | [] => s
  | index :: rest =>
      let s1 := snd (infer index s) in
      let '(indexType, s2) := infer index s1 in
      let s3 := if isNumericType indexType then s2
                else error SemanticErrorType.INVALID_ARRAY_INDEX loc s2 in
      validate_indices infer loc rest s3
  end.

Definition binary_result_type (op : TokenType.t) (leftType rightType : VariableType.t)
  : VariableType.t :=
  if (VariableType.is_string leftType || VariableType.is_string rightType)
     && bool_decide (op = TokenType.PLUS)
  then
    (* string concatenation: UNICODE if either side is *)
    if bool_decide (leftType = VariableType.UNICODE)
       || bool_decide (rightType = VariableType.UNICODE)
    then VariableType.UNICODE else VariableType.STRING
  else if TokenType.is_comparison op then VariableType.FLOAT
  else if bool_decide (op = TokenType.AND) || bool_decide (op = TokenType.OR)
  then VariableType.FLOAT
  else promoteTypes leftType rightType.

Fixpoint inferExpressionType (expr : Expression) (s : t) : VariableType.t * t :=
  match expr with
  | NumberExpression _ => (VariableType.FLOAT, s)
  | StringExpression _ => (string_type s, s)
  | VariableExpression name loc =>
      (* inferVariableType *)
      let s1 := useVariable name loc s in
      let '(sym, s2) := lookupVariable name s1 in
      (match sym with Some v => var_type v | None => VariableType.UNKNOWN end, s2)
  | ArrayAccessExpression name indices loc =>
      (* inferArrayAccessType *)
      match functions (m_symbolTable s) !! name with
      | Some funcSym =>
          (* a function or sub call: validate the arguments *)
          (fn_returnType funcSym, validate_each inferExpressionType indices s)
      | None =>
          match lookupArray name s with
          | Some arraySym =>
              (* a declared array *)
              let s1 := useArray name (Z.of_nat (length indices)) loc s in
              (arr_type arraySym, validate_indices inferExpressionType loc indices s1)
          | None =>
              if isBuiltinFunction name s then
                let expectedArgs := getBuiltinArgCount name s in
                let s1 :=
                  if (expectedArgs >=? 0)
                     && negb (Cpp.to_int (Z.of_nat (length indices)) =? expectedArgs)
                  then error SemanticErrorType.TYPE_MISMATCH loc s else s in
                (getBuiltinReturnType name s,
                 validate_each inferExpressionType indices s1)
              else
                (* treated as an undeclared array *)
                let s1 := useArray name (Z.of_nat (length indices)) loc s in
                let s2 := validate_indices inferExpressionType loc indices s1 in
                (match lookupArray name s2 with
                 | Some arraySym => arr_type arraySym
                 | None => VariableType.UNKNOWN
                 end, s2)
          end
      end
  | FunctionCallExpression name arguments isFN loc =>
      (* inferFunctionCallType *)
      let s1 := validate_each inferExpressionType arguments s in
      if isFN then
        match lookupFunction name s1 with
        | Some sym => (fn_returnType sym, s1)
        | None =>
            (VariableType.UNKNOWN, error SemanticErrorType.UNDEFINED_FUNCTION loc s1)
        end
      else (VariableType.FLOAT, s1)      (* built-in: most return FLOAT *)
  | RegistryFunctionExpression name arguments returnType loc =>
      (* inferRegistryFunctionType *)
      let s1 := validate_each inferExpressionType arguments s in
      match returnType with
      | ReturnType.INT => (VariableType.INT, s1)
      | ReturnType.FLOAT => (VariableType.FLOAT, s1)
      | ReturnType.STRING => (string_type s1, s1)
      | ReturnType.BOOL => (VariableType.INT, s1)
      | ReturnType.VOID =>
          (VariableType.UNKNOWN, error SemanticErrorType.TYPE_MISMATCH loc s1)
      end
  | BinaryExpression lhs op rhs =>
      let '(leftType, s1) := inferExpressionType lhs s in
      let '(rightType, s2) := inferExpressionType rhs s1 in
      (binary_result_type op leftType rightType, s2)
  | UnaryExpression op e =>
      let '(exprType, s1) := inferExpressionType e s in
      (match op with TokenType.NOT => VariableType.FLOAT | _ => exprType end, s1)
  | IIFExpression _ _ _ => (VariableType.UNKNOWN, s)    (* the [default] of the switch *)
  end.

Definition validateExpression (expr : Expression) (s : t) : t :=
  snd (inferExpressionType expr s).

(** *** Pass 1: declaration collection *)

Fixpoint collectLineNumbers_from (i : Z) (program_lines : list ProgramLine) (s : t) : t :=
  match program_lines with
  | [] => s
  | l :: rest =>
      let s1 :=
        if lineNumber l >? 0 then
          match lineNumbers (m_symbolTable s) !! lineNumber l with
          | Some _ => error SemanticErrorType.DUPLICATE_LINE_NUMBER (line_location l) s
          | None =>
              let sym := {| ln_lineNumber := lineNumber l; ln_programLineIndex := i;
                            ln_references := [] |} in
              update_symbols
                (λ st, with_lineNumbers (<[lineNumber l := sym]> (lineNumbers st)) st) s
          end
        else s in
      collectLineNumbers_from (i + 1) rest s1
  end.

Definition collectLineNumbers (program : Program) (s : t) : t :=
  collectLineNumbers_from 0 (lines program) s.

Definition declareLabel (name : string) (programLineIndex : Z) (loc : SourceLocation)
    (s : t) : t :=
  match labels (m_symbolTable s) !! name with
  | Some _ => error SemanticErrorType.DUPLICATE_LABEL loc s
  | None =>
      let sym := {| lbl_name := name;
                    lbl_labelId := nextLabelId (m_symbolTable s);
                    lbl_programLineIndex := programLineIndex;
                    lbl_definition := loc; lbl_references := [] |} in
      update_symbols (with_label name sym) s
  end.

Definition collectLabels_statement (i : Z) (s : t) (stmt : Statement) : t :=
  match stmt with
  | LabelStatement loc labelName => declareLabel labelName i loc s
  | _ => s
  end.

Fixpoint collectLabels_from (i : Z) (program_lines : list ProgramLine) (s : t) : t :=
  match program_lines with
  | [] => s
  | l :: rest =>
      collectLabels_from (i + 1) rest (fold_left (collectLabels_statement i) (statements l) s)
  end.

Definition collectLabels (program : Program) (s : t) : t :=
  collectLabels_from 0 (lines program) s.

(** One dimension of a [DIM]: [acc] holds the dimensions and the total
    size computed so far. *)
Definition processDimension (loc : SourceLocation)
    (acc : list Z * Z * t) (dimExpr : Expression) : list Z * Z * t :=
  let '(dimensions, totalSize, s) := acc in
  match dimExpr with
  | NumberExpression value =>
      let size := Cpp.double_to_int value in
      let '(size, s1) :=
        if size <=? 0
        then (1, error SemanticErrorType.INVALID_ARRAY_INDEX loc s)
        else (size, s) in
      (* DIM A(N) has indices 0 to N: N+1 is stored *)
      (dimensions ++ [Cpp.to_int (size + 1)],
       Cpp.to_int (totalSize * Cpp.to_int (size + 1)), s1)
  | _ =>
      (* non-constant dimension: 10 is assumed, 11 elements *)
      (dimensions ++ [11], Cpp.to_int (totalSize * 11),
       warning (NonConstantDimension loc) s)
  end.

(** One array of a [DIM] statement. *)
Definition processArrayDim (loc : SourceLocation) (s : t) (arrayDim : ArrayDim) : t :=
  match arrays (m_symbolTable s) !! dim_name arrayDim with
  | Some _ => error SemanticErrorType.ARRAY_REDECLARED loc s
  | None =>
      let '(dimensions, totalSize, s1) :=
        fold_left (processDimension loc) (dim_dimensions arrayDim) ([], 1, s) in
      let type :=
        match inferTypeFromSuffix (dim_typeSuffix arrayDim) s1 with
        | VariableType.UNKNOWN => inferTypeFromName (dim_name arrayDim) s1
        | ty => ty
        end in
      let sym := {| arr_name := dim_name arrayDim; arr_type := type;
                    arr_dimensions := dimensions; arr_isDeclared := true;
                    arr_declaration := loc; arr_totalSize := totalSize |} in
      update_symbols
        (λ st, with_arrays (<[dim_name arrayDim := sym]> (arrays st)) st) s1
  end.

Definition processDimStatement (loc : SourceLocation) (arrayDims : list ArrayDim) (s : t)
  : t :=
  fold_left (processArrayDim loc) arrayDims s.

Definition processDefStatement (loc : SourceLocation) (functionName : string)
    (parameters : list string) (body : Expression) (s : t) : t :=
  match functions (m_symbolTable s) !! functionName with
  | Some _ => error SemanticErrorType.FUNCTION_REDECLARED loc s
  | None =>
      let sym := {| fn_name := functionName; fn_parameters := parameters;
                    fn_returnType := inferTypeFromName functionName s;
                    fn_definition := loc; fn_body := Some body |} in
      update_symbols
        (λ st, with_functions (<[functionName := sym]> (functions st)) st) s
  end.

(** The loop [for line, for stmt] shared by the collectors. *)
Definition for_each_statement (f : t → Statement → t) (program : Program) (s : t) : t :=
  fold_left (λ s l, fold_left f (statements l) s) (lines program) s.

Definition collectDimStatements : Program → t → t :=
  for_each_statement
    (λ s stmt, match stmt with
               | DimStatement loc arrayDims => processDimStatement loc arrayDims s
               | _ => s
               end).

Definition collectDefStatements : Program → t → t :=
  for_each_statement
    (λ s stmt, match stmt with
               | DefStatement loc functionName parameters body =>
                   processDefStatement loc functionName parameters body s
               | _ => s
               end).

(** [collectFunctionAndSubStatements], [collectDataStatements] and
    [collectConstantStatements] act on FUNCTION, SUB, DATA and CONSTANT
    statements only, none of which is among the statements covered. *)
Definition pass1_collectDeclarations (program : Program) (s : t) : t :=
  collectDefStatements program
    (collectDimStatements program
       (collectLabels program
          (collectLineNumbers program s))).

(** *** Pass 2: validation *)

Definition validateJump (isLabel : bool) (label : string) (target : Z)
    (loc : SourceLocation) (s : t) : t :=
  if isLabel then
    (* symbolic label *)
    match lookupLabel label s with
    | None => error SemanticErrorType.UNDEFINED_LABEL loc s
    | Some _ => reference_label label loc s
    end
  else
    (* line number *)
    match lookupLine target s with
    | None => error SemanticErrorType.UNDEFINED_LINE loc s
    | Some _ => reference_line target loc s
    end.

(** [validateGotoStatement] and [validateGosubStatement] have the same
    body up to the message text. *)
Definition validateGotoStatement := validateJump.
Definition validateGosubStatement := validateJump.

Definition validatePrintStatement (items : list Expression) (s : t) : t :=
  validate_each inferExpressionType items s.

Definition validateLetStatement (loc : SourceLocation) (variable : string)
    (indices : list Expression) (value : Expression) (s : t) : t :=
  (* validate array indices if present *)
  let s1 := validate_indices inferExpressionType loc indices s in
  let isArray := match indices with [] => false | _ :: _ => true end in
  let s2 := if isArray then useArray variable (Z.of_nat (length indices)) loc s1
            else useVariable variable loc s1 in
  let s3 := validateExpression value s2 in
  let '(targetType, s4) :=
    if isArray then
      (match lookupArray variable s3 with
       | Some a => arr_type a
       | None => VariableType.UNKNOWN
       end, s3)
    else
      let '(sym, s') := lookupVariable variable s3 in
      (match sym with Some v => var_type v | None => VariableType.UNKNOWN end, s') in
  let '(valueType, s5) := inferExpressionType value s4 in
  checkTypeCompatibility targetType valueType loc s5.

Definition validateForStatement (loc : SourceLocation) (variable : string)
    (start end_ : Expression) (step : option Expression) (s : t) : t :=
  let s1 := useVariable variable loc s in
  let s2 := validateExpression start s1 in
  let s3 := validateExpression end_ s2 in
  let s4 := match step with Some e => validateExpression e s3 | None => s3 end in
  let '(startType, s5) := inferExpressionType start s4 in
  let '(endType, s6) := inferExpressionType end_ s5 in
  let s7 := if negb (isNumericType startType) || negb (isNumericType endType)
            then error SemanticErrorType.TYPE_MISMATCH loc s6 else s6 in
  set_forStack ({| for_variable := variable; for_location := loc |} :: m_forStack s7) s7.

Definition validateNextStatement (loc : SourceLocation) (variable : string) (s : t) : t :=
  match m_forStack s with
  | [] => error SemanticErrorType.NEXT_WITHOUT_FOR loc s
  | forCtx :: rest =>
      let s1 :=
        if negb (Cpp.string_empty variable)
           && negb (String.eqb variable (for_variable forCtx))
        then error SemanticErrorType.CONTROL_FLOW_MISMATCH loc s else s in
      set_forStack rest s1
  end.

Definition validateWhileStatement (loc : SourceLocation) (condition : Expression) (s : t)
  : t :=
  let s1 := validateExpression condition s in
  set_whileStack (loc :: m_whileStack s1) s1.

Definition validateWendStatement (loc : SourceLocation) (s : t) : t :=
  match m_whileStack s with
  | [] => error SemanticErrorType.WEND_WITHOUT_WHILE loc s
  | _ :: rest => set_whileStack rest s
  end.

Definition validateRepeatStatement (loc : SourceLocation) (s : t) : t :=
  set_repeatStack (loc :: m_repeatStack s) s.

Definition validateUntilStatement (loc : SourceLocation) (condition : Expression) (s : t)
  : t :=
  let s1 :=
    match m_repeatStack s with
    | [] => error SemanticErrorType.UNTIL_WITHOUT_REPEAT loc s
    | _ :: rest => set_repeatStack rest s
    end in
  validateExpression condition s1.

Definition validateDoStatement (loc : SourceLocation) (condition : option Expression)
    (s : t) : t :=
  let s1 := match condition with Some e => validateExpression e s | None => s end in
  set_doStack (loc :: m_doStack s1) s1.

Definition validateLoopStatement (loc : SourceLocation) (condition : option Expression)
    (s : t) : t :=
  let s1 :=
    match m_doStack s with
    | [] => error SemanticErrorType.LOOP_WITHOUT_DO loc s
    | _ :: rest => set_doStack rest s
    end in
  match condition with Some e => validateExpression e s1 | None => s1 end.

(** The loop that validates the statements of a branch in order. *)
Fixpoint validate_all (validate : Statement → t → t) (stmts : list Statement) (s : t)
  : t :=
  match stmts with
  | [] => s
  | x :: rest => validate_all validate rest (validate x s)
  end.

Fixpoint validateStatement (stmt : Statement) (s : t) : t :=
  match stmt with
  | PrintStatement _ items => validatePrintStatement items s
  | LetStatement loc variable indices value =>
      validateLetStatement loc variable indices value s
  | GotoStatement loc isLabel label target =>
      validateGotoStatement isLabel label target loc s
  | GosubStatement loc isLabel label target =>
      validateGosubStatement isLabel label target loc s
  | IfStatement loc condition hasGoto gotoLine thenStatements elseStatements =>
      (* validateIfStatement *)
      let s1 := validateExpression condition s in
      let s2 :=
        if hasGoto then
          match lookupLine gotoLine s1 with
          | None => error SemanticErrorType.UNDEFINED_LINE loc s1
          | Some _ => reference_line gotoLine loc s1
          end
        else validate_all validateStatement thenStatements s1 in
      validate_all validateStatement elseStatements s2
  | ForStatement loc variable start end_ step =>
      validateForStatement loc variable start end_ step s
  | NextStatement loc variable => validateNextStatement loc variable s
  | WhileStatement loc condition => validateWhileStatement loc condition s
  | WendStatement loc => validateWendStatement loc s
  | RepeatStatement loc => validateRepeatStatement loc s
  | UntilStatement loc condition => validateUntilStatement loc condition s
  | DoStatement loc _ condition => validateDoStatement loc condition s
  | LoopStatement loc _ condition => validateLoopStatement loc condition s
  | DimStatement _ _ | DefStatement _ _ _ _ | LabelStatement _ _
  | EndStatement _ | RemStatement _ => s     (* no special validation *)
  end.

Definition validateProgramLine (s : t) (l : ProgramLine) : t :=
  validate_all validateStatement (statements l)
    (set_currentLineNumber (lineNumber l) s).

Definition pass2_validate (program : Program) (s : t) : t :=
  fold_left validateProgramLine (lines program) s.

(** *** Final validation *)

Definition validateControlFlow (s : t) : t :=
  (* check for unclosed loops *)
  let s1 := match m_forStack s with
            | ctx :: _ => error SemanticErrorType.FOR_WITHOUT_NEXT (for_location ctx) s
            | [] => s
            end in
  let s2 := match m_whileStack s1 with
            | loc :: _ => error SemanticErrorType.WHILE_WITHOUT_WEND loc s1
            | [] => s1
            end in
  match m_repeatStack s2 with
  | loc :: _ => error SemanticErrorType.REPEAT_WITHOUT_UNTIL loc s2
  | [] => s2
  end.

(** The variables are visited in the order of the map, which the source
    leaves unspecified. *)
Definition checkUnusedVariables (s : t) : t :=
  fold_left
    (λ s '(_, sym),
       if negb (var_isUsed sym) && var_isDeclared sym
       then warning (UnusedVariable (var_name sym) (var_firstUse sym)) s
       else s)
    (map_to_list (variables (m_symbolTable s))) s.

(** *** The entry point *)

Definition analyze (program : Program) (options : CompilerOptions) (s : t) : bool * t :=
  let s := set_warnings [] (set_errors [] s) in
  (* preserve the constants, reset the symbol table, restore them *)
  let savedConstants := constants (m_symbolTable s) in
  let s := set_symbolTable
             {| variables := ∅; arrays := ∅; functions := ∅; lineNumbers := ∅;
                labels := ∅; constants := savedConstants; nextLabelId := 10000;
                (* compiler options *)
                arrayBase := opt_arrayBase options;
                unicodeMode := opt_unicodeMode options;
                errorTracking := opt_errorTracking options;
                cancellableLoops := opt_cancellableLoops options;
                eventsUsed := false |} s in
  let s := set_cancellableLoops (opt_cancellableLoops options) s in
  (* clear control flow stacks *)
  let s := set_repeatStack [] (set_whileStack [] (set_forStack [] s)) in
  (* two-pass analysis *)
  let s := pass1_collectDeclarations program s in
  let s := pass2_validate program s in
  (* final validation *)
  let s := validateControlFlow s in
  let s := if m_warnUnused s then checkUnusedVariables s else s in
  (match m_errors s with [] => true | _ :: _ => false end, s).

End Semantic.

(** ** Notions used to state the properties of the analyzer *)

Module SemanticSpec.
Import Semantic.

(** Induction on statements that reaches the branches of an [IF]. *)
Section StatementInduction.
Variable P : Statement → Prop.
Hypothesis H_if : ∀ loc condition hasGoto gotoLine thenStatements elseStatements,
  Forall P thenStatements → Forall P elseStatements →
  P (IfStatement loc condition hasGoto gotoLine thenStatements elseStatements).
Hypothesis H_other : ∀ stmt,
  (∀ loc c h g t e, stmt ≠ IfStatement loc c h g t e) → P stmt.

Fixpoint Statement_strong_ind (stmt : Statement) : P stmt.
Proof.
  destruct stmt as [| | | |loc c h g thenS elseS| | | | | | | | | | | | |];
    try (apply H_other; intros; discriminate).
  apply H_if.
  - induction thenS as [|x xs IH]; constructor; [apply Statement_strong_ind | exact IH].
  - induction elseS as [|x xs IH]; constructor; [apply Statement_strong_ind | exact IH].
Defined.
End StatementInduction.

(** [keeps s s']: from [s] to [s'] the analyzer has only added
    diagnostics, none of them [DO_WITHOUT_LOOP], the set of recorded line
    numbers is the same, and label ids stay at or above 10000. *)
Definition reported (e : SemanticError) : Prop :=
  err_type e ≠ SemanticErrorType.DO_WITHOUT_LOOP.

Definition grows (s s' : Semantic.t) : Prop :=
  ∃ added, m_errors s' = m_errors s ++ added ∧ Forall reported added.

Definition same_lines (s s' : Semantic.t) : Prop :=
  dom (lineNumbers (m_symbolTable s')) = dom (lineNumbers (m_symbolTable s)).

(** Label ids are minted from 10000 upwards. *)
Definition label_ids_from_10000 (s : Semantic.t) : Prop :=
  10000 <= nextLabelId (m_symbolTable s)
  ∧ ∀ name sym, labels (m_symbolTable s) !! name = Some sym → 10000 <= lbl_labelId sym.

Definition keeps (s s' : Semantic.t) : Prop :=
  grows s s' ∧ same_lines s s' ∧ (label_ids_from_10000 s → label_ids_from_10000 s').

(** The errors that only the check at the end of the program reports. *)
Definition closes_program (type : SemanticErrorType.t) : bool :=
  match type with
  | SemanticErrorType.FOR_WITHOUT_NEXT | SemanticErrorType.WHILE_WITHOUT_WEND
  | SemanticErrorType.REPEAT_WITHOUT_UNTIL | SemanticErrorType.DO_WITHOUT_LOOP => true
  | _ => false
  end.

(** [evolves loops s s']: [s'] comes from [s] by the steps through which
    pass 2 touches the analyzer: an error that is not one of the end of
    the program is reported, a warning is added, a variable is looked up
    or used, a reference to a line or to a label is recorded, the current
    line is set; and, where [loops] allows it (the validation of
    statements, not of expressions), a loop stack is replaced. *)
Inductive evolves : bool → Semantic.t → Semantic.t → Prop :=
| evolves_refl loops s : evolves loops s s
| evolves_trans loops s1 s2 s3 :
    evolves loops s1 s2 → evolves loops s2 s3 → evolves loops s1 s3
| evolves_error loops type loc s :
    closes_program type = false → evolves loops s (error type loc s)
| evolves_warning loops w s : evolves loops s (warning w s)
| evolves_lookupVariable loops name s : evolves loops s (snd (lookupVariable name s))
| evolves_useVariable loops name loc s : evolves loops s (useVariable name loc s)
| evolves_reference_line loops n loc s : evolves loops s (reference_line n loc s)
| evolves_reference_label loops name loc s : evolves loops s (reference_label name loc s)
| evolves_currentLineNumber loops n s : evolves loops s (set_currentLineNumber n s)
| evolves_forStack stack s : evolves true s (set_forStack stack s)
| evolves_whileStack stack s : evolves true s (set_whileStack stack s)
| evolves_repeatStack stack s : evolves true s (set_repeatStack stack s)
| evolves_doStack stack s : evolves true s (set_doStack stack s).

(** [declares s s']: [s'] comes from [s] by the steps of pass 1: an error
    that is not one of the end of the program is reported, a warning is
    added, the symbol table is updated. *)
Inductive declares : Semantic.t → Semantic.t → Prop :=
| declares_refl s : declares s s
| declares_trans s1 s2 s3 : declares s1 s2 → declares s2 s3 → declares s1 s3
| declares_error type loc s :
    closes_program type = false → declares s (error type loc s)
| declares_warning w s : declares s (warning w s)
| declares_symbols f s : declares s (update_symbols f s).

(** The label ids are the numbers from 10000 up to the counter, one per
    label. *)
Definition labels_numbered (s : Semantic.t) : Prop :=
  let st := m_symbolTable s in
  nextLabelId st = 10000 + Z.of_nat (size (labels st))
  ∧ (∀ name sym, labels st !! name = Some sym →
                 10000 <= lbl_labelId sym < nextLabelId st)
  ∧ (∀ name1 name2 sym1 sym2,
       labels st !! name1 = Some sym1 → labels st !! name2 = Some sym2 →
       lbl_labelId sym1 = lbl_labelId sym2 → name1 = name2).

(** A statement of a line of the program, not one inside an [IF]. *)
Definition top_level (program : Program) (stmt : Statement) : Prop :=
  ∃ l, l ∈ lines program ∧ stmt ∈ statements l.

Definition declares_label (program : Program) (name : string) : Prop :=
  ∃ loc, top_level program (LabelStatement loc name).

Definition declares_array (program : Program) (name : string) : Prop :=
  ∃ loc arrayDims arrayDim,
    top_level program (DimStatement loc arrayDims)
    ∧ arrayDim ∈ arrayDims ∧ dim_name arrayDim = name.

Definition declares_function (program : Program) (name : string) : Prop :=
  ∃ loc parameters body, top_level program (DefStatement loc name parameters body).

(** The target of a [GOTO] or a [GOSUB]. *)
Definition jump (stmt : Statement) : option (SourceLocation * bool * string * Z) :=
  match stmt with
  | GotoStatement loc isLabel label target
  | GosubStatement loc isLabel label target => Some (loc, isLabel, label, target)
  | _ => None
  end.

(** The program has nothing that a jump to this target could reach. *)
Definition target_missing (program : Program) (isLabel : bool) (label : string)
    (target : Z) : Prop :=
  if isLabel then ¬ declares_label program label
  else ¬ (0 < target ∧ ∃ l, l ∈ lines program ∧ lineNumber l = target).

Definition undefined_target (isLabel : bool) : SemanticErrorType.t :=
  if isLabel then SemanticErrorType.UNDEFINED_LABEL else SemanticErrorType.UNDEFINED_LINE.

(** The names that a statement gives to each table in pass 1. *)
Definition statement_labels (stmt : Statement) : gset string :=
  match stmt with LabelStatement _ labelName => {[labelName]} | _ => ∅ end.

Definition statement_arrays (stmt : Statement) : gset string :=
  match stmt with
  | DimStatement _ arrayDims => ⋃ ((λ arrayDim, {[dim_name arrayDim]}) <$> arrayDims)
  | _ => ∅
  end.

Definition statement_functions (stmt : Statement) : gset string :=
  match stmt with DefStatement _ functionName _ _ => {[functionName]} | _ => ∅ end.

Definition line_names (names : Statement → gset string) (l : ProgramLine) : gset string :=
  ⋃ (names <$> statements l).

Definition program_names (names : Statement → gset string) (program : Program)
  : gset string :=
  ⋃ (line_names names <$> lines program).

Definition table_labels (s : Semantic.t) : gset string := dom (labels (m_symbolTable s)).
Definition table_arrays (s : Semantic.t) : gset string := dom (arrays (m_symbolTable s)).
Definition table_functions (s : Semantic.t) : gset string :=
  dom (functions (m_symbolTable s)).

(** The names of the three tables of declarations. *)
Definition declared (s : Semantic.t) : gset string * gset string * gset string :=
  (dom (labels (m_symbolTable s)), dom (arrays (m_symbolTable s)),
   dom (functions (m_symbolTable s))).

(** The statements in the order in which pass 2 meets them: an [IF] is
    replaced by the statements of its branches, the THEN branch only when
    the [IF] has no line to go to. *)
Fixpoint validated (stmt : Statement) : list Statement :=
  match stmt with
  | IfStatement _ _ hasGoto _ thenStatements elseStatements =>
      (if hasGoto then [] else flat_map validated thenStatements)
      ++ flat_map validated elseStatements
  | _ => [stmt]
  end.

Definition met (program : Program) : list Statement :=
  flat_map (λ l, flat_map validated (statements l)) (lines program).

(** The four loop stacks, and what a statement does to them. *)
Definition LoopStacks : Type :=
  list ForContext * list SourceLocation * list SourceLocation * list SourceLocation.

Definition loop_stacks (s : Semantic.t) : LoopStacks :=
  (m_forStack s, m_whileStack s, m_repeatStack s, m_doStack s).

Definition loop_step (stacks : LoopStacks) (stmt : Statement) : LoopStacks :=
  let '(fors, whiles, repeats, dos) := stacks in
  match stmt with
  | ForStatement loc variable _ _ _ =>
      ({| for_variable := variable; for_location := loc |} :: fors, whiles, repeats, dos)
  | NextStatement _ _ => (tail fors, whiles, repeats, dos)
  | WhileStatement loc _ => (fors, loc :: whiles, repeats, dos)
  | WendStatement _ => (fors, tail whiles, repeats, dos)
  | RepeatStatement loc => (fors, whiles, loc :: repeats, dos)
  | UntilStatement _ _ => (fors, whiles, tail repeats, dos)
  | DoStatement loc _ _ => (fors, whiles, repeats, loc :: dos)
  | LoopStatement _ _ _ => (fors, whiles, repeats, tail dos)
  | _ => stacks
  end.

(** The loops that are open at the end of the program, innermost first;
    [dos] is the stack of [DO]s at the start. *)
Definition open_loops (program : Program) (dos : list SourceLocation) : LoopStacks :=
  fold_left loop_step (met program) ([], [], [], dos).

(** The errors that the check at the end of the program adds for the
    loops that are open: one for the innermost [FOR], one for the
    innermost [WHILE], one for the innermost [REPEAT]. *)
Definition end_of_program_errors (stacks : LoopStacks) : list SemanticError :=
  let '(fors, whiles, repeats, _) := stacks in
  match fors with
  | ctx :: _ => [{| err_type := SemanticErrorType.FOR_WITHOUT_NEXT;
                    err_location := for_location ctx |}]
  | [] => []
  end
  ++ match whiles with
     | loc :: _ => [{| err_type := SemanticErrorType.WHILE_WITHOUT_WEND;
                       err_location := loc |}]
     | [] => []
     end
  ++ match repeats with
     | loc :: _ => [{| err_type := SemanticErrorType.REPEAT_WITHOUT_UNTIL;
                       err_location := loc |}]
     | [] => []
     end.

(** Errors are only added, none of them one of the end of the program. *)
Definition quiet (e : SemanticError) : Prop := closes_program (err_type e) = false.

Definition adds_quietly (s s' : Semantic.t) : Prop :=
  ∃ added, m_errors s' = m_errors s ++ added ∧ Forall quiet added.

(** An error of the given kind at the given place is among the errors. *)
Definition reports (type : SemanticErrorType.t) (loc : SourceLocation) (s : Semantic.t)
  : Prop :=
  {| err_type := type; err_location := loc |} ∈ m_errors s.

(** The slots that pass 1 stores for one dimension expression of a [DIM]:
    [n + 1] for a literal [n >= 1], 2 for a literal below 1 (which is
    reported), 11 for anything that is not a literal. *)
Definition slots_of (dimExpr : Expression) : Z :=
  match dimExpr with
  | NumberExpression value =>
      if Cpp.double_to_int value <=? 0 then 2 else Cpp.double_to_int value + 1
  | _ => 11
  end.

Definition dimension_errors (loc : SourceLocation) (dimExpr : Expression)
  : list SemanticError :=
  match dimExpr with
  | NumberExpression value =>
      if Cpp.double_to_int value <=? 0
      then [{| err_type := SemanticErrorType.INVALID_ARRAY_INDEX; err_location := loc |}]
      else []
  | _ => []
  end.

Definition dimension_warnings (loc : SourceLocation) (dimExpr : Expression)
  : list SemanticWarning :=
  match dimExpr with
  | NumberExpression _ => []
  | _ => [NonConstantDimension loc]
  end.

(** A dimension whose stored size fits an [int]. *)
Definition dimension_fits (dimExpr : Expression) : Prop :=
  match dimExpr with
  | NumberExpression value => Cpp.double_to_int value < Cpp.INT_MAX
  | _ => True
  end.

(** The state in which [analyze] starts its two passes. *)
Definition reset_state (options : CompilerOptions) (s : Semantic.t) : Semantic.t :=
  set_repeatStack []
    (set_whileStack []
       (set_forStack []
          (set_cancellableLoops (opt_cancellableLoops options)
             (set_symbolTable
                {| variables := ∅; arrays := ∅; functions := ∅; lineNumbers := ∅;
                   labels := ∅; constants := constants (m_symbolTable s);
                   nextLabelId := 10000;
                   arrayBase := opt_arrayBase options;
                   unicodeMode := opt_unicodeMode options;
                   errorTracking := opt_errorTracking options;
                   cancellableLoops := opt_cancellableLoops options;
                   eventsUsed := false |}
                (set_warnings [] (set_errors [] s)))))).


(** *** Programs of the examples *)

(** An analyzer with no built-in function and no predefined constant. *)
Definition fresh : Semantic.t := Semantic.new ∅ ConstantsManager.empty ∅.

Definition number (n : Z) : Expression := NumberExpression (inject_Z n).

Definition program_line (n : Z) (stmts : list Statement) : ProgramLine :=
  {| lineNumber := n; statements := stmts; line_location := at_line n |}.

Definition default_options : CompilerOptions :=
  {| opt_arrayBase := 1; opt_unicodeMode := false; opt_errorTracking := true;
     opt_cancellableLoops := true |}.

(** [10 GOTO 50 / 20 PRINT "x" / 30 END / 100 PRINT "y"]. *)
Definition goto_into_gap : Program :=
  {| lines :=
       [ program_line 10 [GotoStatement (at_line 10) false "" 50];
         program_line 20 [PrintStatement (at_line 20) [StringExpression "x"]];
         program_line 30 [EndStatement (at_line 30)];
         program_line 100 [PrintStatement (at_line 100) [StringExpression "y"]] ] |}.

(** [10 FOR I = 1 TO 3], [10 WHILE 1], [10 REPEAT] and [10 DO]. *)
Definition unclosed_for : Program :=
  {| lines := [program_line 10 [ForStatement (at_line 10) "I" (number 1) (number 3) None]] |}.
Definition unclosed_while : Program :=
  {| lines := [program_line 10 [WhileStatement (at_line 10) (number 1)]] |}.
Definition unclosed_repeat : Program :=
  {| lines := [program_line 10 [RepeatStatement (at_line 10)]] |}.
Definition unclosed_do : Program :=
  {| lines := [program_line 10 [DoStatement (at_line 10) ConditionType.NONE None]] |}.

(** [10 LOOP / 20 DO]. *)
Definition loop_then_do : Program :=
  {| lines :=
       [ program_line 10 [LoopStatement (at_line 10) ConditionType.NONE None];
         program_line 20 [DoStatement (at_line 20) ConditionType.NONE None] ] |}.

(** [10 DIM A(0)] and [10 DIM A(10)]. *)
Definition dim_literal (n : Z) : Program :=
  {| lines :=
       [ program_line 10
           [DimStatement (at_line 10)
              [{| dim_name := "A"; dim_typeSuffix := TokenType.UNKNOWN;
                  dim_dimensions := [number n] |}]] ] |}.

(** [10000 :START]. *)
Definition label_on_line_10000 : Program :=
  {| lines := [program_line 10000 [LabelStatement (at_line 10000) "START"]] |}.

(** [10 DEF FN F(X) = FN F(X) / 20 LET Y = FN F(1)]. *)
Definition self_reference : Program :=
  {| lines :=
       [ program_line 10 [DefStatement (at_line 10) "F" ["X"] IRSpec.self_call];
         program_line 20
           [LetStatement (at_line 20) "Y" []
              (FunctionCallExpression "F" [number 1] true (at_line 20))] ] |}.

(** The types recorded for variables and arrays are those of their names. *)
Definition typed_by_names (s : Semantic.t) : Prop :=
  IRSpec.suffix_consistent (m_symbolTable s).

(** The type token of a [DIM] entry, where there is one, says what the
    suffix of the name says. *)
Definition dim_agrees (arrayDim : ArrayDim) : bool :=
  match dim_typeSuffix arrayDim with
  | TokenType.TYPE_STRING => has_string_suffix (dim_name arrayDim)
  | TokenType.TYPE_INT | TokenType.TYPE_FLOAT | TokenType.TYPE_DOUBLE =>
      negb (has_string_suffix (dim_name arrayDim))
  | _ => true
  end.

Definition statement_dims_agree (stmt : Statement) : bool :=
  match stmt with
  | DimStatement _ arrayDims => forallb dim_agrees arrayDims
  | _ => true
  end.

Definition dims_agree (program : Program) : bool :=
  forallb (λ l, forallb statement_dims_agree (statements l)) (lines program).

(** [10 FOR I = 1 TO 3 / 20 WHILE 1 / 30 WEND]. *)
Definition for_left_open : Program :=
  {| lines :=
       [ program_line 10 [ForStatement (at_line 10) "I" (number 1) (number 3) None];
         program_line 20 [WhileStatement (at_line 20) (number 1)];
         program_line 30 [WendStatement (at_line 30)] ] |}.

(** [10 END / 20 REM / 10 END]. *)
Definition line_10_twice : Program :=
  {| lines := [ program_line 10 [EndStatement (at_line 10)];
                program_line 20 [RemStatement (at_line 20)];
                {| lineNumber := 10; statements := [EndStatement (at_line 30)];
                   line_location := at_line 30 |} ] |}.

(** A type that a value can have: numeric or string. *)
Definition valued (type : VariableType.t) : bool :=
  isNumericType type || VariableType.is_string type.

(** [10 LET A$ = "x" / 20 LET N = 1]. *)
Definition string_and_number : Program :=
  {| lines :=
       [ program_line 10 [LetStatement (at_line 10) "A$" [] (StringExpression "x")];
         program_line 20 [LetStatement (at_line 20) "N" [] (number 1)] ] |}.


(** A [GOSUB] to a label that only the branch of an [IF] declares. *)
Definition jumps_nowhere : Program :=
  {| lines := [program_line 10 [GosubStatement (at_line 10) true "DRAW" 0];
               program_line 20
                 [IfStatement (at_line 20) (NumberExpression 1) false 0
                    [LabelStatement (at_line 20) "DRAW"] []]] |}.


End SemanticSpec.

(** ** Facts about strings *)

Section StringFacts.

Lemma substring_all s : substring 0 (String.length s) s = s.
Proof. induction s as [|c s IH]; simpl; [done | by rewrite IH]. Qed.

Lemma substring_split s : ∀ k, (k <= String.length s)%nat →
  s = substring 0 k s +:+ substring k (String.length s - k) s.
Proof.
  induction s as [|c s IH]; intros [|k] Hk; simpl in *; try done; try lia.
  - by rewrite substring_all.
  - transitivity (String c (substring 0 k s +:+ substring k (String.length s - k) s));
      [f_equal; apply IH; lia | reflexivity].
Qed.

Lemma back_append a c b : Cpp.back (a +:+ String c b) = Cpp.back (String c b).
Proof.
  induction a as [|x a IH]; [done|].
  change (String x a +:+ String c b) with (String x (a +:+ String c b)).
  destruct (a +:+ String c b) as [|y rest] eqn:E; [by destruct a|].
  exact IH.
Qed.

Lemma has_proper_suffix_back suffix c name :
  Cpp.has_proper_suffix suffix name = true →
  Cpp.back suffix = Some c → Cpp.back name = Some c.
Proof.
  unfold Cpp.has_proper_suffix. intros H Hc.
  apply andb_true_iff in H as [Hlen Heq].
  apply Nat.ltb_lt in Hlen. apply String.eqb_eq in Heq.
  rewrite (substring_split name (String.length name - String.length suffix)) by lia.
  replace (String.length name - (String.length name - String.length suffix))%nat
    with (String.length suffix) by lia.
  rewrite Heq. destruct suffix as [|x rest]; [done|]. by rewrite back_append.
Qed.





End StringFacts.

(** * Properties *)

(** ** Machine integers *)

Lemma to_int_id (z : Z) :
  Cpp.INT_MIN <= z <= Cpp.INT_MAX → Cpp.to_int z = z.
Proof.
  unfold Cpp.INT_MIN, Cpp.INT_MAX, Cpp.to_int. intros H.
  rewrite Z.mod_small by lia. lia.
Qed.

(** ** The constants manager *)

Section ConstantsManagerProperties.
Import ConstantsManager.

Lemma indices_in_range_empty : indices_in_range empty.
Proof. intros name index H. simpl in H. by rewrite lookup_empty in H. Qed.

Lemma vector_set_length v i x : length (vector_set v i x) = length v.
Proof. unfold vector_set. destruct (_ && _); [apply length_insert | reflexivity]. Qed.

Lemma vector_set_lookup v i x :
  0 <= i < Z.of_nat (length v) → vector_set v i x !! Z.to_nat i = Some x.
Proof.
  intros H. unfold vector_set.
  replace ((0 <=? i) && (i <? Z.of_nat (length v))) with true
    by (symmetry; apply andb_true_iff; split; [apply Z.leb_le | apply Z.ltb_lt]; lia).
  apply list_lookup_insert_eq. lia.
Qed.

(** [addConstant] keeps the class invariant as long as the count fits an [int]. *)
Lemma addConstant_indices_in_range name value m :
  indices_in_range m →
  getConstantCount m < Cpp.INT_MAX →
  indices_in_range (snd (addConstant name value m)).
Proof.
  unfold indices_in_range, getConstantCount, addConstant. intros Hinv Hfit.
  destruct (m_nameToIndex m !! name) as [i|] eqn:Hlook; simpl.
  - intros n j Hn. rewrite vector_set_length. eauto.
  - intros n j Hn. rewrite length_app. simpl.
    rewrite to_int_id in Hn by (unfold Cpp.INT_MIN, Cpp.INT_MAX in *; lia).
    destruct (decide (name = n)) as [->|Hne].
    + rewrite lookup_insert_eq in Hn. inversion Hn. lia.
    + rewrite lookup_insert_ne in Hn by done. apply Hinv in Hn. lia.
Qed.

Lemma getConstant_in_range index m v :
  0 <= index → getConstantCount m <= Cpp.INT_MAX →
  m_constants m !! Z.to_nat index = Some v →
  getConstant index m = Cpp.Ok v.
Proof.
  unfold getConstant, getConstantCount. intros H0 Hfit Hl.
  pose proof (lookup_lt_Some _ _ _ Hl) as Hlt.
  rewrite to_int_id by (unfold Cpp.INT_MIN, Cpp.INT_MAX in *; lia).
  replace (index <? 0) with false by (symmetry; apply Z.ltb_ge; lia).
  replace (Z.of_nat (length (m_constants m)) <=? index) with false
    by (symmetry; apply Z.leb_gt; lia).
  simpl. by rewrite Hl.
Qed.

Lemma addConstant_known name value m index :
  m_nameToIndex m !! name = Some index →
  addConstant name value m
  = (index, {| m_constants := vector_set (m_constants m) index value;
               m_nameToIndex := m_nameToIndex m |}).
Proof. intros H. unfold addConstant. by rewrite H. Qed.

Lemma addConstant_fresh name value m :
  m_nameToIndex m !! name = None →
  addConstant name value m
  = (Cpp.to_int (Z.of_nat (length (m_constants m))),
     {| m_constants := m_constants m ++ [value];
        m_nameToIndex :=
          <[name := Cpp.to_int (Z.of_nat (length (m_constants m)))]> (m_nameToIndex m) |}).
Proof. intros H. unfold addConstant. by rewrite H. Qed.

(** C6. Constant identity: adding the same name twice returns the same
    index both times, after which [getConstant] on that index gives the
    second value and [getConstantIndex] gives that index; the index handed
    out for a fresh name is the count of constants stored before the add.
    The manager is any state that satisfies the class invariant and whose
    count still fits the [int] the source casts it to. *)
Theorem constant_identity (m : ConstantsManager.t) (name : string) (v v' : ConstantValue) :
  indices_in_range m →
  getConstantCount m < Cpp.INT_MAX →
  let r1 := addConstant name v m in
  let r2 := addConstant name v' (snd r1) in
  fst r1 = fst r2
  ∧ getConstant (fst r2) (snd r2) = Cpp.Ok v'
  ∧ getConstantIndex name (snd r2) = fst r2
  ∧ (m_nameToIndex m !! name = None → fst r1 = getConstantCount m).
Proof.
  intros Hinv Hfit r1 r2. subst r2 r1. unfold getConstantCount in *.
  destruct (m_nameToIndex m !! name) as [i|] eqn:Hlook.
  - (* the name is known: the slot is overwritten twice *)
    pose proof (Hinv _ _ Hlook) as Hi.
    rewrite (addConstant_known _ _ _ _ Hlook). simpl.
    rewrite (addConstant_known name v' _ i) by exact Hlook. simpl.
    split; [done|]. split; [|split].
    + apply getConstant_in_range; simpl.
      * lia.
      * unfold getConstantCount. simpl. rewrite !vector_set_length. lia.
      * apply vector_set_lookup. rewrite vector_set_length. lia.
    + unfold getConstantIndex. simpl. by rewrite Hlook.
    + intros Hnone. congruence.
  - (* the name is fresh: it gets the next index *)
    assert (Hidx : Cpp.to_int (Z.of_nat (length (m_constants m)))
                   = Z.of_nat (length (m_constants m)))
      by (apply to_int_id; unfold Cpp.INT_MIN, Cpp.INT_MAX in *; lia).
    rewrite (addConstant_fresh _ _ _ Hlook). simpl. rewrite Hidx.
    rewrite (addConstant_known name v' _ (Z.of_nat (length (m_constants m))))
      by (simpl; apply lookup_insert_eq).
    simpl. split; [done|]. split; [|split].
    + apply getConstant_in_range; simpl.
      * lia.
      * unfold getConstantCount. simpl. rewrite vector_set_length, length_app. simpl.
        unfold Cpp.INT_MAX in *. lia.
      * apply vector_set_lookup. rewrite length_app. simpl. lia.
    + unfold getConstantIndex. simpl. by rewrite lookup_insert_eq.
    + done.
Qed.

(** The property at the empty manager, for the name [K]. *)
Lemma constant_identity_witness :
  let r1 := addConstant "K" (CV_int 1) empty in
  let r2 := addConstant "K" (CV_string "one") (snd r1) in
  fst r1 = fst r2
  ∧ getConstant (fst r2) (snd r2) = Cpp.Ok (CV_string "one")
  ∧ getConstantIndex "K" (snd r2) = fst r2
  ∧ (m_nameToIndex empty !! "K" = None → fst r1 = getConstantCount empty).
Proof.
  apply (constant_identity empty "K" (CV_int 1) (CV_string "one")).
  - exact indices_in_range_empty.
  - vm_compute. reflexivity.
Defined.

End ConstantsManagerProperties.

(** ** The constants manager: names and slots *)

Section ConstantsStore.
Import ConstantsManager.

Lemma int_range_of_count n :
  0 <= n <= Cpp.INT_MAX → Cpp.INT_MIN <= n <= Cpp.INT_MAX.
Proof. unfold Cpp.INT_MIN, Cpp.INT_MAX. lia. Qed.

Lemma addConstant_one_to_one name value m :
  one_to_one m →
  Z.of_nat (size (m_nameToIndex m)) = getConstantCount m →
  getConstantCount m < Cpp.INT_MAX →
  one_to_one (snd (addConstant name value m))
  ∧ Z.of_nat (size (m_nameToIndex (snd (addConstant name value m))))
    = getConstantCount (snd (addConstant name value m)).
Proof.
  intros (Hrange & Hinj & Hsurj) Hsize Hfit. unfold getConstantCount in *.
  destruct (m_nameToIndex m !! name) as [i|] eqn:Hlook.
  - rewrite (addConstant_known _ _ _ _ Hlook). simpl.
    split; [|by rewrite vector_set_length].
    split; [|split]; simpl.
    + intros n j Hn. simpl in *. rewrite vector_set_length. by eapply Hrange.
    + exact Hinj.
    + intros j Hj. rewrite vector_set_length in Hj. by apply Hsurj.
  - rewrite (addConstant_fresh _ _ _ Hlook). simpl.
    rewrite to_int_id by (apply int_range_of_count; lia).
    split.
    + split; [|split]; simpl.
      * intros n j Hn. simpl in *. rewrite length_app. simpl.
        apply lookup_insert_Some in Hn as [[_ <-]|[_ Hn]]; [lia|].
        apply Hrange in Hn. lia.
      * intros n1 n2 j H1 H2.
        apply lookup_insert_Some in H1 as [[<- <-]|[Hne1 H1]];
          apply lookup_insert_Some in H2 as [[<- Heq]|[Hne2 H2]]; try done.
        -- apply Hrange in H2. lia.
        -- apply Hrange in H1. lia.
        -- by eapply Hinj.
      * intros j Hj. rewrite length_app in Hj. simpl in Hj.
        destruct (decide (j = Z.of_nat (length (m_constants m)))) as [->|Hne].
        -- exists name. apply lookup_insert_eq.
        -- destruct (Hsurj j) as [n Hn]; [lia|]. exists n.
           rewrite lookup_insert_ne; [done|]. intros <-. congruence.
    + rewrite map_size_insert_None by done. rewrite length_app. simpl. lia.
Qed.

(** In a manager that comes from an empty one through [addConstant],
    [clear] and [copyFrom], every name has a slot of its own and every
    slot has a name: the indices are within the vector, two names never
    share an index, and there are as many names as constants. *)
Theorem built_one_to_one (m : ConstantsManager.t) :
  built m →
  one_to_one m
  ∧ Z.of_nat (length (getAllConstantNames m)) = getConstantCount m.
Proof.
  unfold getAllConstantNames. rewrite length_fmap, length_map_to_list.
  induction 1 as [|name value m _ [IH1 IH2] Hfit|m _ _|other m _ IH].
  - split; [|done]. split; [apply indices_in_range_empty|]. simpl.
    split; [intros ? ? ? H; by rewrite lookup_empty in H | intros i Hi; lia].
  - by apply addConstant_one_to_one.
  - split; [|done]. split; [apply indices_in_range_empty|]. simpl.
    split; [intros ? ? ? H; by rewrite lookup_empty in H | intros i Hi; lia].
  - exact IH.
Qed.

Lemma built_constants_sample : built sample.
Proof.
  unfold sample. repeat (apply built_addConstant; [|by vm_compute]). apply built_empty.
Defined.

Lemma built_one_to_one_witness :
  one_to_one sample
  ∧ Z.of_nat (length (getAllConstantNames sample)) = getConstantCount sample.
Proof. apply built_one_to_one, built_constants_sample. Defined.

Lemma vector_set_lookup_ne v i j x :
  i ≠ j → 0 <= j → vector_set v i x !! Z.to_nat j = v !! Z.to_nat j.
Proof.
  intros Hne Hj. unfold vector_set. destruct (_ && _) eqn:Hin; [|done].
  apply andb_true_iff in Hin as [Hi _]. apply Z.leb_le in Hi.
  apply list_lookup_insert_ne. lia.
Qed.

(** Adding or updating a constant leaves every other constant alone: its
    index and the value read at that index stay as they were. *)
Theorem addConstant_keeps_others (m : ConstantsManager.t) (name other : string)
    (value : ConstantValue) (index : Z) :
  one_to_one m →
  getConstantCount m < Cpp.INT_MAX →
  other ≠ name →
  m_nameToIndex m !! other = Some index →
  getConstantIndex other (snd (addConstant name value m)) = index
  ∧ getConstant index (snd (addConstant name value m)) = getConstant index m.
Proof.
  intros (Hrange & Hinj & _) Hfit Hne Hother. unfold getConstantCount in *.
  pose proof (Hrange _ _ Hother) as Hindex.
  destruct (m_nameToIndex m !! name) as [i|] eqn:Hlook.
  - rewrite (addConstant_known _ _ _ _ Hlook). simpl. split.
    + unfold getConstantIndex. simpl. by rewrite Hother.
    + unfold getConstant. simpl. rewrite vector_set_length.
      rewrite vector_set_lookup_ne; [done| |lia].
      intros ->. apply Hne. by eapply Hinj.
  - rewrite (addConstant_fresh _ _ _ Hlook). simpl. split.
    + unfold getConstantIndex. simpl. rewrite lookup_insert_ne by done.
      by rewrite Hother.
    + unfold getConstant. simpl. rewrite length_app. simpl.
      rewrite !to_int_id by (apply int_range_of_count; lia).
      replace (Z.of_nat (length (m_constants m) + 1) <=? index) with false
        by (symmetry; apply Z.leb_gt; lia).
      replace (Z.of_nat (length (m_constants m)) <=? index) with false
        by (symmetry; apply Z.leb_gt; lia).
      rewrite lookup_app_l by lia. done.
Qed.

Lemma one_to_one_sample : one_to_one sample.
Proof.
  split; [|split].
  - intros name index H. apply elem_of_map_to_list in H.
    match type of H with _ ∈ ?l =>
      let l' := eval vm_compute in l in change l with l' in H end.
    rewrite !elem_of_cons, elem_of_nil in H.
    destruct H as [[= -> ->]|[[= -> ->]|[[= -> ->]|[]]]]; by vm_compute.
  - intros n1 n2 index H1 H2.
    apply elem_of_map_to_list in H1. apply elem_of_map_to_list in H2.
    repeat match goal with H : _ ∈ ?l |- _ =>
      let l' := eval vm_compute in l in change l with l' in H;
      rewrite !elem_of_cons, elem_of_nil in H end.
    destruct H1 as [H1|[H1|[H1|[]]]]; destruct H2 as [H2|[H2|[H2|[]]]];
      by simplify_eq.
  - intros index Hindex. change (0 <= index < 3) in Hindex.
    destruct (decide (index = 0)) as [->|?]; [by exists "PI"|].
    destruct (decide (index = 1)) as [->|?]; [by exists "TRUE"|].
    destruct (decide (index = 2)) as [->|?]; [by exists "TITLE" | lia].
Defined.

(** Updating [TRUE] in the sample leaves [PI] where and what it was. *)
Lemma addConstant_keeps_others_witness :
  getConstantIndex "PI" (snd (addConstant "TRUE" (CV_int 2) sample)) = 0
  ∧ getConstant 0 (snd (addConstant "TRUE" (CV_int 2) sample)) = getConstant 0 sample.
Proof.
  apply addConstant_keeps_others.
  - exact one_to_one_sample.
  - by vm_compute.
  - done.
  - by vm_compute.
Defined.

(** Reading by index succeeds exactly on the indices from 0 up to the
    count; the index -1 that [getConstantIndex] answers for an unknown
    name makes [getConstant] throw. *)
Theorem getConstant_range (m : ConstantsManager.t) :
  getConstantCount m <= Cpp.INT_MAX →
  (∀ index, (∃ value, getConstant index m = Cpp.Ok value)
            ↔ 0 <= index < getConstantCount m)
  ∧ (∀ name, hasConstant name m = false →
             getConstant (getConstantIndex name m) m
             = Cpp.Throw "Constant index out of range").
Proof.
  intros Hfit. unfold getConstantCount in *. split.
  - intros index. unfold getConstant.
    rewrite to_int_id by (apply int_range_of_count; lia).
    destruct (index <? 0) eqn:H0; simpl.
    { apply Z.ltb_lt in H0. split; [by intros [v ?] | lia]. }
    apply Z.ltb_ge in H0.
    destruct (Z.of_nat (length (m_constants m)) <=? index) eqn:H1.
    { apply Z.leb_le in H1. split; [by intros [v ?] | lia]. }
    apply Z.leb_gt in H1.
    destruct (m_constants m !! Z.to_nat index) as [v|] eqn:Hv.
    + split; [lia | by exists v].
    + apply lookup_ge_None in Hv. lia.
  - intros name Hname. unfold hasConstant, getConstantIndex in *.
    by destruct (m_nameToIndex m !! name).
Qed.

Lemma getConstant_range_witness :
  (∀ index, (∃ value, getConstant index sample = Cpp.Ok value)
            ↔ 0 <= index < getConstantCount sample)
  ∧ (∀ name, hasConstant name sample = false →
             getConstant (getConstantIndex name sample) sample
             = Cpp.Throw "Constant index out of range").
Proof. apply getConstant_range. by vm_compute. Defined.

End ConstantsStore.

(** ** The program store *)

Section ProgramManagerProperties.
Import ProgramManager.

Lemma blank_is_whitespace c :
  Cpp.in_chars c blanks = true → Cpp.in_chars c blanks_and_newlines = true.
Proof.
  unfold Cpp.in_chars, blanks, blanks_and_newlines. simpl.
  destruct (Ascii.eqb c " "), (Ascii.eqb c "009"); simpl; congruence.
Qed.

Lemma find_first_not_of_from_spec s chars i :
  Cpp.find_first_not_of_from s chars i
  = if all_in chars s then Cpp.npos else i + Z.of_nat (leading_count chars s).
Proof.
  revert i. induction s as [|c s IH]; intros i; simpl; [done|].
  destruct (Cpp.in_chars c chars); simpl; [|lia].
  rewrite IH. destruct (all_in chars s); [done | lia].
Qed.

Lemma find_last_not_of_from_spec s chars i found :
  Cpp.find_last_not_of_from s chars i found
  = match last_not_in chars s with
    | Some j => i + Z.of_nat j
    | None => found
    end.
Proof.
  revert i found. induction s as [|c s IH]; intros i found; simpl; [done|].
  rewrite IH. destruct (last_not_in chars s); [lia|].
  destruct (Cpp.in_chars c chars); [done | lia].
Qed.

Lemma leading_count_le chars s : (leading_count chars s <= String.length s)%nat.
Proof. induction s as [|c s IH]; simpl; [lia|]. destruct (Cpp.in_chars c chars); simpl; lia. Qed.

Lemma leading_count_lt chars s :
  all_in chars s = false → (leading_count chars s < String.length s)%nat.
Proof.
  induction s as [|c s IH]; simpl; [done|].
  destruct (Cpp.in_chars c chars); simpl; [|lia]. intros H. apply IH in H. lia.
Qed.

Lemma last_not_in_lt chars s j :
  last_not_in chars s = Some j → (j < String.length s)%nat.
Proof.
  revert j. induction s as [|c s IH]; intros j; simpl; [done|].
  destruct (last_not_in chars s) as [j'|].
  - intros [= <-]. specialize (IH j' eq_refl). lia.
  - destruct (Cpp.in_chars c chars); [done|]. intros [= <-]. lia.
Qed.

Lemma substring_0_0 s : substring 0 0 s = EmptyString.
Proof. by destruct s. Qed.

Lemma substring_0_S_nonempty s n :
  (0 < String.length s)%nat → Cpp.string_empty (substring 0 (S n) s) = false.
Proof. destruct s; simpl; [lia | done]. Qed.

(** Dropping trailing characters keeps the text up to the last other one. *)
Lemma drop_trailing_spec chars s :
  drop_trailing chars s
  = match last_not_in chars s with
    | Some j => substring 0 (S j) s
    | None => EmptyString
    end.
Proof.
  induction s as [|c s IH]; simpl; [done|].
  rewrite IH. destruct (last_not_in chars s) as [j|] eqn:Hlast.
  - rewrite substring_0_S_nonempty; [done|].
    apply last_not_in_lt in Hlast. lia.
  - simpl. destruct (Cpp.in_chars c chars); [done|]. by rewrite substring_0_0.
Qed.

Lemma substring_drop_leading chars s m :
  substring (leading_count chars s) m s = substring 0 m (drop_leading chars s).
Proof.
  induction s as [|c s IH]; simpl; [done|].
  destruct (Cpp.in_chars c chars); simpl; [exact IH | done].
Qed.

Lemma has_visible_last s :
  has_visible s = true → ∃ j, last_not_in blanks_and_newlines s = Some j.
Proof.
  induction s as [|c s IH]; simpl; [done|].
  destruct (last_not_in blanks_and_newlines s) as [j|]; [eauto|].
  destruct (Cpp.in_chars c blanks_and_newlines); simpl; [|eauto].
  intros H. destruct (IH H) as [j Hj]. done.
Qed.

Lemma no_visible_last s :
  has_visible s = false → last_not_in blanks_and_newlines s = None.
Proof.
  induction s as [|c s IH]; simpl; [done|].
  intros H. apply orb_false_iff in H as [Hc Hs]. rewrite (IH Hs).
  apply negb_false_iff in Hc. by rewrite Hc.
Qed.

Lemma has_visible_not_blank s : has_visible s = true → all_in blanks s = false.
Proof.
  induction s as [|c s IH]; simpl; [done|].
  destruct (Cpp.in_chars c blanks) eqn:Hb; [|done].
  rewrite (blank_is_whitespace _ Hb). simpl. exact IH.
Qed.

(** Leading blanks come before the last visible character. *)
Lemma last_after_leading s j :
  last_not_in blanks_and_newlines s = Some j →
  (leading_count blanks s <= j)%nat
  ∧ last_not_in blanks_and_newlines (drop_leading blanks s)
    = Some (j - leading_count blanks s)%nat.
Proof.
  revert j. induction s as [|c s IH]; intros j; [done|].
  intros Hlast. simpl. destruct (Cpp.in_chars c blanks) eqn:Hb.
  - simpl in Hlast. rewrite (blank_is_whitespace _ Hb) in Hlast.
    destruct (last_not_in blanks_and_newlines s) as [j'|]; [|done].
    injection Hlast as <-. destruct (IH j' eq_refl) as [Hle Heq].
    split; [lia|]. rewrite Heq. f_equal.
  - split; [lia|]. rewrite Hlast. f_equal. lia.
Qed.

Lemma isValidLineNumber_spec n : isValidLineNumber n = true ↔ 1 <= n <= 65535.
Proof.
  unfold isValidLineNumber. rewrite andb_true_iff, Z.ltb_lt, Z.leb_le. lia.
Qed.

(** A text with a visible character is stored trimmed. *)
Lemma setLine_visible n text pm :
  Z.of_nat (String.length text) < Cpp.npos →
  isValidLineNumber n = true →
  has_visible text = true →
  setLine n text pm
  = Cpp.Ok (let pm1 := setModified true
                         (set_lines (<[n := trimmed text]> (m_lines pm)) pm) in
            if m_autoMode pm && (n >=? m_autoCurrentLine pm)
            then set_autoCurrentLine (Cpp.to_int (n + m_autoStep pm)) pm1
            else pm1).
Proof.
  intros Hsize Hvalid Hvis. unfold setLine. rewrite Hvalid. simpl.
  unfold Cpp.find_first_not_of, Cpp.find_last_not_of.
  rewrite find_first_not_of_from_spec, find_last_not_of_from_spec.
  rewrite (has_visible_not_blank _ Hvis).
  destruct (has_visible_last _ Hvis) as [j Hj]. rewrite Hj.
  pose proof (last_not_in_lt _ _ _ Hj) as Hjlt.
  destruct (last_after_leading _ _ Hj) as [Hkj Hlast].
  set (k := leading_count blanks text) in *.
  unfold Cpp.npos in *.
  replace (0 + Z.of_nat k =? 18446744073709551615) with false
    by (symmetry; apply Z.eqb_neq; lia).
  replace (Cpp.to_size_t (0 + Z.of_nat j - (0 + Z.of_nat k) + 1))
    with (Z.of_nat (S (j - k)))
    by (unfold Cpp.to_size_t; rewrite Z.mod_small; lia).
  unfold Cpp.substr.
  replace (Z.of_nat (String.length text) <? 0 + Z.of_nat k) with false
    by (symmetry; apply Z.ltb_ge; lia).
  rewrite Z.min_l by lia.
  replace (Z.to_nat (0 + Z.of_nat k)) with k by lia.
  rewrite Nat2Z.id. subst k. rewrite substring_drop_leading.
  assert (Htrim : substring 0 (S (j - leading_count blanks text))
                    (drop_leading blanks text) = trimmed text).
  { unfold trimmed. by rewrite drop_trailing_spec, Hlast. }
  rewrite Htrim.
  assert (Hne : Cpp.string_empty (trimmed text) = false).
  { rewrite <- Htrim. apply substring_0_S_nonempty.
    apply last_not_in_lt in Hlast. lia. }
  rewrite Hne. simpl. by destruct (m_autoMode pm && (n >=? m_autoCurrentLine pm)).
Qed.

(** A text of blanks only (or an empty text) deletes the line. *)
Lemma setLine_blank n text pm :
  isValidLineNumber n = true →
  all_in blanks text = true →
  setLine n text pm = Cpp.Ok (deleteLine n pm).
Proof.
  intros Hvalid Hblank. unfold setLine. rewrite Hvalid. simpl.
  unfold Cpp.find_first_not_of. rewrite find_first_not_of_from_spec, Hblank.
  done.
Qed.

(** A text of line ends and blanks that begins with a line end deletes
    the line as well. *)
Lemma setLine_line_ends n text pm :
  Z.of_nat (String.length text) < Cpp.npos →
  isValidLineNumber n = true →
  has_visible text = false →
  starts_with_blank text = false →
  setLine n text pm = Cpp.Ok (deleteLine n pm).
Proof.
  intros Hsize Hvalid Hvis Hstart. unfold setLine. rewrite Hvalid. simpl.
  unfold Cpp.find_first_not_of, Cpp.find_last_not_of.
  rewrite find_first_not_of_from_spec, find_last_not_of_from_spec.
  rewrite (no_visible_last _ Hvis).
  destruct text as [|c text]; [done|].
  simpl in Hstart. simpl all_in. simpl leading_count. rewrite Hstart. simpl.
  unfold Cpp.substr. simpl String.length.
  replace (Z.of_nat (S (String.length text)) <? 0) with false
    by (symmetry; apply Z.ltb_ge; lia).
  done.
Qed.

(** [setLine] returns for every text that a [std::string] can hold. *)
Lemma setLine_total n text pm :
  Z.of_nat (String.length text) < Cpp.npos → ∃ pm', setLine n text pm = Cpp.Ok pm'.
Proof.
  intros Hsize. unfold setLine. destruct (isValidLineNumber n); simpl; [|by eexists].
  unfold Cpp.find_first_not_of. rewrite find_first_not_of_from_spec.
  destruct (all_in blanks text) eqn:Hall; [rewrite Z.eqb_refl; by eexists|].
  destruct (_ =? Cpp.npos); [by eexists|].
  pose proof (leading_count_lt _ _ Hall) as Hlt.
  unfold Cpp.substr.
  replace (Z.of_nat (String.length text) <? 0 + Z.of_nat (leading_count blanks text))
    with false by (symmetry; apply Z.ltb_ge; lia).
  destruct (Cpp.string_empty _); [by eexists|].
  simpl. destruct (m_autoMode pm && _); by eexists.
Qed.

(** [deleteLine n]: line [n] is gone, the other lines stay, the store
    counts as modified only if there was a line [n]. *)
Lemma deleteLine_spec n pm :
  m_lines (deleteLine n pm) = delete n (m_lines pm)
  ∧ hasLine n (deleteLine n pm) = false
  ∧ isModified (deleteLine n pm) = hasLine n pm || isModified pm
  ∧ m_filename (deleteLine n pm) = m_filename pm
  ∧ m_autoMode (deleteLine n pm) = m_autoMode pm
  ∧ m_autoStart (deleteLine n pm) = m_autoStart pm
  ∧ m_autoStep (deleteLine n pm) = m_autoStep pm
  ∧ m_autoCurrentLine (deleteLine n pm) = m_autoCurrentLine pm.
Proof.
  unfold deleteLine, hasLine, isModified.
  destruct (m_lines pm !! n) as [code|] eqn:Hn; simpl.
  - by rewrite lookup_delete_eq.
  - by rewrite Hn, delete_id.
Qed.

(** C9 (amended).  [setLine n text pm], for a text that a [std::string]
    can hold, returns a store [pm'].  A line number outside 1..65535
    leaves the store as it was.  In range, a text of spaces and tabs
    only, or a text without a visible character that does not begin with
    a space or tab, deletes line [n]: afterwards there is no line [n],
    the other lines are as before, the modified flag is set only if
    there was a line [n], and the file name and the automatic numbering
    are untouched.  In range, a text with a character other than space,
    tab, CR and LF is stored without its leading spaces and tabs and
    without its trailing spaces, tabs, CRs and LFs: line [n] reads the
    trimmed text, the other lines are as before, the modified flag is
    set, and the auto-number cursor moves to [n + step] when auto mode is
    on and [n] is at or past the cursor, and stays otherwise; that the
    sum fits an [int] is asked only where the cursor moves. *)
Theorem setLine_behaviour (n : Z) (text : string) (pm : ProgramManager.t) :
  Z.of_nat (String.length text) < Cpp.npos →
  ∃ pm',
    setLine n text pm = Cpp.Ok pm'
    ∧ (¬ 1 <= n <= 65535 → pm' = pm)
    ∧ (1 <= n <= 65535 →
       all_in blanks text = true
       ∨ (has_visible text = false ∧ starts_with_blank text = false) →
       m_lines pm' = delete n (m_lines pm)
       ∧ hasLine n pm' = false
       ∧ isModified pm' = hasLine n pm || isModified pm
       ∧ m_filename pm' = m_filename pm
       ∧ m_autoMode pm' = m_autoMode pm
       ∧ m_autoStart pm' = m_autoStart pm
       ∧ m_autoStep pm' = m_autoStep pm
       ∧ m_autoCurrentLine pm' = m_autoCurrentLine pm)
    ∧ (1 <= n <= 65535 → has_visible text = true →
       (m_autoMode pm = true → m_autoCurrentLine pm <= n →
        Cpp.INT_MIN <= n + m_autoStep pm <= Cpp.INT_MAX) →
       m_lines pm' = <[n := trimmed text]> (m_lines pm)
       ∧ getLine n pm' = trimmed text
       ∧ trimmed text ≠ EmptyString
       ∧ isModified pm' = true
       ∧ m_filename pm' = m_filename pm
       ∧ m_autoMode pm' = m_autoMode pm
       ∧ m_autoStart pm' = m_autoStart pm
       ∧ m_autoStep pm' = m_autoStep pm
       ∧ m_autoCurrentLine pm'
         = if m_autoMode pm && (m_autoCurrentLine pm <=? n)
           then n + m_autoStep pm else m_autoCurrentLine pm).
Proof.
  intros Hsize. destruct (setLine_total n text pm Hsize) as [pm' Hset].
  exists pm'. split; [exact Hset|]. split; [|split].
  - intros Hn. unfold setLine in Hset.
    destruct (isValidLineNumber n) eqn:Hv; simpl in Hset; [|by injection Hset].
    apply isValidLineNumber_spec in Hv. contradiction.
  - intros Hn Htext. apply isValidLineNumber_spec in Hn.
    assert (Hdel : setLine n text pm = Cpp.Ok (deleteLine n pm)).
    { destruct Htext as [Hblank|[Hvis Hstart]];
        [by apply setLine_blank | by apply setLine_line_ends]. }
    rewrite Hdel in Hset. injection Hset as <-. apply deleteLine_spec.
  - intros Hn Hvis Hstep. apply isValidLineNumber_spec in Hn.
    rewrite (setLine_visible n text pm Hsize Hn Hvis) in Hset. injection Hset as <-.
    assert (Hne : trimmed text ≠ EmptyString).
    { intros Hempty. destruct (has_visible_last _ Hvis) as [j Hj].
      destruct (last_after_leading _ _ Hj) as [_ Hlast].
      unfold trimmed in Hempty. rewrite drop_trailing_spec, Hlast in Hempty.
      apply last_not_in_lt in Hlast.
      destruct (drop_leading blanks text); simpl in *; [lia | done]. }
    replace (n >=? m_autoCurrentLine pm) with (m_autoCurrentLine pm <=? n)
      by (rewrite Z.geb_leb; done).
    destruct (m_autoMode pm) eqn:Hauto; simpl;
      [destruct (m_autoCurrentLine pm <=? n) eqn:Hcur; simpl|].
    + apply Z.leb_le in Hcur. rewrite to_int_id by auto.
      unfold getLine. simpl. by rewrite lookup_insert_eq.
    + unfold getLine. simpl. by rewrite lookup_insert_eq.
    + unfold getLine. simpl. by rewrite lookup_insert_eq.
Qed.

(** The property at two inputs.  In a new store in auto mode with the
    cursor at 10, the text ["  PRINT 1 "] followed by a carriage return
    is stored at line 10 as ["PRINT 1"] and the cursor moves to 20.  In
    the store [10 PRINT 1 / 20 GOTO 10 / 40 END], a text of a space and a
    tab deletes line 20 and leaves line 10. *)
Lemma setLine_behaviour_witness :
  let text := String " " (String " " ("PRINT 1 " +:+ String "013" EmptyString)) in
  let pm := set_autoCurrentLine 10 (Build ∅ "" false true 10 10 10) in
  let blank := String " " (String "009" EmptyString) in
  (∃ pm', setLine 10 text pm = Cpp.Ok pm'
          ∧ getLine 10 pm' = "PRINT 1"
          ∧ isModified pm' = true
          ∧ m_autoCurrentLine pm' = 20)
  ∧ (∃ pm', setLine 20 blank sample = Cpp.Ok pm'
            ∧ hasLine 20 pm' = false
            ∧ getLine 10 pm' = "PRINT 1"
            ∧ isModified pm' = true).
Proof.
  intros text pm blank. split.
  - destruct (setLine_behaviour 10 text pm) as (pm' & Hset & _ & _ & Hstore).
    { vm_compute. reflexivity. }
    destruct Hstore as (_ & Hline & _ & Hmod & _ & _ & _ & _ & Hcur).
    { lia. }
    { vm_compute. reflexivity. }
    { intros _ _. vm_compute. split; discriminate. }
    exists pm'. split; [exact Hset|]. split; [exact Hline|]. split; [exact Hmod|].
    exact Hcur.
  - destruct (setLine_behaviour 20 blank sample) as (pm' & Hset & _ & Hdelete & _).
    { vm_compute. reflexivity. }
    destruct Hdelete as (Hlines & Hgone & Hmod & _).
    { lia. }
    { left. vm_compute. reflexivity. }
    exists pm'. split; [exact Hset|]. split; [exact Hgone|]. split.
    + unfold getLine. rewrite Hlines. vm_compute. reflexivity.
    + rewrite Hmod. vm_compute. reflexivity.
Defined.

(** C9 as stated fails.  The text made of one carriage return does not
    trim, of spaces and tabs, to the empty text; yet [setLine] does not
    store a line and leaves the modified flag of a new store at false. *)
Lemma setLine_as_stated_counterexample :
  let text := String "013" EmptyString in
  trim_blanks text ≠ EmptyString
  ∧ ∃ pm', setLine 10 text new = Cpp.Ok pm'
           ∧ hasLine 10 pm' = false
           ∧ isModified pm' = false.
Proof.
  split.
  - vm_compute. discriminate.
  - eexists. split; [vm_compute; reflexivity|]. split; reflexivity.
Qed.

End ProgramManagerProperties.

(** ** The program store: lines in order *)

Section ProgramStore.
Import ProgramManager.

#[local] Instance key_le_transitive : Transitive key_le.
Proof. unfold key_le. intros a b c. lia. Qed.

#[local] Instance key_le_total : Total key_le.
Proof. unfold key_le. intros a b. lia. Qed.

Lemma entries_elem pm n code :
  (n, code) ∈ entries pm ↔ m_lines pm !! n = Some code.
Proof.
  unfold entries. rewrite merge_sort_Permutation. apply elem_of_map_to_list.
Qed.

Lemma entries_hasLine pm n : n ∈ (entries pm).*1 ↔ hasLine n pm = true.
Proof.
  unfold hasLine. rewrite list_elem_of_fmap. split.
  - intros ([n' code] & -> & H). apply entries_elem in H. simpl. by rewrite H.
  - destruct (m_lines pm !! n) as [code|] eqn:H; [|done]. intros _.
    exists (n, code). split; [done|]. by apply entries_elem.
Qed.

Lemma ascending_keys (l : list (Z * string)) :
  StronglySorted key_le l → NoDup l.*1 → ascending l.*1.
Proof.
  unfold ascending. induction 1 as [|a l Hl IH Ha]; intros Hnd; simpl; [constructor|].
  apply NoDup_cons in Hnd as [Hnotin Hnd]. constructor; [by apply IH|].
  apply Forall_forall. intros n Hn.
  apply list_elem_of_fmap in Hn as (b & -> & Hb).
  rewrite Forall_forall in Ha. specialize (Ha b Hb). unfold key_le in Ha.
  assert (a.1 ≠ b.1); [|lia].
  intros Heq. apply Hnotin. rewrite Heq. apply list_elem_of_fmap. by exists b.
Qed.

Lemma entries_ascending pm : ascending (entries pm).*1.
Proof.
  apply ascending_keys.
  - apply StronglySorted_merge_sort; apply _.
  - unfold entries. rewrite merge_sort_Permutation. apply NoDup_fst_map_to_list.
Qed.


Lemma ascending_cons n c (l : list (Z * string)) :
  ascending ((n, c) :: l).*1 → ascending l.*1 ∧ ∀ m, m ∈ l.*1 → n < m.
Proof.
  unfold ascending. simpl. intros H. apply StronglySorted_inv in H as [H1 H2].
  split; [done|]. by apply Forall_forall.
Qed.

Lemma entries_length pm : length (entries pm) = size (m_lines pm).
Proof. unfold entries. rewrite merge_sort_Permutation. apply length_map_to_list. Qed.

(** The stored lines of a concrete store, one by one. *)
Ltac each_line H :=
  apply entries_hasLine in H;
  match type of H with _ ∈ ?l => let keys := eval vm_compute in l in change l with keys in H end;
  rewrite ?elem_of_cons, elem_of_nil in H;
  repeat (destruct H as [H|H]); try done; subst.

(** The line numbers are listed in strictly ascending order, each stored
    line once and nothing else. *)
Theorem getLineNumbers_ascending (pm : ProgramManager.t) :
  ascending (getLineNumbers pm)
  ∧ (∀ n, n ∈ getLineNumbers pm ↔ hasLine n pm = true)
  ∧ getLineCount pm = Z.of_nat (size (m_lines pm)).
Proof.
  split; [apply entries_ascending|]. split; [apply entries_hasLine|].
  unfold getLineCount. by rewrite entries_length.
Qed.

(** *** The first and the last line *)

Lemma first_is_least n c (l : list (Z * string)) :
  ascending ((n, c) :: l).*1 → ∀ m, m ∈ ((n, c) :: l).*1 → n <= m.
Proof.
  intros H m Hm. apply ascending_cons in H as [_ H]. simpl in Hm.
  apply elem_of_cons in Hm as [->|Hm]; [lia|]. apply H in Hm. lia.
Qed.

Lemma last_is_greatest (l : list (Z * string)) : ∀ n c,
  ascending l.*1 → last l = Some (n, c) → ∀ m, m ∈ l.*1 → m <= n.
Proof.
  induction l as [|[k kc] l IH]; intros n c Hl Hlast m Hm; [done|].
  apply ascending_cons in Hl as [Hl Hk]. simpl in Hm.
  destruct l as [|e l'].
  - simpl in Hlast. injection Hlast as -> ->.
    apply elem_of_cons in Hm as [->|Hm]; [lia|]. by apply elem_of_nil in Hm.
  - change (last (e :: l') = Some (n, c)) in Hlast.
    apply elem_of_cons in Hm as [->|Hm]; [|by eapply IH].
    assert (Hn : n ∈ (e :: l').*1).
    { apply list_elem_of_fmap. exists (n, c). split; [done|].
      by apply last_Some_elem_of. }
    apply Hk in Hn. lia.
Qed.

(** An empty store answers -1 for both ends; otherwise the first and the
    last line number are stored lines that bound every stored line. *)
Theorem first_and_last_line (pm : ProgramManager.t) :
  (isEmpty pm = true →
   (∀ n, hasLine n pm = false)
   ∧ getFirstLineNumber pm = -1 ∧ getLastLineNumber pm = -1)
  ∧ (isEmpty pm = false →
     hasLine (getFirstLineNumber pm) pm = true
     ∧ hasLine (getLastLineNumber pm) pm = true
     ∧ ∀ n, hasLine n pm = true → getFirstLineNumber pm <= n <= getLastLineNumber pm).
Proof.
  pose proof (entries_ascending pm) as Hasc.
  unfold isEmpty, getFirstLineNumber, getLastLineNumber.
  split; intros Hempty.
  - destruct (entries pm) as [|e l] eqn:He; [|done]. split; [|done].
    intros n. apply not_true_is_false. rewrite <- entries_hasLine, He. simpl.
    apply not_elem_of_nil.
  - destruct (entries pm) as [|[n c] l] eqn:He; [done|].
    destruct (last ((n, c) :: l)) as [[k kc]|] eqn:Hlast;
      [|by apply last_None in Hlast].
    split; [|split].
    + apply entries_hasLine. rewrite He. simpl. apply elem_of_cons. by left.
    + apply entries_hasLine. rewrite He. apply list_elem_of_fmap.
      exists (k, kc). split; [done|]. by apply last_Some_elem_of.
    + intros m Hm. apply entries_hasLine in Hm. rewrite He in Hm. split.
      * by eapply first_is_least.
      * by eapply last_is_greatest.
Qed.

(** *** Stepping through the lines *)

Lemma upper_bound_spec cur (l : list (Z * string)) :
  ascending l.*1 →
  match upper_bound cur l with
  | None => ∀ m, m ∈ l.*1 → m <= cur
  | Some (n, c) => (n, c) ∈ l ∧ cur < n ∧ ∀ m, m ∈ l.*1 → cur < m → n <= m
  end.
Proof.
  induction l as [|[k kc] l IH]; intros Hl; simpl.
  - intros m Hm. by apply elem_of_nil in Hm.
  - pose proof (first_is_least _ _ _ Hl) as Hleast.
    apply ascending_cons in Hl as [Hl Hk]. specialize (IH Hl).
    destruct (cur <? k) eqn:Hcur.
    + apply Z.ltb_lt in Hcur. split; [by left|]. split; [done|].
      intros m Hm _. by apply Hleast.
    + apply Z.ltb_ge in Hcur. destruct (upper_bound cur l) as [[n c]|].
      * destruct IH as (Hin & Hn & Hmin). split; [by right|]. split; [done|].
        intros m Hm Hlt. apply elem_of_cons in Hm as [->|Hm]; [lia|]. by apply Hmin.
      * intros m Hm. apply elem_of_cons in Hm as [->|Hm]; [done|]. by apply IH.
Qed.

(** [getNextLineNumber] answers -1 when no stored line comes after the
    given one, and otherwise the least stored line number above it. *)
Theorem getNextLineNumber_least (pm : ProgramManager.t) (currentLine : Z) :
  ((∀ n, hasLine n pm = true → n <= currentLine) →
   getNextLineNumber currentLine pm = -1)
  ∧ (∀ m, hasLine m pm = true → currentLine < m →
          hasLine (getNextLineNumber currentLine pm) pm = true
          ∧ currentLine < getNextLineNumber currentLine pm <= m).
Proof.
  pose proof (upper_bound_spec currentLine _ (entries_ascending pm)) as H.
  unfold getNextLineNumber. destruct (upper_bound currentLine (entries pm)) as [[n c]|].
  - destruct H as (Hin & Hn & Hmin).
    assert (Hhas : hasLine n pm = true).
    { apply entries_hasLine, list_elem_of_fmap. by exists (n, c). }
    split.
    + intros Hall. apply Hall in Hhas. lia.
    + intros m Hm Hlt. split; [done|]. split; [done|].
      apply Hmin; [|done]. by apply entries_hasLine.
  - split; [done|]. intros m Hm Hlt. apply entries_hasLine, H in Hm. lia.
Qed.

Lemma before_lower_bound_spec cur (l : list (Z * string)) : ∀ before,
  ascending l.*1 →
  match before_lower_bound cur before l with
  | None => before = None ∧ ∀ m, m ∈ l.*1 → cur <= m
  | Some n =>
      (before = Some n ∧ ∀ m, m ∈ l.*1 → cur <= m)
      ∨ (n ∈ l.*1 ∧ n < cur ∧ ∀ m, m ∈ l.*1 → m < cur → m <= n)
  end.
Proof.
  induction l as [|[k kc] l IH]; intros before Hl; simpl.
  - destruct before; [left|]; (split; [done|]); intros m Hm; by apply elem_of_nil in Hm.
  - pose proof (first_is_least _ _ _ Hl) as Hleast.
    apply ascending_cons in Hl as [Hl Hk].
    destruct (k <? cur) eqn:Hcur.
    + apply Z.ltb_lt in Hcur. specialize (IH (Some k) Hl).
      destruct (before_lower_bound cur (Some k) l) as [n|]; [|by destruct IH].
      right. destruct IH as [[[= ->] Hall]|(Hin & Hn & Hmax)].
      * split; [by left|]. split; [done|]. intros m Hm Hlt.
        apply elem_of_cons in Hm as [->|Hm]; [lia|]. apply Hall in Hm. lia.
      * split; [by right|]. split; [done|]. intros m Hm Hlt.
        apply elem_of_cons in Hm as [->|Hm]; [|by apply Hmax].
        apply Hk in Hin. lia.
    + apply Z.ltb_ge in Hcur.
      assert (Hall : ∀ m, m ∈ k :: l.*1 → cur <= m).
      { intros m Hm. apply Hleast in Hm. lia. }
      destruct before; [left|]; done.
Qed.

(** [getPreviousLineNumber] answers -1 when no stored line comes before
    the given one, and otherwise the greatest stored line number below it. *)
Theorem getPreviousLineNumber_greatest (pm : ProgramManager.t) (currentLine : Z) :
  ((∀ n, hasLine n pm = true → currentLine <= n) →
   getPreviousLineNumber currentLine pm = -1)
  ∧ (∀ m, hasLine m pm = true → m < currentLine →
          hasLine (getPreviousLineNumber currentLine pm) pm = true
          ∧ m <= getPreviousLineNumber currentLine pm < currentLine).
Proof.
  pose proof (before_lower_bound_spec currentLine _ None (entries_ascending pm)) as H.
  unfold getPreviousLineNumber.
  destruct (before_lower_bound currentLine None (entries pm)) as [n|].
  - destruct H as [[? _]|(Hin & Hn & Hmax)]; [done|].
    apply entries_hasLine in Hin. split.
    + intros Hall. apply Hall in Hin. lia.
    + intros m Hm Hlt. split; [done|]. split; [|done].
      apply Hmax; [|done]. by apply entries_hasLine.
  - destruct H as [_ H]. split; [done|].
    intros m Hm Hlt. apply entries_hasLine, H in Hm. lia.
Qed.


(** *** Listings and program text *)

Lemma filter_keys f (l : list (Z * string)) m :
  m ∈ (List.filter f l).*1 → m ∈ l.*1.
Proof.
  intros H. apply list_elem_of_fmap in H as (e & -> & He).
  apply list_elem_of_In, filter_In in He as [He _].
  apply list_elem_of_fmap. exists e. split; [done|]. by apply list_elem_of_In.
Qed.

Lemma filter_ascending f (l : list (Z * string)) :
  ascending l.*1 → ascending (List.filter f l).*1.
Proof.
  induction l as [|[k kc] l IH]; intros Hl; simpl; [done|].
  apply ascending_cons in Hl as [Hl Hk]. destruct (f (k, kc)); [|by apply IH].
  simpl. constructor; [by apply IH|]. apply Forall_forall. intros m Hm.
  by apply Hk, (filter_keys f).
Qed.

Lemma includes_spec range n code :
  includes range (n, code) = true
  ↔ (hasStart range = true → startLine range <= n)
    ∧ (hasEnd range = true → n <= endLine range).
Proof.
  unfold includes. simpl.
  destruct (hasStart range), (hasEnd range); simpl;
    destruct (n <? startLine range) eqn:H1; destruct (endLine range <? n) eqn:H2;
    rewrite ?Z.ltb_lt, ?Z.ltb_ge in *; split; try done; try lia;
    intros [Ha Hb]; try (specialize (Ha eq_refl)); try (specialize (Hb eq_refl)); lia.
Qed.

(** A listing holds exactly the stored lines within the bounds that the
    range has, by ascending line number; without bounds it is the whole
    program. *)
Theorem getLines_range (pm : ProgramManager.t) (range : ListRange) :
  (∀ n code, (n, code) ∈ getLines range pm
             ↔ m_lines pm !! n = Some code
               ∧ (hasStart range = true → startLine range <= n)
               ∧ (hasEnd range = true → n <= endLine range))
  ∧ ascending (getLines range pm).*1
  ∧ getLines ListRange_all pm = getAllLines pm.
Proof.
  unfold getLines, filterLinesByRange, getAllLines. split; [|split].
  - intros n code. rewrite list_elem_of_In, filter_In, <- list_elem_of_In.
    by rewrite entries_elem, includes_spec.
  - apply filter_ascending, entries_ascending.
  - induction (entries pm) as [|e l IH]; simpl; [done|]. by rewrite IH.
Qed.

Lemma filter_none range (l : list (Z * string)) :
  (∀ m, m ∈ l.*1 → hasEnd range = true ∧ endLine range < m) →
  List.filter (includes range) l = [].
Proof.
  induction l as [|[k kc] l IH]; intros H; simpl; [done|].
  destruct (includes range (k, kc)) eqn:Hin.
  - apply includes_spec in Hin as [_ Hin].
    destruct (H k) as [He Hk]; [by left|]. specialize (Hin He). lia.
  - apply IH. intros m Hm. apply H. by right.
Qed.

Lemma includes_printed first last k kc :
  includes (printed_range first last) (k, kc)
  = negb (k <? first) && negb (negb (last =? -1) && (last <? k)).
Proof.
  unfold includes, printed_range. simpl.
  by destruct (k <? first), (negb (last =? -1)), (last <? k).
Qed.

Lemma range_text_filter first last (l : list (Z * string)) :
  ascending l.*1 →
  range_text first last l
  = lines_text (List.filter (includes (printed_range first last)) l).
Proof.
  induction l as [|[k kc] l IH]; intros Hl; [done|].
  apply ascending_cons in Hl as [Hl Hk]. specialize (IH Hl).
  cbn [List.filter range_text]. rewrite includes_printed.
  destruct (k <? first); simpl; [done|].
  destruct (negb (last =? -1) && (last <? k)) eqn:Hend; simpl.
  - rewrite filter_none; [done|]. intros m Hm. simpl.
    apply andb_true_iff in Hend as [Hend Hlast]. apply Z.ltb_lt in Hlast.
    split; [done|]. apply Hk in Hm. lia.
  - by rewrite IH.
Qed.

Lemma range_text_all first (l : list (Z * string)) :
  (∀ m, m ∈ l.*1 → first <= m) → range_text first (-1) l = lines_text l.
Proof.
  induction l as [|[k kc] l IH]; intros H; simpl; [done|].
  replace (k <? first) with false
    by (symmetry; apply Z.ltb_ge, H; by left).
  simpl. rewrite IH; [done|]. intros m Hm. apply H. by right.
Qed.

(** The text of a range is the text of the listing of that range, where
    -1 as the last line means that there is no last line; from a first
    line that no stored line precedes it is the whole program text. *)
Theorem generateProgramRange_listing (pm : ProgramManager.t) (first last : Z) :
  generateProgramRange first last pm
  = lines_text (getLines (printed_range first last) pm)
  ∧ ((∀ n, hasLine n pm = true → first <= n) →
     generateProgramRange first (-1) pm = generateProgram pm).
Proof.
  split.
  - apply range_text_filter, entries_ascending.
  - intros H. apply range_text_all. intros m Hm. by apply H, entries_hasLine.
Qed.


(** *** Statistics *)

Lemma gap_after_spec (l : list (Z * string)) : ∀ p,
  ascending (p :: l.*1) →
  (∀ m, m ∈ l.*1 → m < Cpp.INT_MAX) →
  Cpp.INT_MIN <= p < Cpp.INT_MAX →
  let top := match last l with Some (n, _) => n | None => p end in
  p + Z.of_nat (length l) <= top
  ∧ (gap_after (p + 1) l = false ↔ top = p + Z.of_nat (length l)).
Proof.
  induction l as [|[k kc] l IH]; intros p Hasc Hmax Hp; simpl.
  { split; [lia|]. split; [lia | done]. }
  apply StronglySorted_inv in Hasc as [Hasc Hk].
  assert (Hpk : p < k) by (apply Forall_cons in Hk as [Hk _]; exact Hk).
  assert (Hkmax : k < Cpp.INT_MAX) by (apply Hmax; by left).
  destruct (IH k Hasc) as [Hle Hiff].
  { intros m Hm. apply Hmax. by right. }
  { unfold Cpp.INT_MIN, Cpp.INT_MAX in *. lia. }
  rewrite last_cons.
  assert (Htop : (match match last l with Some y => Some y | None => Some (k, kc) end with
                  | Some (n, _) => n | None => p end)
                 = match last l with Some (n, _) => n | None => k end)
    by (by destruct (last l) as [[? ?]|]).
  rewrite Htop. clear Htop. simpl in Hle, Hiff.
  split; [lia|].
  destruct (p + 1 <? k) eqn:Hgap.
  - apply Z.ltb_lt in Hgap. split; [done | lia].
  - apply Z.ltb_ge in Hgap. assert (k = p + 1) as -> by lia.
    rewrite to_int_id by (unfold Cpp.INT_MIN, Cpp.INT_MAX in *; lia).
    rewrite Hiff. lia.
Qed.

(** The statistics of a store that is not empty: the number of lines,
    the least and the greatest line number, and a gap flag that is off
    exactly when the line numbers are consecutive. *)
Theorem getStatistics_gaps (pm : ProgramManager.t) :
  isEmpty pm = false →
  (∀ n, hasLine n pm = true → Cpp.INT_MIN <= n < Cpp.INT_MAX) →
  lineCount (getStatistics pm) = Z.of_nat (size (m_lines pm))
  ∧ minLineNumber (getStatistics pm) = getFirstLineNumber pm
  ∧ maxLineNumber (getStatistics pm) = getLastLineNumber pm
  ∧ (hasGaps (getStatistics pm) = false
     ↔ getLastLineNumber pm - getFirstLineNumber pm + 1
       = Z.of_nat (size (m_lines pm))).
Proof.
  intros Hne Hint.
  pose proof (entries_ascending pm) as Hasc.
  pose proof (entries_hasLine pm) as Helem.
  pose proof (f_equal Z.of_nat (entries_length pm)) as Hcount.
  unfold getStatistics, isEmpty, getLineCount, getFirstLineNumber, getLastLineNumber in *.
  destruct (entries pm) as [|[k kc] l] eqn:He; [done|]. simpl.
  split; [done|]. split; [done|]. split; [done|].
  assert (Hk : Cpp.INT_MIN <= k < Cpp.INT_MAX).
  { apply Hint, Helem. by left. }
  rewrite !to_int_id by (unfold Cpp.INT_MIN, Cpp.INT_MAX in *; lia).
  replace (k + 1 <? k) with false by (symmetry; apply Z.ltb_ge; lia).
  destruct (gap_after_spec l k) as [_ Hiff]; [done| |done|].
  { intros m Hm. apply Hint, Helem. by right. }
  rewrite Hiff, <- Hcount, last_cons. simpl length.
  destruct (last l) as [[n c]|]; lia.
Qed.

Lemma getStatistics_gaps_witness :
  lineCount (getStatistics sample) = Z.of_nat (size (m_lines sample))
  ∧ minLineNumber (getStatistics sample) = getFirstLineNumber sample
  ∧ maxLineNumber (getStatistics sample) = getLastLineNumber sample
  ∧ (hasGaps (getStatistics sample) = false
     ↔ getLastLineNumber sample - getFirstLineNumber sample + 1
       = Z.of_nat (size (m_lines sample))).
Proof.
  apply getStatistics_gaps.
  - reflexivity.
  - intros n Hn. each_line Hn; unfold Cpp.INT_MIN, Cpp.INT_MAX; lia.
Defined.

(** *** Automatic numbering *)

Lemma next_free_finds (pm : ProgramManager.t) (step : Z) :
  (∀ n, hasLine n pm = true → n <= 65535) →
  0 < step <= Cpp.INT_MAX - 65535 →
  ∀ fuel current,
    Cpp.INT_MIN <= current →
    (Z.to_nat (65536 - current) < fuel)%nat →
    ∃ k, 0 <= k
         ∧ next_free fuel step current pm = Some (current + k * step)
         ∧ hasLine (current + k * step) pm = false
         ∧ ∀ j, 0 <= j < k → hasLine (current + j * step) pm = true.
Proof.
  intros Hkeys Hstep. induction fuel as [|fuel IH]; intros current Hmin Hfuel; [lia|].
  simpl. destruct (hasLine current pm) eqn:Hhas.
  - pose proof (Hkeys _ Hhas) as Hcur.
    rewrite to_int_id by (unfold Cpp.INT_MIN, Cpp.INT_MAX in *; lia).
    destruct (IH (current + step)) as (k & Hk & Hnext & Hfree & Hbusy); [lia|lia|].
    exists (k + 1). split; [lia|].
    replace (current + (k + 1) * step) with (current + step + k * step) by lia.
    split; [done|]. split; [done|]. intros j Hj.
    destruct (decide (j = 0)) as [->|Hj0]; [by rewrite Z.mul_0_l, Z.add_0_r|].
    replace (current + j * step) with (current + step + (j - 1) * step) by lia.
    apply Hbusy. lia.
  - exists 0. rewrite Z.mul_0_l, Z.add_0_r. split; [lia|]. split; [done|].
    split; [done|]. intros j Hj. lia.
Qed.

(** In auto mode with a positive step, and with every stored line number
    at most 65535, the search for the next automatic line number ends:
    it answers the first number [current + k * step] that is free, and
    makes it the cursor. *)
Theorem getNextAutoLine_free (pm : ProgramManager.t) :
  m_autoMode pm = true →
  (∀ n, hasLine n pm = true → n <= 65535) →
  0 < m_autoStep pm <= Cpp.INT_MAX - 65535 →
  Cpp.INT_MIN <= m_autoCurrentLine pm →
  ∃ fuel k,
    0 <= k
    ∧ getNextAutoLine fuel pm
      = Some (m_autoCurrentLine pm + k * m_autoStep pm,
              set_autoCurrentLine (m_autoCurrentLine pm + k * m_autoStep pm) pm)
    ∧ hasLine (m_autoCurrentLine pm + k * m_autoStep pm) pm = false
    ∧ ∀ j, 0 <= j < k → hasLine (m_autoCurrentLine pm + j * m_autoStep pm) pm = true.
Proof.
  intros Hauto Hkeys Hstep Hcur.
  destruct (next_free_finds pm _ Hkeys Hstep
              (S (Z.to_nat (65536 - m_autoCurrentLine pm))) (m_autoCurrentLine pm))
    as (k & Hk & Hnext & Hfree & Hbusy); [done|lia|].
  exists (S (Z.to_nat (65536 - m_autoCurrentLine pm))), k.
  split; [done|]. split; [|done].
  unfold getNextAutoLine. by rewrite Hauto, Hnext.
Qed.

(** Auto mode from line 10 in steps of 10, with lines 10, 20 and 40
    taken: the next automatic line is 30. *)
Lemma getNextAutoLine_free_witness :
  ∃ fuel k,
    0 <= k
    ∧ getNextAutoLine fuel (incrementAutoLine (set_autoMode true sample))
      = Some (20 + k * 10, set_autoCurrentLine (20 + k * 10)
                             (incrementAutoLine (set_autoMode true sample)))
    ∧ hasLine (20 + k * 10) sample = false
    ∧ ∀ j, 0 <= j < k → hasLine (20 + j * 10) sample = true.
Proof.
  apply (getNextAutoLine_free (incrementAutoLine (set_autoMode true sample))).
  - reflexivity.
  - intros n Hn. change (hasLine n sample = true) in Hn. each_line Hn; lia.
  - vm_compute. split; [reflexivity | discriminate].
  - vm_compute. discriminate.
Defined.

(** With a step of zero the search never ends when the start line is
    taken: no amount of fuel lets [setAutoMode] return. *)
Theorem setAutoMode_step_zero (pm : ProgramManager.t) (start : Z) (fuel : nat) :
  hasLine start pm = true →
  Cpp.INT_MIN <= start <= Cpp.INT_MAX →
  setAutoMode fuel true start 0 pm = None.
Proof.
  intros Hhas Hint. unfold setAutoMode.
  set (pm1 := Build _ _ _ _ _ _ _).
  assert (Hnone : next_free fuel 0 start pm1 = None); [|by rewrite Hnone].
  induction fuel as [|fuel IH]; simpl; [done|].
  change (hasLine start pm1) with (hasLine start pm). rewrite Hhas.
  by rewrite Z.add_0_r, to_int_id.
Qed.


(** *** What [setLine] stores *)

Lemma starts_with_blank_substring m s :
  starts_with_blank (substring 0 m (drop_leading blanks s)) = false.
Proof.
  induction s as [|c s IH]; simpl; [by destruct m|].
  destruct (Cpp.in_chars c blanks) eqn:Hc; [exact IH|].
  destruct m; simpl; [done | exact Hc].
Qed.

(** The three outcomes of [setLine]: nothing changes, the line is
    deleted, or a text is stored. *)
Lemma setLine_outcome n text pm pm' :
  setLine n text pm = Cpp.Ok pm' →
  pm' = pm ∨ pm' = deleteLine n pm
  ∨ ∃ code, kept_line n code
            ∧ m_lines pm' = <[n := code]> (m_lines pm)
            ∧ m_filename pm' = m_filename pm
            ∧ m_autoMode pm' = m_autoMode pm
            ∧ m_autoStart pm' = m_autoStart pm
            ∧ m_autoStep pm' = m_autoStep pm.
Proof.
  unfold setLine. destruct (isValidLineNumber n) eqn:Hvalid; simpl;
    [|intros [= <-]; by left].
  unfold Cpp.find_first_not_of. rewrite find_first_not_of_from_spec.
  destruct (all_in blanks text) eqn:Hall.
  { rewrite Z.eqb_refl. intros [= <-]. right. by left. }
  destruct (_ =? Cpp.npos); [intros [= <-]; right; by left|].
  unfold Cpp.substr. destruct (_ <? _); [done|].
  replace (Z.to_nat (0 + Z.of_nat (leading_count blanks text)))
    with (leading_count blanks text) by lia.
  rewrite substring_drop_leading.
  set (code := substring 0 _ _).
  destruct (Cpp.string_empty code) eqn:Hempty; [intros [= <-]; right; by left|].
  intros H. right. right. exists code. split.
  { split; [done|]. split; [done|]. apply starts_with_blank_substring. }
  simpl in H. destruct (m_autoMode pm && _); injection H as <-; done.
Qed.

(** [setLine] never throws on a text that a [std::string] can hold. *)
Theorem setLine_returns (n : Z) (text : string) (pm : ProgramManager.t) :
  Z.of_nat (String.length text) < Cpp.npos →
  ∃ pm', setLine n text pm = Cpp.Ok pm'.
Proof.
  intros Hsize. unfold setLine. destruct (isValidLineNumber n); simpl; [|by eexists].
  unfold Cpp.find_first_not_of. rewrite find_first_not_of_from_spec.
  destruct (all_in blanks text) eqn:Hall; [rewrite Z.eqb_refl; by eexists|].
  destruct (_ =? Cpp.npos); [by eexists|].
  pose proof (leading_count_lt _ _ Hall) as Hlt.
  unfold Cpp.substr.
  replace (Z.of_nat (String.length text) <? 0 + Z.of_nat (leading_count blanks text))
    with false by (symmetry; apply Z.ltb_ge; lia).
  destruct (Cpp.string_empty _); [by eexists|].
  simpl. destruct (m_autoMode pm && _); by eexists.
Qed.

(** [setLine n] leaves every other line, the file name and the settings
    of the automatic numbering as they were. *)
Theorem setLine_other_lines (n : Z) (text : string) (pm pm' : ProgramManager.t) :
  setLine n text pm = Cpp.Ok pm' →
  (∀ m, m ≠ n → getLine m pm' = getLine m pm ∧ hasLine m pm' = hasLine m pm)
  ∧ m_filename pm' = m_filename pm
  ∧ m_autoMode pm' = m_autoMode pm
  ∧ m_autoStart pm' = m_autoStart pm
  ∧ m_autoStep pm' = m_autoStep pm.
Proof.
  intros H. apply setLine_outcome in H as [->|[->|(code & _ & Hl & Hf & Ha & Hs & Ht)]].
  - done.
  - unfold deleteLine. destruct (m_lines pm !! n) eqn:Hn; [|done].
    split; [|done]. intros m Hm. unfold getLine, hasLine. simpl.
    by rewrite lookup_delete_ne.
  - split; [|done]. intros m Hm. unfold getLine, hasLine.
    by rewrite Hl, lookup_insert_ne.
Qed.

Lemma deleteLine_well_kept n pm : well_kept pm → well_kept (deleteLine n pm).
Proof.
  intros H. unfold deleteLine. destruct (m_lines pm !! n) eqn:Hn; [|done].
  intros m code Hm. simpl in Hm. apply lookup_delete_Some in Hm as [_ Hm]. by eapply H.
Qed.

(** In a store that comes from a new one through [setLine], [deleteLine]
    and [clear], every line has a number from 1 to 65535 and a text that
    is not empty and does not begin with a space or a tab. *)
Theorem built_well_kept (pm : ProgramManager.t) : built pm → well_kept pm.
Proof.
  induction 1 as [|n text pm pm' _ IH Hset|n pm _ IH|pm _ IH].
  - intros n code H. simpl in H. by rewrite lookup_empty in H.
  - apply setLine_outcome in Hset as [->|[->|(code & Hkept & Hl & _)]].
    + done.
    + by apply deleteLine_well_kept.
    + intros m c Hm. rewrite Hl in Hm.
      apply lookup_insert_Some in Hm as [[<- <-]|[_ Hm]]; [done | by eapply IH].
  - by apply deleteLine_well_kept.
  - intros n code H. simpl in H. by rewrite lookup_empty in H.
Qed.

Lemma built_enter n text pm : built pm → built (enter n text pm).
Proof.
  intros H. unfold enter. destruct (setLine n text pm) as [pm'|] eqn:Hset; [|done].
  by eapply built_setLine.
Defined.

Lemma built_program_sample : built sample.
Proof. unfold sample. repeat apply built_enter. apply built_new. Defined.

Lemma built_well_kept_witness : well_kept sample.
Proof. apply built_well_kept, built_program_sample. Defined.

Lemma setAutoMode_step_zero_witness : setAutoMode 1000 true 10 0 sample = None.
Proof.
  apply setAutoMode_step_zero; [reflexivity|].
  unfold Cpp.INT_MIN, Cpp.INT_MAX. lia.
Defined.

Lemma setLine_returns_witness : ∃ pm', setLine 30 " REM x " sample = Cpp.Ok pm'.
Proof. apply setLine_returns. vm_compute. reflexivity. Defined.

Lemma setLine_other_lines_witness :
  (∀ m, m ≠ 20 → getLine m (enter 20 "" sample) = getLine m sample
                 ∧ hasLine m (enter 20 "" sample) = hasLine m sample)
  ∧ m_filename (enter 20 "" sample) = m_filename sample
  ∧ m_autoMode (enter 20 "" sample) = m_autoMode sample
  ∧ m_autoStart (enter 20 "" sample) = m_autoStart sample
  ∧ m_autoStep (enter 20 "" sample) = m_autoStep sample.
Proof. apply (setLine_other_lines 20 ""). by vm_compute. Defined.

End ProgramStore.

(** ** The IR generator: what expression lowering leaves untouched *)

Section IRGenFrame.
Import IRGen IRSpec.


Lemma extends_refl g : extends g g.
Proof. exists []. destruct g. unfold set_instructions. simpl. by rewrite app_nil_r. Qed.

Lemma extends_trans g1 g2 g3 : extends g1 g2 → extends g2 g3 → extends g1 g3.
Proof.
  intros [c1 ->] [c2 ->]. exists (c1 ++ c2).
  unfold set_instructions. simpl. by rewrite app_assoc.
Qed.

Lemma extends_push_back i g : extends g (push_back i g).
Proof. by exists [i]. Qed.

Lemma extends_emit op g : extends g (emit op g).
Proof. apply extends_push_back. Qed.

Lemma extends_emit1 op a g : extends g (emit1 op a g).
Proof. apply extends_push_back. Qed.

Lemma extends_emit2 op a b g : extends g (emit2 op a b g).
Proof. apply extends_push_back. Qed.


Section WithGen.
Variable gen : Expression → IRGen.t → option IRGen.t.
Hypothesis gen_extends : ∀ e g g', gen e g = Some g' → extends g g'.

Lemma generate_each_extends es g g' :
  generate_each gen es g = Some g' → extends g g'.
Proof.
  revert g. induction es as [|e es IH]; intros g; simpl.
  - intros [= <-]. apply extends_refl.
  - destruct (gen e g) as [g1|] eqn:He; [|done]. intros H.
    eapply extends_trans; [by eapply gen_extends | by apply IH].
Qed.

Lemma bind_arguments_extends f args params g g' :
  bind_arguments gen f args params g = Some g' → extends_params g g'.
Proof.
  revert params g. induction args as [|a args IH]; intros params g; simpl.
  - intros [= <-]. exists [], (m_parameterMap g). destruct g.
    unfold set_parameterMap, set_instructions. simpl. by rewrite app_nil_r.
  - destruct params as [|p params].
    + intros [= <-]. exists [], (m_parameterMap g). destruct g.
      unfold set_parameterMap, set_instructions. simpl. by rewrite app_nil_r.
    + destruct (gen a g) as [g1|] eqn:Ha; [|done]. intros H.
      apply gen_extends in Ha as [c1 ->]. apply IH in H as (c2 & pm & ->).
      eexists (c1 ++ [_] ++ c2), pm.
      unfold set_parameterMap, set_instructions, emit1, push_back, set_instructions.
      simpl. by rewrite <- !app_assoc.
Qed.

Lemma generateInlinedFunction_extends f args g g' :
  generateInlinedFunction gen f args g = Some g' → extends g g'.
Proof.
  unfold generateInlinedFunction.
  destruct (m_userFunctions g !! f) as [func|].
  - destruct (bind_arguments gen f args (uf_parameters func) g) as [g1|] eqn:Hb; [|done].
    destruct (gen (uf_body func) (set_inFunctionInlining true g1)) as [g2|] eqn:Hg; [|done].
    intros [= <-]. apply bind_arguments_extends in Hb as (c1 & pm & ->).
    apply gen_extends in Hg as [c2 ->]. exists (c1 ++ c2).
    unfold set_parameterMap, set_instructions, set_inFunctionInlining. simpl.
    by rewrite app_assoc.
  - intros [= <-]. apply extends_emit1.
Qed.

End WithGen.

(** Lowering an expression appends code and changes nothing else: the
    parameter map and the inlining flag are back to what they were. *)
Lemma generateExpression_extends fuel :
  ∀ e g g', generateExpression fuel e g = Some g' → extends g g'.
Proof.
  induction fuel as [|fuel IH]; intros e g g'; [done|].
  pose proof (generate_each_extends _ IH) as Heach.
  pose proof (generateInlinedFunction_extends _ IH) as Hinl.
  destruct e; simpl.
  - destruct (_ && _); intros [= <-]; apply extends_emit1.
  - intros [= <-]; apply extends_emit1.
  - destruct (constants (m_symbols g) !! name); [intros [= <-]; apply extends_emit1|].
    destruct (if m_inFunctionInlining g then _ else _);
      intros [= <-]; apply extends_emit1.
  - destruct (arrays (m_symbols g) !! name).
    + destruct (generate_each _ indices g) as [g1|] eqn:H1; [|done].
      intros [= <-]. eapply extends_trans; [by eapply Heach | apply extends_push_back].
    + destruct (m_userFunctions g !! name); [by apply Hinl|].
      destruct (generate_each _ indices g) as [g1|] eqn:H1; [|done].
      destruct (m_functions g !! name); intros [= <-];
        (eapply extends_trans; [by eapply Heach | apply extends_emit2]).
  - destruct (m_userFunctions g !! name); [by apply Hinl|].
    destruct (generate_each _ arguments g) as [g1|] eqn:H1; [|done].
    destruct (m_functions g !! name); intros [= <-];
      (eapply extends_trans; [by eapply Heach | apply extends_emit2]).
  - destruct (generate_each _ arguments g) as [g1|] eqn:H1; [|done].
    intros [= <-]. eapply extends_trans; [by eapply Heach | apply extends_emit2].
  - destruct (generateExpression fuel e1 g) as [g1|] eqn:H1; [|done].
    destruct (generateExpression fuel e2 g1) as [g2|] eqn:H2; [|done].
    intros H. assert (Hg : extends g g2)
      by (eapply extends_trans; by eapply IH).
    destruct op; injection H as <-;
      (eapply extends_trans; [exact Hg | apply extends_emit]).
  - destruct (generateExpression fuel e g) as [g1|] eqn:H1; [|done].
    apply IH in H1.
    destruct op; intros [= <-]; try exact H1;
      (eapply extends_trans; [exact H1 | apply extends_emit]).
  - destruct (generateExpression fuel e1 g) as [g1|] eqn:H1; [|done].
    destruct (generateExpression fuel e2 g1) as [g2|] eqn:H2; [|done].
    destruct (generateExpression fuel e3 g2) as [g3|] eqn:H3; [|done].
    intros [= <-].
    eapply extends_trans; [by eapply IH|].
    eapply extends_trans; [by eapply IH|].
    eapply extends_trans; [by eapply IH | apply extends_emit2].
Qed.

End IRGenFrame.

(** ** WHILE and WEND *)

Section WhileProperties.
Import IRGen IRSpec.

Lemma string_empty_append a b :
  Cpp.string_empty (a +:+ b) = Cpp.string_empty a && Cpp.string_empty b.
Proof. by destruct a. Qed.

Lemma double_to_string_nonempty d : Cpp.string_empty (Cpp.double_to_string d) = false.
Proof.
  unfold Cpp.double_to_string. rewrite !string_empty_append. simpl.
  by rewrite !andb_false_r.
Qed.

Lemma serialize_operator_deferrable op :
  deferrable_operator op = match serialize_operator op with Some _ => true | None => false end.
Proof. by destruct op. Qed.

(** [serializeExpression] gives a text exactly for the simple conditions. *)
Lemma serializeExpression_empty e :
  Cpp.string_empty (serializeExpression e) = negb (simple_condition e).
Proof.
  induction e; simpl; try done.
  - apply double_to_string_nonempty.
  - rewrite IHe1, IHe2, serialize_operator_deferrable.
    destruct (simple_condition e1), (simple_condition e2); simpl; try done.
    by destruct (serialize_operator op).
  - rewrite IHe. destruct (simple_condition e); simpl; [|done].
    destruct op; simpl; try done; by apply negb_false_iff; rewrite IHe.
Qed.

Lemma closes_deferred stack g' :
  m_whileLoopLabels g' = -1 :: stack → closes_with None stack g'.
Proof.
  intros Hg' lineNumber g2 H2. rewrite Hg' in H2.
  unfold generateWend. simpl. rewrite H2. simpl. eexists. split; [reflexivity|].
  split; reflexivity.
Qed.

Lemma closes_labelled label stack g' :
  0 <= label →
  m_whileLoopLabels g' = label :: stack →
  closes_with (Some (OpInt label)) stack g'.
Proof.
  intros Hpos Hg' lineNumber g2 H2. rewrite Hg' in H2.
  unfold generateWend. simpl. rewrite H2.
  replace (label >=? 0) with true by (symmetry; apply Z.geb_le; lia).
  eexists. split; [reflexivity|]. split; reflexivity.
Qed.

(** C7 (amended).  For a [WHILE] whose condition is built only from number
    literals, string literals, variables, unary operators and the binary
    operators [+ - * / \ MOD ^ = <> < <= > >= AND OR], the generator emits
    one [WHILE_START] whose operand is the (non-empty) text
    [serializeExpression condition], and the matching [WEND] emits
    [WHILE_END] without an operand.  For any other condition it mints a
    fresh label [L], emits [LABEL L], then the stack code of the condition,
    then [WHILE_START L], and the matching [WEND] emits [WHILE_END L]. *)
Theorem while_lowering (fuel : nat) (condition : Expression) (lineNumber : Z)
    (g : IRGen.t) :
  0 <= m_nextLabel g →
  let g0 := setSourceContext lineNumber (m_currentBlockId g) g in
  let L := m_nextLabel g in
  (simple_condition condition = true →
   ∃ g', generateWhile fuel condition lineNumber g = Some g'
     ∧ serializeExpression condition ≠ ""
     ∧ instructions g'
       = instructions g
         ++ [instruction IROpcode.WHILE_START
               (Some (OpString (serializeExpression condition))) None "" false g0]
     ∧ closes_with None (m_whileLoopLabels g) g')
  ∧ (simple_condition condition = false →
     ∀ g_c, generateExpression fuel condition (while_label_state lineNumber g) = Some g_c →
     ∃ g' code, generateWhile fuel condition lineNumber g = Some g'
       ∧ m_blockLabels g' = m_blockLabels g
       ∧ m_nextLabel g' = L + 1
       ∧ instructions g_c
         = instructions g
           ++ [instruction IROpcode.LABEL (Some (OpInt L)) None "" false g0] ++ code
       ∧ instructions g'
         = instructions g
           ++ [instruction IROpcode.LABEL (Some (OpInt L)) None "" false g0]
           ++ code
           ++ [instruction IROpcode.WHILE_START (Some (OpInt L)) None "" false g0]
       ∧ closes_with (Some (OpInt L)) (m_whileLoopLabels g) g').
Proof.
  intros Hlabel g0 L. split.
  - intros Hsimple.
    assert (Hne : Cpp.string_empty (serializeExpression condition) = false)
      by (rewrite serializeExpression_empty, Hsimple; done).
    unfold generateWhile. fold g0. rewrite Hne. simpl.
    eexists. split; [reflexivity|]. split; [|split].
    + intros Heq. rewrite Heq in Hne. done.
    + reflexivity.
    + by apply closes_deferred.
  - intros Hcomplex g_c Hc.
    assert (He : Cpp.string_empty (serializeExpression condition) = true)
      by (rewrite serializeExpression_empty, Hcomplex; done).
    unfold generateWhile. fold g0. rewrite He. simpl.
    match goal with
    | |- context [generateExpression fuel condition ?s] =>
        change s with (while_label_state lineNumber g)
    end.
    rewrite Hc.
    apply generateExpression_extends in Hc as [code ->].
    eexists _, code.
    split; [reflexivity|]. split; [reflexivity|]. split; [reflexivity|].
    split; [|split].
    + simpl. by rewrite <- app_assoc.
    + simpl. by rewrite <- !app_assoc.
    + by apply closes_labelled.
Qed.

(** The property at [WHILE A < 10] and at [WHILE F(A)], in a generator
    that has minted no label yet. *)
Lemma while_lowering_witness :
  (∃ g', generateWhile 5 (BinaryExpression (VariableExpression "A" (at_line 20)) TokenType.LESS_THAN
                            (NumberExpression 10)) 20 blank = Some g'
         ∧ map opcode (instructions g') = [IROpcode.WHILE_START])
  ∧ (∃ g', generateWhile 5 (FunctionCallExpression "F" [VariableExpression "A" (at_line 20)] false (at_line 20))
             20 blank = Some g'
           ∧ map opcode (instructions g')
             = [IROpcode.LABEL; IROpcode.LOAD_VAR; IROpcode.CALL_BUILTIN;
                IROpcode.WHILE_START]).
Proof.
  split.
  - destruct (while_lowering 5 (BinaryExpression (VariableExpression "A" (at_line 20))
                TokenType.LESS_THAN (NumberExpression 10)) 20 blank) as [H _].
    + vm_compute. discriminate.
    + destruct H as (g' & Hg & _ & Hi & _); [reflexivity|].
      exists g'. split; [exact Hg|]. rewrite Hi. reflexivity.
  - destruct (while_lowering 5 (FunctionCallExpression "F" [VariableExpression "A" (at_line 20)] false (at_line 20))
                20 blank) as [_ H].
    + vm_compute. discriminate.
    + edestruct H as (g' & code & Hg & _ & _ & Hc & Hi & _);
        [reflexivity | vm_compute; reflexivity |].
      exists g'. split; [exact Hg|]. rewrite Hi.
      simpl in Hc. injection Hc as <-. reflexivity.
Defined.

(** C7 as stated fails: [A XOR B] is built from variables and a binary
    operator, yet its [WHILE] is not deferred: the code starts with a
    label and [WHILE_START] carries the label, not a text. *)
Lemma while_as_stated_counterexample :
  let condition :=
    BinaryExpression (VariableExpression "A" (at_line 20)) TokenType.XOR (VariableExpression "B" (at_line 20)) in
  simple_as_stated condition = true
  ∧ ∃ g', generateWhile 5 condition 20 blank = Some g'
          ∧ map (λ i, (opcode i, operand1 i)) (instructions g')
            = [ (IROpcode.LABEL, Some (OpInt 1));
                (IROpcode.LOAD_VAR, Some (OpString "A"));
                (IROpcode.LOAD_VAR, Some (OpString "B"));
                (IROpcode.XOR, None);
                (IROpcode.WHILE_START, Some (OpInt 1)) ].
Proof.
  split; [reflexivity|]. eexists. split; vm_compute; reflexivity.
Qed.

End WhileProperties.

(** ** The opcode of [+] *)

Section PlusProperties.
Import IRGen IRSpec.











End PlusProperties.

(** ** Inline expansion of DEF FN: when it returns and when it does not *)

Section InlineExpansion.
Import IRGen IRSpec.

Lemma extends_userFunctions g g' :
  extends g g' → m_userFunctions g' = m_userFunctions g.
Proof. by intros [code ->]. Qed.

(** *** More fuel never hurts *)

Section Monotone.
Variables gen1 gen2 : Expression → IRGen.t → option IRGen.t.
Hypothesis gen_le : ∀ e g g', gen1 e g = Some g' → gen2 e g = Some g'.

Lemma generate_each_mono es g g' :
  generate_each gen1 es g = Some g' → generate_each gen2 es g = Some g'.
Proof.
  revert g. induction es as [|e es IH]; intros g; simpl; [done|].
  destruct (gen1 e g) as [g1|] eqn:He; [|done].
  rewrite (gen_le _ _ _ He). apply IH.
Qed.

Lemma bind_arguments_mono f args params g g' :
  bind_arguments gen1 f args params g = Some g' →
  bind_arguments gen2 f args params g = Some g'.
Proof.
  revert params g. induction args as [|a args IH]; intros [|p params] g; simpl; try done.
  destruct (gen1 a g) as [g1|] eqn:Ha; [|done].
  rewrite (gen_le _ _ _ Ha). apply IH.
Qed.

Lemma generateInlinedFunction_mono f args g g' :
  generateInlinedFunction gen1 f args g = Some g' →
  generateInlinedFunction gen2 f args g = Some g'.
Proof.
  unfold generateInlinedFunction.
  destruct (m_userFunctions g !! f) as [func|]; [|done].
  destruct (bind_arguments gen1 f args (uf_parameters func) g) as [g1|] eqn:Hb; [|done].
  rewrite (bind_arguments_mono _ _ _ _ _ Hb).
  destruct (gen1 (uf_body func) (set_inFunctionInlining true g1)) as [g2|] eqn:Hg; [|done].
  by rewrite (gen_le _ _ _ Hg).
Qed.
End Monotone.

Lemma generateExpression_mono n :
  ∀ m e g g', (n <= m)%nat →
    generateExpression n e g = Some g' → generateExpression m e g = Some g'.
Proof.
  induction n as [|n IH]; intros m e g g' Hle; [done|].
  destruct m as [|m]; [lia|].
  assert (Hgen : ∀ e g g', generateExpression n e g = Some g' →
                           generateExpression m e g = Some g')
    by (intros; eapply IH; [lia | done]).
  pose proof (generate_each_mono _ _ Hgen) as Heach.
  pose proof (generateInlinedFunction_mono _ _ Hgen) as Hinl.
  destruct e; simpl; try done.
  - destruct (arrays (m_symbols g) !! name).
    + destruct (generate_each _ indices g) as [g1|] eqn:H1; [|done].
      by rewrite (Heach _ _ _ H1).
    + destruct (m_userFunctions g !! name); [apply Hinl|].
      destruct (generate_each _ indices g) as [g1|] eqn:H1; [|done].
      by rewrite (Heach _ _ _ H1).
  - destruct (m_userFunctions g !! name); [apply Hinl|].
    destruct (generate_each _ arguments g) as [g1|] eqn:H1; [|done].
    by rewrite (Heach _ _ _ H1).
  - destruct (generate_each _ arguments g) as [g1|] eqn:H1; [|done].
    by rewrite (Heach _ _ _ H1).
  - destruct (generateExpression n e1 g) as [g1|] eqn:H1; [|done].
    rewrite (Hgen _ _ _ H1).
    destruct (generateExpression n e2 g1) as [g2|] eqn:H2; [|done].
    by rewrite (Hgen _ _ _ H2).
  - destruct (generateExpression n e g) as [g1|] eqn:H1; [|done].
    by rewrite (Hgen _ _ _ H1).
  - destruct (generateExpression n e1 g) as [g1|] eqn:H1; [|done].
    rewrite (Hgen _ _ _ H1).
    destruct (generateExpression n e2 g1) as [g2|] eqn:H2; [|done].
    rewrite (Hgen _ _ _ H2).
    destruct (generateExpression n e3 g2) as [g3|] eqn:H3; [|done].
    by rewrite (Hgen _ _ _ H3).
Qed.

(** *** Enough fuel exists when the calls have no cycle *)

Section Terminates.
Variable userFunctions : gmap string UserFunction.

Lemma each_terminates es :
  Forall (terminates userFunctions) es →
  ∀ g, m_userFunctions g = userFunctions →
       ∃ fuel g', generate_each (generateExpression fuel) es g = Some g'.
Proof.
  induction 1 as [|e es He _ IH]; intros g Hg.
  - by exists O, g.
  - destruct (He g Hg) as (n1 & g1 & H1).
    assert (Hg1 : m_userFunctions g1 = userFunctions)
      by (apply generateExpression_extends, extends_userFunctions in H1; congruence).
    destruct (IH g1 Hg1) as (n2 & g2 & H2).
    exists (n1 `max` n2)%nat, g2. simpl.
    rewrite (generateExpression_mono n1 (n1 `max` n2)%nat _ _ _ ltac:(lia) H1).
    eapply generate_each_mono; [|exact H2].
    intros. eapply generateExpression_mono; [|done]. lia.
Qed.

Lemma bind_terminates f args :
  Forall (terminates userFunctions) args →
  ∀ params g, m_userFunctions g = userFunctions →
    ∃ fuel g', bind_arguments (generateExpression fuel) f args params g = Some g'.
Proof.
  induction 1 as [|a args Ha _ IH]; intros params g Hg.
  - by exists O, g.
  - destruct params as [|p params]; [by exists O, g|].
    destruct (Ha g Hg) as (n1 & g1 & H1).
    assert (Hg1 : m_userFunctions g1 = userFunctions)
      by (apply generateExpression_extends, extends_userFunctions in H1; congruence).
    edestruct (IH params) as (n2 & g2 & H2); [|].
    2: { exists (n1 `max` n2)%nat, g2. simpl.
         rewrite (generateExpression_mono n1 (n1 `max` n2)%nat _ _ _ ltac:(lia) H1).
         eapply bind_arguments_mono; [|exact H2].
         intros. eapply generateExpression_mono; [|done]. lia. }
    exact Hg1.
Qed.

Lemma bind_arguments_userFunctions fuel f args params g g' :
  bind_arguments (generateExpression fuel) f args params g = Some g' →
  m_userFunctions g' = m_userFunctions g.
Proof.
  intros H. apply bind_arguments_extends in H as (code & pm & ->); [done|].
  apply generateExpression_extends.
Qed.

(** A call is lowered once its arguments and, for a [DEF FN], the body
    are. *)
Lemma call_terminates (name : string) (args : list Expression) (g : IRGen.t) :
  m_userFunctions g = userFunctions →
  Forall (terminates userFunctions) args →
  (∀ func, userFunctions !! name = Some func →
           terminates userFunctions (uf_body func)) →
  ∃ fuel g',
    (match m_userFunctions g !! name with
     | Some _ => generateInlinedFunction (generateExpression fuel) name args g
     | None =>
         match generate_each (generateExpression fuel) args g with
         | None => None
         | Some g1 =>
             match m_functions g !! name with
             | Some _ =>
                 Some (emit2 IROpcode.CALL_FUNCTION (OpString name) (arg_count args) g1)
             | None =>
                 Some (emit2 IROpcode.CALL_BUILTIN (OpString name) (arg_count args) g1)
             end
         end
     end) = Some g'.
Proof.
  intros Hg Hargs Hbody. rewrite Hg.
  destruct (userFunctions !! name) as [func|] eqn:Hf.
  - unfold generateInlinedFunction. rewrite Hg, Hf.
    destruct (bind_terminates name args Hargs (uf_parameters func) g Hg)
      as (n1 & g1 & H1).
    assert (Hg1 : m_userFunctions (set_inFunctionInlining true g1) = userFunctions).
    { apply bind_arguments_userFunctions in H1. simpl. congruence. }
    destruct (Hbody func eq_refl _ Hg1) as (n2 & g2 & H2).
    exists (n1 `max` n2)%nat. eexists.
    erewrite bind_arguments_mono; [| |exact H1];
      [|intros; eapply generateExpression_mono; [|done]; lia].
    rewrite (generateExpression_mono n2 (n1 `max` n2)%nat _ _ _ ltac:(lia) H2).
    reflexivity.
  - destruct (each_terminates args Hargs g Hg) as (n1 & g1 & H1).
    exists n1. rewrite H1. destruct (m_functions g !! name); eauto.
Qed.

(** An expression is lowered once the bodies of the [DEF FN] functions it
    names are. *)
Lemma expression_terminates (e : Expression) :
  (∀ f func, f ∈ calls e → userFunctions !! f = Some func →
             terminates userFunctions (uf_body func)) →
  terminates userFunctions e.
Proof.
  induction e as [value|value|name loc|name indices loc IH|name arguments isFN loc IH
                 |name arguments returnType loc IH|lhs op rhs IHl IHr|op e IH
                 |c t f IHc IHt IHf] using Expression_strong_ind;
    intros Hcalls g Hg.
  - exists 1%nat. simpl. destruct (_ && _); eauto.
  - exists 1%nat. simpl. eauto.
  - exists 1%nat. simpl. destruct (constants (m_symbols g) !! name); eauto.
    destruct (if m_inFunctionInlining g then _ else _); eauto.
  - assert (Hargs : Forall (terminates userFunctions) indices).
    { rewrite Forall_forall in IH |- *. intros x Hx. apply IH; [done|].
      intros f func Hf. apply Hcalls. simpl. right.
      apply list_elem_of_In, in_flat_map. exists x.
      split; by apply list_elem_of_In. }
    destruct (arrays (m_symbols g) !! name) eqn:Harr.
    + destruct (each_terminates indices Hargs g Hg) as (n & g1 & H1).
      exists (S n). simpl. rewrite Harr, H1. eauto.
    + destruct (call_terminates name indices g Hg Hargs) as (n & g' & H).
      { intros func. apply Hcalls. simpl. left. }
      exists (S n), g'. simpl. rewrite Harr. exact H.
  - assert (Hargs : Forall (terminates userFunctions) arguments).
    { rewrite Forall_forall in IH |- *. intros x Hx. apply IH; [done|].
      intros f func Hf. apply Hcalls. simpl. right.
      apply list_elem_of_In, in_flat_map. exists x.
      split; by apply list_elem_of_In. }
    destruct (call_terminates name arguments g Hg Hargs) as (n & g' & H).
    { intros func. apply Hcalls. simpl. left. }
    exists (S n), g'. exact H.
  - assert (Hargs : Forall (terminates userFunctions) arguments).
    { rewrite Forall_forall in IH |- *. intros x Hx. apply IH; [done|].
      intros f func Hf. apply Hcalls. simpl.
      apply list_elem_of_In, in_flat_map. exists x.
      split; by apply list_elem_of_In. }
    destruct (each_terminates arguments Hargs g Hg) as (n & g1 & H1).
    exists (S n). simpl. rewrite H1. eauto.
  - destruct (IHl ltac:(intros f func Hf; apply Hcalls; simpl; set_solver) g Hg)
      as (n1 & g1 & H1).
    assert (Hg1 : m_userFunctions g1 = userFunctions)
      by (apply generateExpression_extends, extends_userFunctions in H1; congruence).
    destruct (IHr ltac:(intros f func Hf; apply Hcalls; simpl; set_solver) g1 Hg1)
      as (n2 & g2 & H2).
    exists (S (n1 `max` n2)). simpl.
    rewrite (generateExpression_mono n1 (n1 `max` n2)%nat _ _ _ ltac:(lia) H1).
    rewrite (generateExpression_mono n2 (n1 `max` n2)%nat _ _ _ ltac:(lia) H2).
    destruct op; eauto.
  - destruct (IH Hcalls g Hg) as (n1 & g1 & H1).
    exists (S n1). simpl. rewrite H1. destruct op; eauto.
  - destruct (IHc ltac:(intros x func Hx; apply Hcalls; simpl; set_solver) g Hg)
      as (n1 & g1 & H1).
    assert (Hg1 : m_userFunctions g1 = userFunctions)
      by (apply generateExpression_extends, extends_userFunctions in H1; congruence).
    destruct (IHt ltac:(intros x func Hx; apply Hcalls; simpl; set_solver) g1 Hg1)
      as (n2 & g2 & H2).
    assert (Hg2 : m_userFunctions g2 = userFunctions)
      by (apply generateExpression_extends, extends_userFunctions in H2; congruence).
    destruct (IHf ltac:(intros x func Hx; apply Hcalls; simpl; set_solver) g2 Hg2)
      as (n3 & g3 & H3).
    exists (S (Nat.max (Nat.max n1 n2) n3)). simpl.
    rewrite (generateExpression_mono n1 (Nat.max (Nat.max n1 n2) n3) _ _ _ ltac:(lia) H1).
    rewrite (generateExpression_mono n2 (Nat.max (Nat.max n1 n2) n3) _ _ _ ltac:(lia) H2).
    rewrite (generateExpression_mono n3 (Nat.max (Nat.max n1 n2) n3) _ _ _ ltac:(lia) H3).
    eauto.
Qed.

Variable rank : string → nat.
Hypothesis Hranked : ranked userFunctions rank.

Lemma bodies_terminate (k : nat) :
  ∀ f func, userFunctions !! f = Some func → (rank f < k)%nat →
            terminates userFunctions (uf_body func).
Proof.
  induction k as [|k IH]; intros f func Hf Hk; [lia|].
  apply expression_terminates. intros callee func' Hin Hcallee.
  apply (IH callee func' Hcallee).
  pose proof (Hranked f func callee Hf Hin (mk_is_Some _ _ Hcallee)). lia.
Qed.

End Terminates.

(** C5 (amended).  Inline expansion returns for every expression when the
    [DEF FN] functions that the generator holds call each other without a
    cycle, that is, when some rank decreases along every call from a body
    to a [DEF FN] function.  (Pass 1 does not look into bodies, so a body
    that names its own function is not rejected; its expansion does not
    return.) *)
Theorem inline_expansion_terminates (g : IRGen.t) (rank : string → nat) (e : Expression) :
  ranked (m_userFunctions g) rank →
  ∃ fuel g', generateExpression fuel e g = Some g'.
Proof.
  intros Hranked. apply (expression_terminates (m_userFunctions g)); [|done].
  intros f func _ Hf.
  apply (bodies_terminate _ rank Hranked (S (rank f)) f func Hf). lia.
Qed.

(** The property for [DEF FN SQ(X) = X * X] and the call [FN SQ(2)]. *)
Lemma inline_expansion_terminates_witness :
  ∃ fuel g',
    generateExpression fuel (FunctionCallExpression "SQ" [NumberExpression 2] true (at_line 20))
      (generateDef "SQ" ["X"]
         (BinaryExpression (VariableExpression "X" (at_line 20)) TokenType.MULTIPLY
            (VariableExpression "X" (at_line 20))) 10 blank)
    = Some g'.
Proof.
  apply (inline_expansion_terminates _ (λ _, O)).
  intros f func callee Hf Hin _. simpl in Hf.
  destruct (decide (f = "SQ")) as [->|Hne].
  - rewrite lookup_insert_eq in Hf. injection Hf as <-. simpl in Hin.
    by apply elem_of_nil in Hin.
  - rewrite lookup_insert_ne, lookup_empty in Hf; done.
Defined.

(** A call of a function whose body calls the function itself is never
    lowered, whatever the fuel. *)
Lemma self_call_diverges (fuel : nat) :
  ∀ args location g,
    m_userFunctions g !! "F"
    = Some {| uf_name := "F"; uf_parameters := ["X"]; uf_body := self_call |} →
    generateExpression fuel (FunctionCallExpression "F" args true location) g = None.
Proof.
  induction fuel as [|fuel IH]; intros args location g Hf; [done|].
  simpl. rewrite Hf. unfold generateInlinedFunction. rewrite Hf. simpl.
  destruct (bind_arguments _ "F" args ["X"] g) as [g1|] eqn:Hb; [|done].
  unfold self_call in IH |- *. rewrite IH; [done|].
  apply bind_arguments_userFunctions in Hb. simpl. by rewrite Hb.
Qed.

End InlineExpansion.

(** ** The analyzer: diagnostics only accumulate *)

Section AnalyzerInvariants.
Import Semantic SemanticSpec.

Lemma grows_refl s : grows s s.
Proof. exists []. split; [by rewrite app_nil_r | constructor]. Qed.

Lemma grows_same s s' : m_errors s' = m_errors s → grows s s'.
Proof. intros H. exists []. split; [by rewrite app_nil_r | constructor]. Qed.

Lemma grows_trans s1 s2 s3 : grows s1 s2 → grows s2 s3 → grows s1 s3.
Proof.
  intros (a & Ha & Pa) (b & Hb & Pb). exists (a ++ b). split.
  - by rewrite Hb, Ha, app_assoc.
  - by apply Forall_app.
Qed.

Lemma keeps_refl s : keeps s s.
Proof. split; [apply grows_refl | done]. Qed.

Lemma keeps_grows s s' : keeps s s' → grows s s'.
Proof. by intros [H _]. Qed.

Lemma keeps_label_ids s s' :
  keeps s s' → label_ids_from_10000 s → label_ids_from_10000 s'.
Proof. by intros (_ & _ & H). Qed.

Lemma keeps_trans s1 s2 s3 : keeps s1 s2 → keeps s2 s3 → keeps s1 s3.
Proof.
  intros (G1 & L1 & I1) (G2 & L2 & I2). split; [by eapply grows_trans|].
  split; [unfold same_lines in *; congruence | auto].
Qed.

Lemma keeps_error type loc s :
  type ≠ SemanticErrorType.DO_WITHOUT_LOOP → keeps s (error type loc s).
Proof.
  intros Hty. split; [|done]. eexists. split; [reflexivity|].
  constructor; [exact Hty | constructor].
Qed.

Lemma keeps_warning w s : keeps s (warning w s).
Proof. split; [by apply grows_same | done]. Qed.

(** A state that differs in neither the diagnostics, nor the lines, nor
    the labels. *)
Lemma keeps_same s s' :
  m_errors s' = m_errors s →
  lineNumbers (m_symbolTable s') = lineNumbers (m_symbolTable s) →
  labels (m_symbolTable s') = labels (m_symbolTable s) →
  nextLabelId (m_symbolTable s') = nextLabelId (m_symbolTable s) →
  keeps s s'.
Proof.
  intros He Hl Hlab Hnext. split; [by apply grows_same|].
  split; [unfold same_lines; by rewrite Hl|].
  unfold label_ids_from_10000. by rewrite Hlab, Hnext.
Qed.

Lemma keeps_reference_line n loc s : keeps s (reference_line n loc s).
Proof.
  split; [by apply grows_same|]. split; [|done].
  unfold same_lines. simpl. apply dom_alter_L.
Qed.

Lemma keeps_reference_label name loc s : keeps s (reference_label name loc s).
Proof.
  split; [by apply grows_same|]. split; [done|].
  intros [Hnext Hids]. split; [done|]. simpl. intros n sym Hn.
  rewrite lookup_alter in Hn. case_decide as Heq.
  - destruct (labels (m_symbolTable s) !! name) as [sym0|] eqn:H0; [|done].
    simpl in Hn. injection Hn as <-. simpl. subst. by eapply Hids.
  - by eapply Hids.
Qed.

Lemma declareVariable_keeps name ty loc d s : keeps s (snd (declareVariable name ty loc d s)).
Proof.
  unfold declareVariable. destruct (variables (m_symbolTable s) !! name); simpl.
  - apply keeps_refl.
  - by apply keeps_same.
Qed.

Lemma lookupVariable_keeps name s : keeps s (snd (lookupVariable name s)).
Proof.
  unfold lookupVariable. destruct (variables (m_symbolTable s) !! name); simpl;
    [apply keeps_refl|].
  destruct (arrays (m_symbolTable s) !! name) as [arr|]; simpl; [|apply keeps_refl].
  destruct (arr_dimensions arr); simpl; [by apply keeps_same | apply keeps_refl].
Qed.

Lemma useVariable_keeps name loc s : keeps s (useVariable name loc s).
Proof.
  unfold useVariable. pose proof (lookupVariable_keeps name s) as H.
  destruct (lookupVariable name s) as [sym s1]. simpl in H.
  eapply keeps_trans; [exact H|].
  destruct sym.
  - by apply keeps_same.
  - eapply keeps_trans; [apply declareVariable_keeps|]. by apply keeps_same.
Qed.

(** Every step of pass 2 keeps what [keeps] describes. *)
Lemma closes_program_reported type :
  closes_program type = false → type ≠ SemanticErrorType.DO_WITHOUT_LOOP.
Proof. by intros H ->. Qed.

Lemma evolves_keeps loops s s' : evolves loops s s' → keeps s s'.
Proof.
  induction 1 as [loops s|loops s1 s2 s3 _ IH1 _ IH2|loops type loc s Hty|loops w s
                 |loops name s|loops name loc s|loops n loc s|loops name loc s
                 |loops n s|stack s|stack s|stack s|stack s].
  - apply keeps_refl.
  - by eapply keeps_trans.
  - by apply keeps_error, closes_program_reported.
  - apply keeps_warning.
  - apply lookupVariable_keeps.
  - apply useVariable_keeps.
  - apply keeps_reference_line.
  - apply keeps_reference_label.
  - by apply keeps_same.
  - by apply keeps_same.
  - by apply keeps_same.
  - by apply keeps_same.
  - by apply keeps_same.
Qed.

(** Peel the outermost stack update or diagnostic off the final state. *)
Ltac peel :=
  lazymatch goal with
  | |- evolves _ ?s (set_forStack _ ?s') =>
      apply (evolves_trans _ s s'); [|apply evolves_forStack]
  | |- evolves _ ?s (set_whileStack _ ?s') =>
      apply (evolves_trans _ s s'); [|apply evolves_whileStack]
  | |- evolves _ ?s (set_repeatStack _ ?s') =>
      apply (evolves_trans _ s s'); [|apply evolves_repeatStack]
  | |- evolves _ ?s (set_doStack _ ?s') =>
      apply (evolves_trans _ s s'); [|apply evolves_doStack]
  | |- evolves _ ?s (error _ _ ?s') =>
      apply (evolves_trans _ s s'); [|by apply evolves_error]
  end.

(** *** Expressions: no loop stack is touched *)

Section Expressions.
Variable loops : bool.

Lemma useArray_evolves name n loc s : evolves loops s (useArray name n loc s).
Proof.
  unfold useArray. destruct (functions (m_symbolTable s) !! name); [apply evolves_refl|].
  destruct (lookupArray name s).
  - destruct (negb _); [by apply evolves_error | apply evolves_refl].
  - destruct (m_requireExplicitDim s); [by apply evolves_error | apply evolves_refl].
Qed.

Lemma checkTypeCompatibility_evolves a b loc s : evolves loops s (checkTypeCompatibility a b loc s).
Proof.
  unfold checkTypeCompatibility.
  destruct a, b; try apply evolves_refl;
    (destruct (negb _); [by apply evolves_error | apply evolves_refl]).
Qed.

Section Each.
Variable infer : Expression → Semantic.t → VariableType.t * Semantic.t.

Lemma validate_each_evolves es :
  Forall (λ e, ∀ s, evolves loops s (snd (infer e s))) es →
  ∀ s, evolves loops s (validate_each infer es s).
Proof.
  induction 1 as [|e es He _ IH]; intros s; simpl; [apply evolves_refl|].
  eapply evolves_trans; [apply He | apply IH].
Qed.

Lemma validate_indices_evolves loc es :
  Forall (λ e, ∀ s, evolves loops s (snd (infer e s))) es →
  ∀ s, evolves loops s (validate_indices infer loc es s).
Proof.
  induction 1 as [|e es He _ IH]; intros s; simpl; [apply evolves_refl|].
  pose proof (He (snd (infer e s))) as H2.
  destruct (infer e (snd (infer e s))) as [ty s2]. simpl in H2.
  eapply evolves_trans; [|apply IH].
  eapply evolves_trans; [apply He|]. eapply evolves_trans; [exact H2|].
  destruct (isNumericType ty); [apply evolves_refl | by apply evolves_error].
Qed.
End Each.

Lemma inferExpressionType_evolves e : ∀ s, evolves loops s (snd (inferExpressionType e s)).
Proof.
  induction e as [value|value|name loc|name indices loc IH|name arguments isFN loc IH
                 |name arguments returnType loc IH|lhs op rhs IHl IHr|op e IH
                 |c t f IHc IHt IHf] using IRSpec.Expression_strong_ind;
    intros s; simpl.
  - apply evolves_refl.
  - apply evolves_refl.
  - pose proof (evolves_lookupVariable loops name (useVariable name loc s)) as H.
    destruct (lookupVariable name (useVariable name loc s)) as [sym s2]. simpl in *.
    eapply evolves_trans; [apply evolves_useVariable | exact H].
  - destruct (functions (m_symbolTable s) !! name); simpl.
    { by apply validate_each_evolves. }
    destruct (lookupArray name s); simpl.
    { eapply evolves_trans; [apply useArray_evolves | by apply validate_indices_evolves]. }
    destruct (isBuiltinFunction name s); simpl.
    + eapply evolves_trans; [|by apply validate_each_evolves].
      destruct (_ && _); [by apply evolves_error | apply evolves_refl].
    + eapply evolves_trans; [apply useArray_evolves | by apply validate_indices_evolves].
  - pose proof (validate_each_evolves _ _ IH s) as H.
    destruct isFN; simpl; [|exact H].
    destruct (lookupFunction name _); simpl; [exact H|].
    eapply evolves_trans; [exact H | by apply evolves_error].
  - pose proof (validate_each_evolves _ _ IH s) as H.
    destruct returnType; simpl; try exact H.
    eapply evolves_trans; [exact H | by apply evolves_error].
  - pose proof (IHl s) as H1. destruct (inferExpressionType lhs s) as [lt s1].
    pose proof (IHr s1) as H2. destruct (inferExpressionType rhs s1) as [rt s2].
    simpl in *. by eapply evolves_trans.
  - pose proof (IH s) as H1. destruct (inferExpressionType e s) as [ty s1]. exact H1.
  - apply evolves_refl.
Qed.

Lemma validateExpression_evolves e s : evolves loops s (validateExpression e s).
Proof. apply inferExpressionType_evolves. Qed.

Lemma all_expressions_evolve es :
  Forall (λ e, ∀ s, evolves loops s (snd (inferExpressionType e s))) es.
Proof. apply Forall_forall. intros e _. apply inferExpressionType_evolves. Qed.

Lemma validateJump_evolves isLabel label target loc s :
  evolves loops s (validateJump isLabel label target loc s).
Proof.
  unfold validateJump. destruct isLabel.
  - destruct (lookupLabel label s); [apply evolves_reference_label | by apply evolves_error].
  - destruct (lookupLine target s); [apply evolves_reference_line | by apply evolves_error].
Qed.

Lemma validateLetStatement_evolves loc variable indices value s :
  evolves loops s (validateLetStatement loc variable indices value s).
Proof.
  unfold validateLetStatement.
  pose proof (validate_indices_evolves _ loc indices (all_expressions_evolve indices) s) as H1.
  set (s1 := validate_indices inferExpressionType loc indices s) in *. clearbody s1.
  remember (match indices with [] => false | _ :: _ => true end) as isArray eqn:Hi.
  clear Hi. destruct isArray.
  - set (s3 := validateExpression value _).
    assert (H3 : evolves loops s s3).
    { eapply evolves_trans; [exact H1|].
      eapply evolves_trans; [apply useArray_evolves | apply validateExpression_evolves]. }
    clearbody s3.
    pose proof (inferExpressionType_evolves value s3) as H5.
    destruct (inferExpressionType value s3) as [vt s5]. simpl in H5.
    eapply evolves_trans; [exact H3|]. eapply evolves_trans; [exact H5|].
    apply checkTypeCompatibility_evolves.
  - set (s3 := validateExpression value _).
    assert (H3 : evolves loops s s3).
    { eapply evolves_trans; [exact H1|].
      eapply evolves_trans; [apply evolves_useVariable | apply validateExpression_evolves]. }
    clearbody s3.
    pose proof (evolves_lookupVariable loops variable s3) as H4.
    destruct (lookupVariable variable s3) as [sym s4]. simpl in H4.
    pose proof (inferExpressionType_evolves value s4) as H5.
    destruct (inferExpressionType value s4) as [vt s5]. simpl in H5.
    eapply evolves_trans; [exact H3|]. eapply evolves_trans; [exact H4|].
    eapply evolves_trans; [exact H5|]. apply checkTypeCompatibility_evolves.
Qed.

End Expressions.

(** *** Statements *)

Lemma validateForStatement_evolves loc variable start end_ step s :
  evolves true s (validateForStatement loc variable start end_ step s).
Proof.
  unfold validateForStatement.
  set (s1 := useVariable variable loc s).
  set (s2 := validateExpression start s1).
  set (s3 := validateExpression end_ s2).
  set (s4 := match step with Some e => validateExpression e s3 | None => s3 end).
  assert (H4 : evolves true s s4).
  { eapply evolves_trans; [apply evolves_useVariable|].
    eapply evolves_trans; [apply (validateExpression_evolves _ start)|].
    eapply evolves_trans; [apply (validateExpression_evolves _ end_)|].
    subst s4. destruct step; [apply validateExpression_evolves | apply evolves_refl]. }
  clearbody s4.
  pose proof (inferExpressionType_evolves true start s4) as H5.
  destruct (inferExpressionType start s4) as [st s5]. simpl in H5.
  pose proof (inferExpressionType_evolves true end_ s5) as H6.
  destruct (inferExpressionType end_ s5) as [et s6]. simpl in H6.
  eapply evolves_trans; [exact H4|]. eapply evolves_trans; [exact H5|].
  eapply evolves_trans; [exact H6|].
  destruct (_ || _); repeat peel; apply evolves_refl.
Qed.

Lemma validateNextStatement_evolves loc variable s :
  evolves true s (validateNextStatement loc variable s).
Proof.
  unfold validateNextStatement. destruct (m_forStack s); [by apply evolves_error|].
  destruct (_ && _); repeat peel; apply evolves_refl.
Qed.

Lemma validateWhileStatement_evolves loc condition s :
  evolves true s (validateWhileStatement loc condition s).
Proof.
  unfold validateWhileStatement.
  eapply evolves_trans; [apply validateExpression_evolves | by constructor].
Qed.

Lemma validateWendStatement_evolves loc s : evolves true s (validateWendStatement loc s).
Proof.
  unfold validateWendStatement.
  destruct (m_whileStack s); [by apply evolves_error | by constructor].
Qed.

Lemma validateRepeatStatement_evolves loc s : evolves true s (validateRepeatStatement loc s).
Proof. by constructor. Qed.

Lemma validateUntilStatement_evolves loc condition s :
  evolves true s (validateUntilStatement loc condition s).
Proof.
  unfold validateUntilStatement.
  eapply evolves_trans; [|apply validateExpression_evolves].
  destruct (m_repeatStack s); [by apply evolves_error | by constructor].
Qed.

Lemma validateDoStatement_evolves loc condition s :
  evolves true s (validateDoStatement loc condition s).
Proof.
  unfold validateDoStatement. peel.
  destruct condition; [apply validateExpression_evolves | apply evolves_refl].
Qed.

Lemma validateLoopStatement_evolves loc condition s :
  evolves true s (validateLoopStatement loc condition s).
Proof.
  unfold validateLoopStatement.
  assert (H : evolves true s (match m_doStack s with
                       | [] => error SemanticErrorType.LOOP_WITHOUT_DO loc s
                       | _ :: rest => set_doStack rest s
                       end))
    by (destruct (m_doStack s); peel; apply evolves_refl).
  destruct condition; [|exact H].
  eapply evolves_trans; [exact H | apply validateExpression_evolves].
Qed.

Lemma validate_all_evolves validate stmts :
  Forall (λ x, ∀ s, evolves true s (validate x s)) stmts →
  ∀ s, evolves true s (validate_all validate stmts s).
Proof.
  induction 1 as [|x xs Hx _ IH]; intros s; simpl; [apply evolves_refl|].
  eapply evolves_trans; [apply Hx | apply IH].
Qed.

Lemma validateStatement_evolves stmt : ∀ s, evolves true s (validateStatement stmt s).
Proof.
  induction stmt as [loc c h g thenS elseS IHt IHe|stmt Hother]
    using Statement_strong_ind; intros s.
  - simpl. eapply evolves_trans; [|by apply validate_all_evolves].
    eapply evolves_trans; [apply validateExpression_evolves|].
    destruct h; [|by apply validate_all_evolves].
    destruct (lookupLine g _); [apply evolves_reference_line | by apply evolves_error].
  - destruct stmt; simpl; try apply evolves_refl.
    + apply validate_each_evolves, all_expressions_evolve.
    + apply validateLetStatement_evolves.
    + apply validateJump_evolves.
    + apply validateJump_evolves.
    + exfalso. by eapply Hother.
    + apply validateForStatement_evolves.
    + apply validateNextStatement_evolves.
    + apply validateWhileStatement_evolves.
    + apply validateWendStatement_evolves.
    + apply validateRepeatStatement_evolves.
    + apply validateUntilStatement_evolves.
    + apply validateDoStatement_evolves.
    + apply validateLoopStatement_evolves.
Qed.

Lemma validate_statements_evolves stmts s :
  evolves true s (validate_all validateStatement stmts s).
Proof.
  apply validate_all_evolves, Forall_forall. intros x _. apply validateStatement_evolves.
Qed.

Lemma validateProgramLine_evolves s l : evolves true s (validateProgramLine s l).
Proof.
  unfold validateProgramLine.
  eapply evolves_trans; [|apply validate_statements_evolves]. by constructor.
Qed.

Lemma fold_left_evolves {A} loops (f : Semantic.t → A → Semantic.t) (xs : list A) :
  (∀ s x, evolves loops s (f s x)) → ∀ s, evolves loops s (fold_left f xs s).
Proof.
  intros Hf. induction xs as [|x xs IH]; intros s; simpl; [apply evolves_refl|].
  eapply evolves_trans; [apply Hf | apply IH].
Qed.

Lemma pass2_validate_evolves program s : evolves true s (pass2_validate program s).
Proof. apply fold_left_evolves. intros. apply validateProgramLine_evolves. Qed.

Lemma checkUnusedVariables_evolves loops s : evolves loops s (checkUnusedVariables s).
Proof.
  unfold checkUnusedVariables. apply fold_left_evolves.
  intros s' [name sym]. destruct (_ && _); [apply evolves_warning | apply evolves_refl].
Qed.

(** Pass 2 and the final checks, in terms of [keeps]. *)
Lemma validate_statements_keeps stmts s :
  keeps s (validate_all validateStatement stmts s).
Proof. apply (evolves_keeps true), validate_statements_evolves. Qed.

Lemma validateProgramLine_keeps s l : keeps s (validateProgramLine s l).
Proof. apply (evolves_keeps true), validateProgramLine_evolves. Qed.

Lemma pass2_validate_keeps program s : keeps s (pass2_validate program s).
Proof. apply (evolves_keeps true), pass2_validate_evolves. Qed.

Lemma checkUnusedVariables_keeps s : keeps s (checkUnusedVariables s).
Proof. apply (evolves_keeps true), checkUnusedVariables_evolves. Qed.

Lemma validateControlFlow_keeps s : keeps s (validateControlFlow s).
Proof.
  unfold validateControlFlow.
  destruct (m_forStack s); simpl;
    destruct (m_whileStack s); simpl;
    destruct (m_repeatStack s); simpl;
    repeat (eapply keeps_trans; [|by apply keeps_error]); apply keeps_refl.
Qed.

Lemma fold_left_keeps {A} (f : Semantic.t → A → Semantic.t) (xs : list A) :
  (∀ s x, keeps s (f s x)) → ∀ s, keeps s (fold_left f xs s).
Proof.
  intros Hf. induction xs as [|x xs IH]; intros s; simpl; [apply keeps_refl|].
  eapply keeps_trans; [apply Hf | apply IH].
Qed.

(** Pass 1 after the line numbers have been collected. *)
Lemma declareLabel_keeps name i loc s : keeps s (declareLabel name i loc s).
Proof.
  unfold declareLabel. destruct (labels (m_symbolTable s) !! name) eqn:Hname.
  - by apply keeps_error.
  - split; [by apply grows_same|]. split; [done|].
    intros [Hnext Hids]. split; simpl; [lia|]. intros n sym Hn.
    destruct (decide (name = n)) as [->|Hne].
    + rewrite lookup_insert_eq in Hn. by injection Hn as <-.
    + rewrite lookup_insert_ne in Hn by done. by eapply Hids.
Qed.

Lemma collectLabels_from_keeps program_lines : ∀ i s,
  keeps s (collectLabels_from i program_lines s).
Proof.
  induction program_lines as [|l rest IH]; intros i s; simpl; [apply keeps_refl|].
  eapply keeps_trans; [|apply IH]. apply fold_left_keeps.
  intros s' stmt. destruct stmt; simpl; try apply keeps_refl. apply declareLabel_keeps.
Qed.

Lemma processDimension_keeps loc dims : ∀ acc,
  keeps (snd acc) (snd (fold_left (processDimension loc) dims acc)).
Proof.
  induction dims as [|d dims IH]; intros [[ds total] s]; simpl; [apply keeps_refl|].
  eapply keeps_trans; [|apply IH]. destruct d; simpl; try apply keeps_warning.
  destruct (_ <=? 0); simpl; [by apply keeps_error | apply keeps_refl].
Qed.

Lemma processArrayDim_keeps loc s arrayDim : keeps s (processArrayDim loc s arrayDim).
Proof.
  unfold processArrayDim. destruct (arrays (m_symbolTable s) !! _).
  - by apply keeps_error.
  - pose proof (processDimension_keeps loc (dim_dimensions arrayDim) ([], 1, s)) as H.
    destruct (fold_left _ _ _) as [[ds total] s1]. simpl in H.
    eapply keeps_trans; [exact H | by apply keeps_same].
Qed.

Lemma processDefStatement_keeps loc f ps body s :
  keeps s (processDefStatement loc f ps body s).
Proof.
  unfold processDefStatement. destruct (functions (m_symbolTable s) !! f).
  - by apply keeps_error.
  - by apply keeps_same.
Qed.

Lemma for_each_statement_keeps f program :
  (∀ s stmt, keeps s (f s stmt)) → ∀ s, keeps s (for_each_statement f program s).
Proof.
  intros Hf s. unfold for_each_statement. apply fold_left_keeps.
  intros s' l. by apply fold_left_keeps.
Qed.

Lemma collectDimStatements_keeps program s : keeps s (collectDimStatements program s).
Proof.
  apply for_each_statement_keeps. intros s' stmt.
  destruct stmt; try apply keeps_refl.
  unfold processDimStatement. apply fold_left_keeps. intros. apply processArrayDim_keeps.
Qed.

Lemma collectDefStatements_keeps program s : keeps s (collectDefStatements program s).
Proof.
  apply for_each_statement_keeps. intros s' stmt.
  destruct stmt; try apply keeps_refl. apply processDefStatement_keeps.
Qed.

(** Collecting the line numbers adds diagnostics too, and records only
    numbers of program lines. *)
Lemma collectLineNumbers_from_grows program_lines : ∀ i s,
  grows s (collectLineNumbers_from i program_lines s).
Proof.
  induction program_lines as [|l rest IH]; intros i s; simpl; [apply grows_refl|].
  eapply grows_trans; [|apply IH].
  destruct (lineNumber l >? 0); [|apply grows_refl].
  destruct (lineNumbers (m_symbolTable s) !! lineNumber l).
  - by apply keeps_grows, keeps_error.
  - by apply grows_same.
Qed.

Lemma collectLineNumbers_from_labels program_lines : ∀ i s,
  label_ids_from_10000 s →
  label_ids_from_10000 (collectLineNumbers_from i program_lines s).
Proof.
  induction program_lines as [|l rest IH]; intros i s Hs; simpl; [done|].
  apply IH. destruct (lineNumber l >? 0); [|done].
  by destruct (lineNumbers (m_symbolTable s) !! lineNumber l).
Qed.

Lemma collectLineNumbers_from_lookup program_lines n : ∀ i s,
  (∀ l, l ∈ program_lines → lineNumber l ≠ n) →
  lineNumbers (m_symbolTable (collectLineNumbers_from i program_lines s)) !! n
  = lineNumbers (m_symbolTable s) !! n.
Proof.
  induction program_lines as [|l rest IH]; intros i s Hn; simpl; [done|].
  rewrite IH by (intros l' Hl'; apply Hn; by right).
  destruct (lineNumber l >? 0); [|done].
  destruct (lineNumbers (m_symbolTable s) !! lineNumber l); [done|].
  simpl. apply lookup_insert_ne. apply Hn. by left.
Qed.

End AnalyzerInvariants.

(** ** GOTO to a line that does not exist *)

Section GotoProperties.
Import Semantic SemanticSpec IRSpec.

Lemma keeps_lookup_line s s' n :
  keeps s s' →
  lineNumbers (m_symbolTable s) !! n = None →
  lineNumbers (m_symbolTable s') !! n = None.
Proof.
  intros (_ & Hdom & _) Hn. apply not_elem_of_dom. rewrite Hdom. by apply not_elem_of_dom.
Qed.

Lemma grows_elem s s' e : grows s s' → e ∈ m_errors s → e ∈ m_errors s'.
Proof. intros (added & -> & _) He. apply elem_of_app. by left. Qed.

Lemma validate_all_app validate xs ys s :
  validate_all validate (xs ++ ys) s
  = validate_all validate ys (validate_all validate xs s).
Proof. revert s. induction xs as [|x xs IH]; intros s; simpl; [done | apply IH]. Qed.

(** Pass 2 reports a top-level GOTO whose target is not recorded. *)
Lemma pass2_reports_goto program l loc label target s :
  l ∈ lines program →
  GotoStatement loc false label target ∈ statements l →
  lineNumbers (m_symbolTable s) !! target = None →
  {| err_type := SemanticErrorType.UNDEFINED_LINE; err_location := loc |}
    ∈ m_errors (pass2_validate program s).
Proof.
  intros Hl Hgoto Hnone. unfold pass2_validate.
  apply list_elem_of_split in Hl as (before & after & ->).
  rewrite fold_left_app. simpl.
  set (s1 := fold_left validateProgramLine before s).
  assert (H1 : keeps s s1) by (apply fold_left_keeps; intros; apply validateProgramLine_keeps).
  eapply grows_elem.
  { apply (fold_left_keeps validateProgramLine after).
    intros. apply validateProgramLine_keeps. }
  unfold validateProgramLine.
  apply list_elem_of_split in Hgoto as (st1 & st2 & ->).
  rewrite validate_all_app. simpl.
  set (s2 := validate_all validateStatement st1 _).
  assert (H2 : keeps s s2).
  { eapply keeps_trans; [exact H1|]. subst s2.
    eapply keeps_trans; [|apply validate_statements_keeps]. by apply keeps_same. }
  eapply grows_elem; [apply validate_statements_keeps|].
  unfold validateGotoStatement, validateJump, lookupLine.
  rewrite (keeps_lookup_line _ _ _ H2 Hnone).
  simpl. apply elem_of_app. right. by apply list_elem_of_singleton.
Qed.

(** The choice of the block for a line or the next one. *)
Lemma better_block_chosen n bs : ∀ seen best,
  chosen n seen best →
  chosen n (seen ++ bs) (fold_left (better_block n) bs best).
Proof.
  induction bs as [|b bs IH]; intros seen best Hbest; simpl.
  - by rewrite app_nil_r.
  - replace (seen ++ b :: bs) with ((seen ++ [b]) ++ bs) by (by rewrite <- app_assoc).
    apply IH. unfold better_block.
    destruct (block_firstLineNumber b <? n) eqn:Hlt.
    + apply Z.ltb_lt in Hlt. destruct best as [b0|]; simpl in *.
      * destruct Hbest as (Hin & Hge & Hmin). split; [set_solver|]. split; [done|].
        intros b' Hb' Hn. apply elem_of_app in Hb' as [Hb'|Hb']; [by apply Hmin|].
        apply list_elem_of_singleton in Hb' as ->. lia.
      * intros b' Hb'. apply elem_of_app in Hb' as [Hb'|Hb']; [by apply Hbest|].
        apply list_elem_of_singleton in Hb' as ->. lia.
    + apply Z.ltb_ge in Hlt. destruct best as [b0|]; simpl in *.
      * destruct Hbest as (Hin & Hge & Hmin).
        destruct (block_firstLineNumber b <? block_firstLineNumber b0) eqn:Hlt2; simpl.
        -- apply Z.ltb_lt in Hlt2. split; [set_solver|]. split; [done|].
           intros b' Hb' Hn. apply elem_of_app in Hb' as [Hb'|Hb'].
           ++ specialize (Hmin b' Hb' Hn). lia.
           ++ apply list_elem_of_singleton in Hb' as ->. lia.
        -- apply Z.ltb_ge in Hlt2. split; [set_solver|]. split; [done|].
           intros b' Hb' Hn. apply elem_of_app in Hb' as [Hb'|Hb']; [by apply Hmin|].
           apply list_elem_of_singleton in Hb' as ->. lia.
      * split; [set_solver|]. split; [done|].
        intros b' Hb' Hn. apply elem_of_app in Hb' as [Hb'|Hb'].
        -- specialize (Hbest b' Hb'). lia.
        -- apply list_elem_of_singleton in Hb' as ->. lia.
Qed.

Lemma blockForLineOrNext_chosen cfg n :
  chosen n (blocks cfg) (blockForLineOrNext cfg n).
Proof.
  unfold blockForLineOrNext.
  apply (better_block_chosen n (blocks cfg) [] None).
  intros b Hb. by apply elem_of_nil in Hb.
Qed.

(** C1 (amended).  For every program and every GOTO statement of a
    program line whose target is not the number of a program line, the
    analysis fails and reports UNDEFINED_LINE at the GOTO, whether or not
    a line with a greater number exists.  The generator, for its part,
    lowers a GOTO to one JUMP to the label of the block that has the
    smallest first line number not below the target, when the graph has
    such a block. *)
Theorem goto_missing_line :
  (∀ (program : Program) (options : CompilerOptions) (s : Semantic.t)
     (l : ProgramLine) (loc : SourceLocation) (label : string) (target : Z),
     l ∈ lines program →
     GotoStatement loc false label target ∈ statements l →
     (∀ l', l' ∈ lines program → lineNumber l' ≠ target) →
     fst (analyze program options s) = false
     ∧ {| err_type := SemanticErrorType.UNDEFINED_LINE; err_location := loc |}
         ∈ m_errors (snd (analyze program options s)))
  ∧ (∀ (g : IRGen.t) (label : string) (target lineNumber : Z) (b : BasicBlock),
       blockForLineOrNext (IRGen.m_cfg g) target = Some b →
       0 <= block_id b →
       let g0 := IRGen.setSourceContext lineNumber (IRGen.m_currentBlockId g) g in
       (b ∈ blocks (IRGen.m_cfg g)
        ∧ target <= block_firstLineNumber b
        ∧ ∀ b', b' ∈ blocks (IRGen.m_cfg g) → target <= block_firstLineNumber b' →
                block_firstLineNumber b <= block_firstLineNumber b')
       ∧ ∃ isLoop,
           IRGen.instructions (IRGen.generateGoto false label target lineNumber g)
           = IRGen.instructions g
             ++ [IRGen.instruction IROpcode.JUMP
                   (Some (OpInt (fst (IRGen.getLabelForBlock (block_id b) g0))))
                   None "" isLoop g0]).
Proof.
  split.
  - intros program options s l loc label target Hl Hgoto Hmissing.
    assert (Hin : {| err_type := SemanticErrorType.UNDEFINED_LINE; err_location := loc |}
                    ∈ m_errors (snd (analyze program options s))).
    { unfold analyze. simpl.
      set (s0 := set_repeatStack [] _).
      set (s2 := pass2_validate program _).
      assert (Herr : {| err_type := SemanticErrorType.UNDEFINED_LINE;
                        err_location := loc |} ∈ m_errors s2).
      { subst s2. eapply pass2_reports_goto; [exact Hl | exact Hgoto |].
        unfold pass1_collectDeclarations.
        eapply keeps_lookup_line.
        { eapply keeps_trans; [|apply collectDefStatements_keeps].
          eapply keeps_trans; [|apply collectDimStatements_keeps].
          apply collectLabels_from_keeps. }
        unfold collectLineNumbers.
        rewrite collectLineNumbers_from_lookup by exact Hmissing.
        subst s0. simpl. apply lookup_empty. }
      clearbody s2.
      assert (H3 : grows s2 (validateControlFlow s2)) by apply validateControlFlow_keeps.
      destruct (m_warnUnused (validateControlFlow s2)).
      - eapply grows_elem; [apply checkUnusedVariables_keeps|]. by eapply grows_elem.
      - by eapply grows_elem. }
    split; [|exact Hin].
    unfold analyze in *. simpl in *.
    destruct (m_errors _); [by apply elem_of_nil in Hin | done].
  - intros g label target lineNumber b Hb Hid g0.
    pose proof (blockForLineOrNext_chosen (IRGen.m_cfg g) target) as Hchosen.
    rewrite Hb in Hchosen. split; [exact Hchosen|].
    unfold IRGen.generateGoto, IRGen.getLabelForLineNumber, getBlockForLineOrNext.
    fold g0. simpl. rewrite Hb.
    replace (block_id b >=? 0) with true by (symmetry; apply Z.geb_le; lia).
    unfold IRGen.getLabelForBlock. simpl.
    destruct (IRGen.m_blockLabels g !! block_id b); simpl; eexists; reflexivity.
Qed.

(** The property on [10 GOTO 50 / 20 PRINT "x" / 30 END / 100 PRINT "y"]
    and on a graph with one block per line. *)
Lemma goto_missing_line_witness :
  fst (analyze goto_into_gap default_options fresh) = false
  ∧ ∃ isLoop,
      IRGen.instructions
        (IRGen.generateGoto false "" 50 10
           (IRGen.start
              {| blocks := [ {| block_id := 0; block_firstLineNumber := 10 |};
                             {| block_id := 1; block_firstLineNumber := 20 |};
                             {| block_id := 2; block_firstLineNumber := 100 |} ];
                 isBackEdge := λ _ _, false |}
              SymbolTable_new ∅))
      = [ {| opcode := IROpcode.JUMP; operand1 := Some (OpInt 1); operand2 := None;
             sourceLineNumber := 10; blockId := -1;
             arrayElementTypeSuffix := ""; isLoopJump := isLoop |} ].
Proof.
  destruct goto_missing_line as [Hanalyze Hgen]. split.
  - refine (proj1 (Hanalyze goto_into_gap default_options fresh
                     (program_line 10 [GotoStatement (at_line 10) false "" 50])
                     (at_line 10) "" 50 _ _ _)).
    + vm_compute. by left.
    + vm_compute. by left.
    + intros l' Hl'. vm_compute in Hl'.
      repeat (apply elem_of_cons in Hl' as [->|Hl']; [vm_compute; discriminate|]).
      by apply elem_of_nil in Hl'.
  - edestruct (Hgen (IRGen.start
                       {| blocks := [ {| block_id := 0; block_firstLineNumber := 10 |};
                                      {| block_id := 1; block_firstLineNumber := 20 |};
                                      {| block_id := 2; block_firstLineNumber := 100 |} ];
                          isBackEdge := λ _ _, false |} SymbolTable_new ∅)
                 "" 50 10 {| block_id := 2; block_firstLineNumber := 100 |})
      as [_ [isLoop H]].
    + reflexivity.
    + simpl. lia.
    + exists isLoop. exact H.
Defined.

(** C1 as stated fails on the specification's own scenario: line 100 is
    greater than the target 50, yet the analysis fails with one
    UNDEFINED_LINE diagnostic. *)
Lemma goto_into_gap_counterexample :
  (∃ l, l ∈ lines goto_into_gap ∧ 50 < lineNumber l)
  ∧ fst (analyze goto_into_gap default_options fresh) = false
  ∧ m_errors (snd (analyze goto_into_gap default_options fresh))
    = [{| err_type := SemanticErrorType.UNDEFINED_LINE; err_location := at_line 10 |}].
Proof.
  split.
  - exists (program_line 100 [PrintStatement (at_line 100) [StringExpression "y"]]).
    split; [|vm_compute; reflexivity]. unfold goto_into_gap. simpl. set_solver.
  - split; vm_compute; reflexivity.
Qed.

End GotoProperties.

(** ** DIM *)

Section DimProperties.
Import Semantic SemanticSpec.

Lemma double_to_int_inject n : Cpp.double_to_int (inject_Z n) = n.
Proof. unfold Cpp.double_to_int, inject_Z. simpl. apply Z.quot_1_r. Qed.

Lemma processDimension_fold loc dims : ∀ ds total s,
  Forall dimension_fits dims →
  let r := fold_left (processDimension loc) dims (ds, total, s) in
  fst (fst r) = ds ++ map slots_of dims
  ∧ m_errors (snd r) = m_errors s ++ flat_map (dimension_errors loc) dims
  ∧ m_warnings (snd r) = m_warnings s ++ flat_map (dimension_warnings loc) dims.
Proof.
  induction dims as [|d dims IH]; intros ds total s Hfit; simpl.
  - by rewrite !app_nil_r.
  - apply Forall_cons in Hfit as [Hd Hfit].
    destruct d; simpl;
      try (destruct (IH (ds ++ [11]) (Cpp.to_int (total * 11))
                       (warning (NonConstantDimension loc) s) Hfit) as (H1 & H2 & H3);
           rewrite H1, H2, H3; simpl; by rewrite <- !app_assoc).
    simpl in Hd. destruct (Cpp.double_to_int value <=? 0) eqn:Hle; simpl.
    + destruct (IH (ds ++ [2]) (Cpp.to_int (total * 2))
                  (error SemanticErrorType.INVALID_ARRAY_INDEX loc s) Hfit)
        as (H1 & H2 & H3).
      change (Cpp.to_int (1 + 1)) with 2.
      rewrite H1, H2, H3. simpl. by rewrite <- !app_assoc.
    + apply Z.leb_gt in Hle.
      rewrite (to_int_id (Cpp.double_to_int value + 1))
        by (unfold Cpp.INT_MIN, Cpp.INT_MAX in *; lia).
      destruct (IH (ds ++ [Cpp.double_to_int value + 1])
                  (Cpp.to_int (total * (Cpp.double_to_int value + 1))) s Hfit)
        as (H1 & H2 & H3).
      rewrite H1, H2, H3. simpl. by rewrite <- !app_assoc.
Qed.

(** C2 (amended).  For a DIM of an array that is not declared yet, pass 1
    records, for each dimension expression in order: [n + 1] slots for a
    literal [n >= 1], without any diagnostic; 2 slots for a literal below
    1, with an INVALID_ARRAY_INDEX error; 11 slots for an expression that
    is not a literal, with a warning and no error.  (Literals are taken
    below INT_MAX, so that [n + 1] is an [int].) *)
Theorem dim_slots (loc : SourceLocation) (arrayDim : ArrayDim) (s : Semantic.t) :
  arrays (m_symbolTable s) !! dim_name arrayDim = None →
  Forall dimension_fits (dim_dimensions arrayDim) →
  let s' := processDimStatement loc [arrayDim] s in
  (∃ sym, arrays (m_symbolTable s') !! dim_name arrayDim = Some sym
          ∧ arr_dimensions sym = map slots_of (dim_dimensions arrayDim))
  ∧ m_errors s' = m_errors s ++ flat_map (dimension_errors loc) (dim_dimensions arrayDim)
  ∧ m_warnings s'
    = m_warnings s ++ flat_map (dimension_warnings loc) (dim_dimensions arrayDim)
  ∧ (∀ n, 1 <= n → slots_of (number n) = n + 1
                   ∧ dimension_errors loc (number n) = []
                   ∧ dimension_warnings loc (number n) = [])
  ∧ (∀ n, n <= 0 → slots_of (number n) = 2
                   ∧ dimension_errors loc (number n)
                     = [{| err_type := SemanticErrorType.INVALID_ARRAY_INDEX;
                           err_location := loc |}]).
Proof.
  intros Hfresh Hfit s'. subst s'. unfold processDimStatement. simpl.
  unfold processArrayDim. rewrite Hfresh.
  pose proof (processDimension_fold loc (dim_dimensions arrayDim) [] 1 s Hfit)
    as (H1 & H2 & H3).
  destruct (fold_left _ _ _) as [[ds total] s1]. simpl in H1, H2, H3. subst ds.
  split; [|split; [|split; [|split]]].
  - eexists. split; [simpl; apply lookup_insert_eq | reflexivity].
  - exact H2.
  - exact H3.
  - intros n Hn. unfold number, slots_of, dimension_errors. simpl.
    rewrite double_to_int_inject.
    replace (n <=? 0) with false by (symmetry; apply Z.leb_gt; lia). done.
  - intros n Hn. unfold number, slots_of, dimension_errors. simpl.
    rewrite double_to_int_inject.
    replace (n <=? 0) with true by (symmetry; apply Z.leb_le; lia). done.
Qed.

(** The property on [DIM A(10)]: eleven slots and no diagnostic. *)
Lemma dim_slots_witness :
  let s' := processDimStatement (at_line 10)
              [{| dim_name := "A"; dim_typeSuffix := TokenType.UNKNOWN;
                  dim_dimensions := [number 10] |}] fresh in
  (∃ sym, arrays (m_symbolTable s') !! "A" = Some sym ∧ arr_dimensions sym = [11])
  ∧ m_errors s' = []
  ∧ m_warnings s' = [].
Proof.
  intros s'.
  destruct (dim_slots (at_line 10)
              {| dim_name := "A"; dim_typeSuffix := TokenType.UNKNOWN;
                 dim_dimensions := [number 10] |} fresh) as (H1 & H2 & H3 & _).
  - vm_compute. reflexivity.
  - repeat constructor.
  - split; [exact H1|]. split; [exact H2 | exact H3].
Defined.

(** C2 as stated fails: [DIM A(0)] is reported as an error and the array
    gets two slots, not one. *)
Lemma dim_zero_counterexample :
  let r := analyze (dim_literal 0) default_options fresh in
  fst r = false
  ∧ m_errors (snd r)
    = [{| err_type := SemanticErrorType.INVALID_ARRAY_INDEX; err_location := at_line 10 |}]
  ∧ (arr_dimensions <$> arrays (m_symbolTable (snd r)) !! "A") = Some [2]
  ∧ (arr_totalSize <$> arrays (m_symbolTable (snd r)) !! "A") = Some 2.
Proof. repeat split; vm_compute; reflexivity. Qed.

End DimProperties.

(** ** The analysis as a whole *)

Section AnalyzeProperties.
Import Semantic SemanticSpec IRSpec.

Lemma analyze_unfold program options s :
  snd (analyze program options s)
  = let s2 := validateControlFlow
                (pass2_validate program
                   (pass1_collectDeclarations program (reset_state options s))) in
    if m_warnUnused s2 then checkUnusedVariables s2 else s2.
Proof. reflexivity. Qed.

Lemma analyze_grows program options s :
  grows (reset_state options s) (snd (analyze program options s)).
Proof.
  rewrite analyze_unfold. simpl.
  eapply grows_trans.
  { unfold pass1_collectDeclarations.
    eapply grows_trans; [apply collectLineNumbers_from_grows|].
    eapply grows_trans; [apply collectLabels_from_keeps|].
    eapply grows_trans; [apply collectDimStatements_keeps|].
    apply collectDefStatements_keeps. }
  eapply grows_trans; [apply pass2_validate_keeps|].
  eapply grows_trans; [apply validateControlFlow_keeps|].
  destruct (m_warnUnused _); [apply checkUnusedVariables_keeps | apply grows_refl].
Qed.

Lemma analyze_label_ids program options s :
  label_ids_from_10000 (snd (analyze program options s)).
Proof.
  rewrite analyze_unfold. simpl.
  assert (H0 : label_ids_from_10000 (reset_state options s)).
  { split; simpl; [lia|]. intros name sym H. by rewrite lookup_empty in H. }
  assert (H1 : label_ids_from_10000
                 (pass1_collectDeclarations program (reset_state options s))).
  { unfold pass1_collectDeclarations.
    eapply keeps_label_ids; [apply collectDefStatements_keeps|].
    eapply keeps_label_ids; [apply collectDimStatements_keeps|].
    eapply keeps_label_ids; [apply collectLabels_from_keeps|].
    apply collectLineNumbers_from_labels, H0. }
  assert (H2 : label_ids_from_10000
                 (validateControlFlow
                    (pass2_validate program
                       (pass1_collectDeclarations program (reset_state options s))))).
  { eapply keeps_label_ids; [apply validateControlFlow_keeps|].
    eapply keeps_label_ids; [apply pass2_validate_keeps | exact H1]. }
  destruct (m_warnUnused _); [|exact H2].
  eapply keeps_label_ids; [apply checkUnusedVariables_keeps | exact H2].
Qed.

(** C3 (the code at its failing input).  Whatever the program, the
    analysis never reports DO_WITHOUT_LOOP.  On the one-line programs
    [FOR I = 1 TO 3], [WHILE 1] and [REPEAT] it reports FOR_WITHOUT_NEXT,
    WHILE_WITHOUT_WEND and REPEAT_WITHOUT_UNTIL; on [DO] it reports
    nothing and succeeds. *)
Theorem unclosed_loops (options : CompilerOptions) (s : Semantic.t) :
  (∀ program e, e ∈ m_errors (snd (analyze program options s)) →
                err_type e ≠ SemanticErrorType.DO_WITHOUT_LOOP)
  ∧ map err_type (m_errors (snd (analyze unclosed_for options s)))
    = [SemanticErrorType.FOR_WITHOUT_NEXT]
  ∧ map err_type (m_errors (snd (analyze unclosed_while options s)))
    = [SemanticErrorType.WHILE_WITHOUT_WEND]
  ∧ map err_type (m_errors (snd (analyze unclosed_repeat options s)))
    = [SemanticErrorType.REPEAT_WITHOUT_UNTIL]
  ∧ fst (analyze unclosed_do options s) = true
  ∧ m_errors (snd (analyze unclosed_do options s)) = [].
Proof.
  split.
  - intros program e He.
    destruct (analyze_grows program options s) as (added & Hadded & Hok).
    rewrite Hadded in He. simpl in He.
    rewrite Forall_forall in Hok. by apply Hok.
  - destruct s, options. destruct m_warnUnused0; repeat split; vm_compute; reflexivity.
Qed.

(** C4 (the code at its failing input).  Every label id is at least
    10000; on the program whose line 10000 declares the label [START],
    the label gets the id 10000, which is the number of that line. *)
Theorem label_id_collides (options : CompilerOptions) (s : Semantic.t) :
  (∀ program name sym,
     labels (m_symbolTable (snd (analyze program options s))) !! name = Some sym →
     10000 <= lbl_labelId sym)
  ∧ fst (analyze label_on_line_10000 options s) = true
  ∧ (lbl_labelId <$> labels (m_symbolTable (snd (analyze label_on_line_10000 options s)))
                       !! "START") = Some 10000
  ∧ (ln_lineNumber <$> lineNumbers (m_symbolTable
                                      (snd (analyze label_on_line_10000 options s)))
                         !! 10000) = Some 10000.
Proof.
  split.
  - intros program name sym H.
    destruct (analyze_label_ids program options s) as [_ Hids]. by eapply Hids.
  - destruct s, options. destruct m_warnUnused0; repeat split; vm_compute; reflexivity.
Qed.

(** C10 (the code at its failing input).  On a newly constructed analyzer,
    two calls of [analyze] in a row on [10 LOOP / 20 DO] with the same
    options differ: the first fails with LOOP_WITHOUT_DO and leaves the
    DO of line 20 on the DO stack; the second finds that entry, reports
    nothing and succeeds. *)
Theorem analyze_twice (builtinFunctions : gmap string Z) (manager : ConstantsManager.t)
    (predefined : gmap string ConstantSymbol) (options : CompilerOptions) :
  let first := analyze loop_then_do options
                 (Semantic.new builtinFunctions manager predefined) in
  let second := analyze loop_then_do options (snd first) in
  fst first = false
  ∧ m_errors (snd first)
    = [{| err_type := SemanticErrorType.LOOP_WITHOUT_DO; err_location := at_line 10 |}]
  ∧ m_doStack (snd first) = [at_line 20]
  ∧ fst second = true
  ∧ m_errors (snd second) = [].
Proof. destruct options. repeat split; vm_compute; reflexivity. Qed.

(** C5 as stated fails: [10 DEF FN F(X) = FN F(X) / 20 LET Y = FN F(1)]
    passes the analysis without a diagnostic, and once the generator has
    seen the DEF, lowering the LET never returns, whatever the fuel and
    whatever else the generator holds. *)
Lemma self_reference_accepted_and_diverges :
  fst (analyze self_reference default_options fresh) = true
  ∧ m_errors (snd (analyze self_reference default_options fresh)) = []
  ∧ ∀ g fuel,
      IRGen.generateLet fuel "Y" []
        (FunctionCallExpression "F" [number 1] true (at_line 20)) 20
        (IRGen.generateDef "F" ["X"] self_call 10 g)
      = None.
Proof.
  split; [vm_compute; reflexivity|]. split; [vm_compute; reflexivity|].
  intros g fuel. unfold IRGen.generateLet.
  rewrite self_call_diverges; [done|].
  simpl. apply lookup_insert_eq.
Qed.

End AnalyzeProperties.

(** ** The analyzer records the types that the names denote *)

Section AnalyzerTypes.
Import Semantic SemanticSpec IRSpec.

(** *** String types *)

Lemma string_type_is_string s : VariableType.is_string (string_type s) = true.
Proof. unfold string_type. by destruct (unicodeMode _). Qed.

Lemma inferTypeFromName_string name s :
  VariableType.is_string (inferTypeFromName name s) = has_string_suffix name.
Proof.
  unfold inferTypeFromName, has_string_suffix.
  destruct (Cpp.back name) as [c|] eqn:Hback; [|done].
  destruct (Cpp.has_proper_suffix "_STRING" name);
    [by rewrite string_type_is_string, orb_true_r|].
  rewrite orb_false_r.
  destruct (Cpp.has_proper_suffix "_INT" name) eqn:Hint.
  { apply (has_proper_suffix_back _ "T"%char) in Hint; [|done].
    rewrite Hback in Hint. by injection Hint as ->. }
  destruct (Cpp.has_proper_suffix "_DOUBLE" name) eqn:Hdouble.
  { apply (has_proper_suffix_back _ "E"%char) in Hdouble; [|done].
    rewrite Hback in Hdouble. by injection Hdouble as ->. }
  destruct (Ascii.eqb c "$"); [apply string_type_is_string|].
  by repeat destruct (Ascii.eqb c _).
Qed.

(** *** The steps of the analyzer *)

Lemma typed_tables s s' :
  variables (m_symbolTable s') = variables (m_symbolTable s) →
  arrays (m_symbolTable s') = arrays (m_symbolTable s) →
  typed_by_names s → typed_by_names s'.
Proof.
  unfold typed_by_names, suffix_consistent. intros -> ->. done.
Qed.

Lemma typed_insert_variable name sym s :
  VariableType.is_string (var_type sym) = has_string_suffix name →
  typed_by_names s →
  typed_by_names
    (update_symbols (λ st, with_variables (<[name := sym]> (variables st)) st) s).
Proof.
  intros Hsym [Hv Ha]. split; simpl; [|exact Ha].
  intros n v Hn. apply lookup_insert_Some in Hn as [[<- <-]|[_ Hn]]; [done|].
  by eapply Hv.
Qed.

Lemma typed_mark_used name s :
  typed_by_names s →
  typed_by_names
    (update_symbols (λ st, with_variables (alter mark_used name (variables st)) st) s).
Proof.
  intros [Hv Ha]. split; simpl; [|exact Ha].
  intros n v Hn. apply lookup_alter_Some in Hn as [(<- & v0 & H0 & ->)|[_ Hn]].
  - simpl. by eapply Hv.
  - by eapply Hv.
Qed.

Lemma lookupVariable_typed name s :
  typed_by_names s → typed_by_names (snd (lookupVariable name s)).
Proof.
  intros Hs. unfold lookupVariable.
  destruct (variables (m_symbolTable s) !! name); [done|].
  destruct (arrays (m_symbolTable s) !! name) as [arr|] eqn:Harr; [|done].
  destruct (arr_dimensions arr); [|done]. simpl.
  apply typed_insert_variable; [|done]. simpl. destruct Hs as [_ Ha]. by eapply Ha.
Qed.

Lemma useVariable_typed name loc s :
  typed_by_names s → typed_by_names (useVariable name loc s).
Proof.
  intros Hs. unfold useVariable.
  pose proof (lookupVariable_typed name s Hs) as H1.
  destruct (lookupVariable name s) as [sym s1]. simpl in H1.
  apply typed_mark_used. destruct sym; [done|].
  unfold declareVariable. destruct (variables (m_symbolTable s1) !! name); [done|].
  simpl. apply typed_insert_variable; [|done]. apply inferTypeFromName_string.
Qed.

Lemma evolves_typed loops s s' :
  evolves loops s s' → typed_by_names s → typed_by_names s'.
Proof.
  induction 1 as [loops s|loops s1 s2 s3 _ IH1 _ IH2|loops type loc s Hty|loops w s
                 |loops name s|loops name loc s|loops n loc s|loops name loc s
                 |loops n s|stack s|stack s|stack s|stack s]; intros Htyped;
    try done.
  - auto.
  - by apply lookupVariable_typed.
  - by apply useVariable_typed.
Qed.

(** *** Pass 1 *)

Lemma collectLineNumbers_from_typed program_lines : ∀ i s,
  typed_by_names s → typed_by_names (collectLineNumbers_from i program_lines s).
Proof.
  induction program_lines as [|l rest IH]; intros i s Hs; simpl; [done|].
  apply IH. destruct (lineNumber l >? 0); [|done].
  by destruct (lineNumbers (m_symbolTable s) !! lineNumber l).
Qed.

Lemma fold_left_typed {A} (f : Semantic.t → A → Semantic.t) (ok : A → bool) (xs : list A) :
  (∀ s x, ok x = true → typed_by_names s → typed_by_names (f s x)) →
  forallb ok xs = true →
  ∀ s, typed_by_names s → typed_by_names (fold_left f xs s).
Proof.
  intros Hf. induction xs as [|x xs IH]; intros Hxs s Hs; simpl in *; [done|].
  apply andb_true_iff in Hxs as [Hx Hxs]. apply IH; [done|]. by apply Hf.
Qed.

Lemma forallb_all {A} (xs : list A) : forallb (λ _, true) xs = true.
Proof. by induction xs. Qed.

Lemma collectLabels_from_typed program_lines : ∀ i s,
  typed_by_names s → typed_by_names (collectLabels_from i program_lines s).
Proof.
  induction program_lines as [|l rest IH]; intros i s Hs; simpl; [done|].
  apply IH. apply (fold_left_typed _ (λ _, true)); [|apply forallb_all|done].
  intros s' stmt _ Hs'. destruct stmt; simpl; try done.
  unfold declareLabel. by destruct (labels (m_symbolTable s') !! _).
Qed.

Lemma processDimension_symbols loc dims : ∀ acc,
  m_symbolTable (snd (fold_left (processDimension loc) dims acc))
  = m_symbolTable (snd acc).
Proof.
  induction dims as [|d dims IH]; intros [[ds total] s]; simpl; [done|].
  rewrite IH. destruct d; simpl; try done. by destruct (_ <=? 0).
Qed.

Lemma processArrayDim_typed loc s arrayDim :
  dim_agrees arrayDim = true →
  typed_by_names s → typed_by_names (processArrayDim loc s arrayDim).
Proof.
  intros Hdim Hs. unfold processArrayDim.
  destruct (arrays (m_symbolTable s) !! dim_name arrayDim); [done|].
  pose proof (processDimension_symbols loc (dim_dimensions arrayDim) ([], 1, s)) as Hsym.
  destruct (fold_left _ _ _) as [[ds total] s1]. simpl in Hsym.
  assert (Hs1 : typed_by_names s1) by (unfold typed_by_names; by rewrite Hsym).
  destruct Hs1 as [Hv Ha]. split; simpl; [exact Hv|].
  intros n a Hn. apply lookup_insert_Some in Hn as [[<- <-]|[_ Hn]]; [|by eapply Ha].
  simpl. unfold dim_agrees in Hdim. unfold inferTypeFromSuffix.
  destruct (dim_typeSuffix arrayDim); simpl;
    rewrite ?inferTypeFromName_string; try done;
    try (unfold string_type; destruct (unicodeMode _); simpl);
    destruct (has_string_suffix (dim_name arrayDim)); simpl in *; congruence.
Qed.

Lemma collectDimStatements_typed program s :
  dims_agree program = true →
  typed_by_names s → typed_by_names (collectDimStatements program s).
Proof.
  intros Hdims. unfold collectDimStatements, for_each_statement.
  revert s.
  apply (fold_left_typed _ (λ l, forallb statement_dims_agree (statements l)));
    [|exact Hdims].
  intros s1 l Hl. apply (fold_left_typed _ statement_dims_agree); [|exact Hl].
  intros s2 stmt Hstmt Hs2. destruct stmt; try done.
  unfold processDimStatement. simpl in Hstmt.
  apply (fold_left_typed _ dim_agrees); [|done|done].
  intros s3 d Hd Hs3. by apply processArrayDim_typed.
Qed.

Lemma collectDefStatements_typed program s :
  typed_by_names s → typed_by_names (collectDefStatements program s).
Proof.
  unfold collectDefStatements, for_each_statement.
  apply (fold_left_typed _ (λ _, true)); [|apply forallb_all].
  intros s1 l _. apply (fold_left_typed _ (λ _, true)); [|apply forallb_all].
  intros s2 stmt _ Hs2. destruct stmt; try done.
  unfold processDefStatement. by destruct (functions (m_symbolTable s2) !! _).
Qed.

(** When the type token of every [DIM] entry of the program says what
    the name says, the symbol table that [analyze] leaves gives every
    variable and every array the type that its name denotes: the tables
    the IR generator reads after an analysis satisfy [suffix_consistent]. *)
Theorem analyze_types_by_names (program : Program) (options : CompilerOptions)
    (s : Semantic.t) :
  dims_agree program = true →
  suffix_consistent (m_symbolTable (snd (analyze program options s))).
Proof.
  intros Hdims. rewrite analyze_unfold. simpl.
  assert (H0 : typed_by_names (reset_state options s)).
  { split; simpl; intros n x Hn; by rewrite lookup_empty in Hn. }
  assert (H1 : typed_by_names (pass1_collectDeclarations program (reset_state options s))).
  { unfold pass1_collectDeclarations.
    apply collectDefStatements_typed, collectDimStatements_typed; [done|].
    by apply collectLabels_from_typed, collectLineNumbers_from_typed. }
  assert (H2 : typed_by_names
                 (validateControlFlow
                    (pass2_validate program
                       (pass1_collectDeclarations program (reset_state options s))))).
  { eapply (typed_tables (pass2_validate program _)).
    - unfold validateControlFlow.
      by destruct (m_forStack _), (m_whileStack _), (m_repeatStack _).
    - unfold validateControlFlow.
      by destruct (m_forStack _), (m_whileStack _), (m_repeatStack _).
    - eapply evolves_typed; [apply pass2_validate_evolves | exact H1]. }
  destruct (m_warnUnused _); [|exact H2].
  eapply evolves_typed; [apply (checkUnusedVariables_evolves true) | exact H2].
Qed.

End AnalyzerTypes.

(** ** The tables that the analysis leaves *)

Section AnalyzerTables.
Import Semantic SemanticSpec IRSpec.

(** *** Line numbers *)

Lemma collectLineNumbers_from_dom program_lines : ∀ i s n,
  n ∈ dom (lineNumbers (m_symbolTable (collectLineNumbers_from i program_lines s)))
  ↔ n ∈ dom (lineNumbers (m_symbolTable s))
    ∨ (0 < n ∧ ∃ l, l ∈ program_lines ∧ lineNumber l = n).
Proof.
  induction program_lines as [|l rest IH]; intros i s n; simpl.
  - split; [by left|]. intros [H|(_ & l & Hl & _)]; [done|]. by apply elem_of_nil in Hl.
  - rewrite IH. clear IH.
    assert (Hstep :
      n ∈ dom (lineNumbers (m_symbolTable
                (if lineNumber l >? 0
                 then match lineNumbers (m_symbolTable s) !! lineNumber l with
                      | Some _ =>
                          error SemanticErrorType.DUPLICATE_LINE_NUMBER (line_location l) s
                      | None =>
                          update_symbols
                            (λ st, with_lineNumbers
                                     (<[lineNumber l :=
                                          {| ln_lineNumber := lineNumber l;
                                             ln_programLineIndex := i;
                                             ln_references := [] |}]> (lineNumbers st)) st) s
                      end
                 else s)))
      ↔ n ∈ dom (lineNumbers (m_symbolTable s)) ∨ (0 < n ∧ lineNumber l = n)).
    { destruct (lineNumber l >? 0) eqn:Hpos.
      - apply Z.gtb_lt in Hpos.
        destruct (lineNumbers (m_symbolTable s) !! lineNumber l) eqn:Hl; simpl.
        + split; [by left|]. intros [H|[_ <-]]; [done|]. by apply elem_of_dom.
        + rewrite dom_insert, elem_of_union, elem_of_singleton.
          split; [intros [->|H]; [right|left]; done | intros [H|[_ <-]]; [right|left]; done].
      - rewrite Z.gtb_ltb in Hpos. apply Z.ltb_ge in Hpos.
        split; [by left|]. intros [H|[Hn <-]]; [done | lia]. }
    rewrite Hstep. split.
    + intros [[H|[Hn Hl]]|(Hn & l' & Hl' & Heq)].
      * by left.
      * right. split; [done|]. exists l. split; [by left | done].
      * right. split; [done|]. exists l'. split; [by right | done].
    + intros [H|(Hn & l' & Hl' & Heq)]; [by left; left|].
      apply elem_of_cons in Hl' as [->|Hl'].
      * left. right. done.
      * right. split; [done|]. by exists l'.
Qed.

Lemma keeps_dom s s' n :
  keeps s s' →
  n ∈ dom (lineNumbers (m_symbolTable s')) ↔ n ∈ dom (lineNumbers (m_symbolTable s)).
Proof. intros (_ & Hdom & _). by rewrite Hdom. Qed.

Lemma analyze_keeps_lines program options s :
  keeps (collectLineNumbers program (reset_state options s))
        (snd (analyze program options s)).
Proof.
  rewrite analyze_unfold. simpl. unfold pass1_collectDeclarations.
  eapply keeps_trans; [apply collectLabels_from_keeps|].
  eapply keeps_trans; [apply collectDimStatements_keeps|].
  eapply keeps_trans; [apply collectDefStatements_keeps|].
  eapply keeps_trans; [apply pass2_validate_keeps|].
  eapply keeps_trans; [apply validateControlFlow_keeps|].
  destruct (m_warnUnused _); [apply checkUnusedVariables_keeps | apply keeps_refl].
Qed.

(** After the analysis a line number is recorded exactly when it is
    positive and the number of some line of the program. *)
Theorem analyze_line_numbers (program : Program) (options : CompilerOptions)
    (s : Semantic.t) (n : Z) :
  is_Some (lookupLine n (snd (analyze program options s)))
  ↔ 0 < n ∧ ∃ l, l ∈ lines program ∧ lineNumber l = n.
Proof.
  unfold lookupLine. rewrite <- elem_of_dom.
  rewrite (keeps_dom _ _ n (analyze_keeps_lines program options s)).
  unfold collectLineNumbers. rewrite collectLineNumbers_from_dom. simpl.
  rewrite dom_empty. split; [|by right]. intros [H|H]; [|done].
  by apply elem_of_empty in H.
Qed.

Lemma collectLineNumbers_from_app xs ys : ∀ i s,
  collectLineNumbers_from i (xs ++ ys) s
  = collectLineNumbers_from (i + Z.of_nat (length xs)) ys (collectLineNumbers_from i xs s).
Proof.
  induction xs as [|x xs IH]; intros i s; simpl.
  - by rewrite Z.add_0_r.
  - rewrite IH. f_equal. lia.
Qed.

(** Two lines of the program with the same positive number make the
    analysis fail: the later of the two is reported as a duplicate. *)
Theorem duplicate_line_number (program : Program) (options : CompilerOptions)
    (s : Semantic.t) (i j : nat) (li lj : ProgramLine) :
  (i < j)%nat →
  lines program !! i = Some li →
  lines program !! j = Some lj →
  lineNumber li = lineNumber lj →
  0 < lineNumber lj →
  reports SemanticErrorType.DUPLICATE_LINE_NUMBER (line_location lj)
          (snd (analyze program options s))
  ∧ fst (analyze program options s) = false.
Proof.
  intros Hij Hi Hj Heq Hpos.
  assert (Hrep : reports SemanticErrorType.DUPLICATE_LINE_NUMBER (line_location lj)
                         (snd (analyze program options s))).
  { unfold reports. eapply grows_elem.
    { apply keeps_grows, analyze_keeps_lines. }
    unfold collectLineNumbers.
    rewrite <- (take_drop_middle _ _ _ Hj), collectLineNumbers_from_app. simpl.
    set (s1 := collectLineNumbers_from 0 (take j (lines program)) _).
    eapply grows_elem; [apply collectLineNumbers_from_grows|].
    replace (lineNumber lj >? 0) with true by (symmetry; apply Z.gtb_lt; lia).
    assert (Hin : lineNumber lj ∈ dom (lineNumbers (m_symbolTable s1))).
    { apply collectLineNumbers_from_dom. right. split; [done|]. exists li.
      split; [|done]. apply list_elem_of_lookup. exists i.
      by rewrite lookup_take_lt. }
    apply elem_of_dom in Hin as [sym Hsym]. rewrite Hsym. simpl.
    apply elem_of_app. right. by apply list_elem_of_singleton. }
  split; [exact Hrep|].
  unfold reports in Hrep. unfold analyze in *. simpl in *.
  match goal with |- match ?errors with _ => _ end = _ => destruct errors end;
    [by apply elem_of_nil in Hrep | done].
Qed.


(** *** Label ids *)

Lemma labels_numbered_same s s' :
  labels (m_symbolTable s') = labels (m_symbolTable s) →
  nextLabelId (m_symbolTable s') = nextLabelId (m_symbolTable s) →
  labels_numbered s → labels_numbered s'.
Proof. unfold labels_numbered. simpl. by intros -> ->. Qed.

Lemma lookupVariable_label_table name s :
  labels (m_symbolTable (snd (lookupVariable name s))) = labels (m_symbolTable s)
  ∧ nextLabelId (m_symbolTable (snd (lookupVariable name s)))
    = nextLabelId (m_symbolTable s).
Proof.
  unfold lookupVariable. destruct (variables (m_symbolTable s) !! name); [done|].
  destruct (arrays (m_symbolTable s) !! name) as [arr|]; [|done].
  by destruct (arr_dimensions arr).
Qed.

Lemma useVariable_label_table name loc s :
  labels (m_symbolTable (useVariable name loc s)) = labels (m_symbolTable s)
  ∧ nextLabelId (m_symbolTable (useVariable name loc s)) = nextLabelId (m_symbolTable s).
Proof.
  unfold useVariable. pose proof (lookupVariable_label_table name s) as [H1 H2].
  destruct (lookupVariable name s) as [sym s1]. simpl in *.
  destruct sym; simpl; [done|].
  unfold declareVariable. by destruct (variables (m_symbolTable s1) !! name).
Qed.

Lemma reference_label_numbered name loc s :
  labels_numbered s → labels_numbered (reference_label name loc s).
Proof.
  intros (Hnext & Hrange & Hinj). split; [|split]; simpl.
  - rewrite Hnext. do 2 f_equal.
    rewrite <- (size_dom (D := gset string) (alter _ _ _)), dom_alter_L.
    symmetry. apply size_dom.
  - intros n sym Hn. apply lookup_alter_Some in Hn as [(<- & sym0 & H0 & ->)|[_ Hn]].
    + simpl. by eapply Hrange.
    + by eapply Hrange.
  - intros n1 n2 sym1 sym2 H1 H2.
    apply lookup_alter_Some in H1 as [(<- & x1 & H1 & ->)|[_ H1]];
      apply lookup_alter_Some in H2 as [(<- & x2 & H2 & ->)|[_ H2]]; simpl;
      by eapply Hinj.
Qed.

Lemma declareLabel_numbered name i loc s :
  labels_numbered s → labels_numbered (declareLabel name i loc s).
Proof.
  intros (Hnext & Hrange & Hinj). unfold declareLabel.
  destruct (labels (m_symbolTable s) !! name) eqn:Hname; [done|].
  split; [|split]; simpl.
  - rewrite map_size_insert_None by done. lia.
  - intros n sym Hn. apply lookup_insert_Some in Hn as [[_ <-]|[_ Hn]]; simpl; [lia|].
    apply Hrange in Hn. lia.
  - intros n1 n2 sym1 sym2 H1 H2.
    apply lookup_insert_Some in H1 as [[<- <-]|[_ H1]];
      apply lookup_insert_Some in H2 as [[<- <-]|[_ H2]]; simpl; try done.
    + apply Hrange in H2. lia.
    + apply Hrange in H1. lia.
    + by eapply Hinj.
Qed.

Lemma evolves_numbered loops s s' :
  evolves loops s s' → labels_numbered s → labels_numbered s'.
Proof.
  induction 1 as [loops s|loops s1 s2 s3 _ IH1 _ IH2|loops type loc s Hty|loops w s
                 |loops name s|loops name loc s|loops n loc s|loops name loc s
                 |loops n s|stack s|stack s|stack s|stack s]; intros Hs;
    try done.
  - auto.
  - by eapply labels_numbered_same; [apply lookupVariable_label_table..|].
  - by eapply labels_numbered_same; [apply useVariable_label_table..|].
  - by apply reference_label_numbered.
Qed.

Lemma fold_left_numbered {A} (f : Semantic.t → A → Semantic.t) (xs : list A) :
  (∀ s x, labels_numbered s → labels_numbered (f s x)) →
  ∀ s, labels_numbered s → labels_numbered (fold_left f xs s).
Proof.
  intros Hf. induction xs as [|x xs IH]; intros s Hs; simpl; [done|].
  by apply IH, Hf.
Qed.

Lemma pass1_numbered program s :
  labels_numbered s → labels_numbered (pass1_collectDeclarations program s).
Proof.
  intros Hs. unfold pass1_collectDeclarations.
  assert (H1 : labels_numbered (collectLineNumbers program s)).
  { unfold collectLineNumbers. generalize 0. revert s Hs.
    induction (lines program) as [|l rest IH]; intros s Hs i; simpl; [done|].
    apply IH. destruct (lineNumber l >? 0); [|done].
    by destruct (lineNumbers (m_symbolTable s) !! lineNumber l). }
  assert (H2 : labels_numbered (collectLabels program (collectLineNumbers program s))).
  { unfold collectLabels. generalize 0. revert H1. generalize (collectLineNumbers program s).
    induction (lines program) as [|l rest IH]; intros s1 Hs1 i; simpl; [done|].
    apply IH. apply fold_left_numbered; [|done].
    intros s2 stmt Hs2. destruct stmt; simpl; try done. by apply declareLabel_numbered. }
  unfold collectDefStatements, collectDimStatements, for_each_statement.
  apply fold_left_numbered.
  { intros s1 l. apply fold_left_numbered. intros s2 stmt Hs2.
    destruct stmt; try done. unfold processDefStatement.
    by destruct (functions (m_symbolTable s2) !! _). }
  apply fold_left_numbered; [|done].
  intros s1 l. apply fold_left_numbered. intros s2 stmt Hs2.
  destruct stmt; try done. unfold processDimStatement.
  apply fold_left_numbered; [|done]. intros s3 d Hs3. unfold processArrayDim.
  destruct (arrays (m_symbolTable s3) !! _); [done|].
  match goal with |- context [fold_left (processDimension ?l) ?ds ?acc] =>
    pose proof (processDimension_symbols l ds acc) as Hsym;
    destruct (fold_left (processDimension l) ds acc) as [[ds' total] s4]
  end.
  simpl in Hsym. unfold labels_numbered in *. simpl. by rewrite Hsym.
Qed.

(** After the analysis the labels carry the ids 10000, 10001, ... up to
    the counter, each id once: every id is at least 10000 and below the
    counter, the counter is 10000 plus the number of labels, and two
    labels never share an id. *)
Theorem analyze_labels_numbered (program : Program) (options : CompilerOptions)
    (s : Semantic.t) :
  labels_numbered (snd (analyze program options s)).
Proof.
  rewrite analyze_unfold. simpl.
  assert (H0 : labels_numbered (reset_state options s)).
  { split; [|split]; simpl.
    - by rewrite map_size_empty.
    - intros ? ? H. by rewrite lookup_empty in H.
    - intros ? ? ? ? H. by rewrite lookup_empty in H. }
  assert (H2 : labels_numbered
                 (validateControlFlow
                    (pass2_validate program
                       (pass1_collectDeclarations program (reset_state options s))))).
  { eapply (labels_numbered_same (pass2_validate program _)).
    - unfold validateControlFlow.
      by destruct (m_forStack _), (m_whileStack _), (m_repeatStack _).
    - unfold validateControlFlow.
      by destruct (m_forStack _), (m_whileStack _), (m_repeatStack _).
    - eapply evolves_numbered; [apply pass2_validate_evolves|].
      by apply pass1_numbered. }
  destruct (m_warnUnused _); [|exact H2].
  eapply evolves_numbered; [apply (checkUnusedVariables_evolves true) | exact H2].
Qed.

(** *** Types *)

(** Type promotion does not depend on the order of its arguments, never
    answers VOID or UNKNOWN, answers a string type exactly when one of
    the arguments is one, and is associative on the types of values. *)
Theorem promoteTypes_order (l m r : VariableType.t) :
  promoteTypes l r = promoteTypes r l
  ∧ valued (promoteTypes l r) = true
  ∧ VariableType.is_string (promoteTypes l r)
    = VariableType.is_string l || VariableType.is_string r
  ∧ (valued l = true → valued m = true → valued r = true →
     promoteTypes (promoteTypes l m) r = promoteTypes l (promoteTypes m r)).
Proof. by destruct l, m, r. Qed.

(** For a name that is in neither table, the suffix test of the IR
    generator answers what the analyzer infers from the name: a string
    exactly for a name that ends in [$] or in [_STRING] after at least
    one more character. *)
Theorem string_names_agree (name : string) (loc : SourceLocation)
    (symbols : SymbolTable) (s : Semantic.t) :
  variables symbols !! name = None →
  arrays symbols !! name = None →
  IRGen.isStringExpression symbols (VariableExpression name loc)
  = VariableType.is_string (inferTypeFromName name s).
Proof.
  intros Hv Ha. rewrite inferTypeFromName_string. simpl. by rewrite Hv, Ha.
Qed.

Lemma string_names_agree_witness :
  IRGen.isStringExpression SymbolTable_new (VariableExpression "NAME_STRING" (at_line 10))
  = VariableType.is_string (inferTypeFromName "NAME_STRING" fresh).
Proof. apply string_names_agree; by vm_compute. Defined.

Lemma analyze_types_by_names_witness :
  suffix_consistent
    (m_symbolTable (snd (analyze string_and_number default_options fresh))).
Proof. apply analyze_types_by_names. reflexivity. Defined.

Lemma duplicate_line_number_witness :
  reports SemanticErrorType.DUPLICATE_LINE_NUMBER (at_line 30)
          (snd (analyze line_10_twice default_options fresh))
  ∧ fst (analyze line_10_twice default_options fresh) = false.
Proof.
  apply (duplicate_line_number line_10_twice default_options fresh 0 2
           (program_line 10 [EndStatement (at_line 10)])
           {| lineNumber := 10; statements := [EndStatement (at_line 30)];
              line_location := at_line 30 |}).
  - lia.
  - reflexivity.
  - reflexivity.
  - reflexivity.
  - reflexivity.
Defined.


End AnalyzerTables.

(** ** The loops that the analysis finds open *)

Section OpenLoops.
Import Semantic SemanticSpec.

Lemma adds_quietly_refl s : adds_quietly s s.
Proof. exists []. by rewrite app_nil_r. Qed.

Lemma adds_quietly_same s s' : m_errors s' = m_errors s → adds_quietly s s'.
Proof. intros H. exists []. by rewrite app_nil_r. Qed.

Lemma adds_quietly_trans s1 s2 s3 :
  adds_quietly s1 s2 → adds_quietly s2 s3 → adds_quietly s1 s3.
Proof.
  intros (a & Ha & Pa) (b & Hb & Pb). exists (a ++ b).
  split; [by rewrite Hb, Ha, app_assoc | by apply Forall_app].
Qed.

Lemma adds_quietly_error type loc s :
  closes_program type = false → adds_quietly s (error type loc s).
Proof. intros H. eexists. split; [reflexivity|]. by repeat constructor. Qed.

Lemma lookupVariable_untouched name s :
  m_errors (snd (lookupVariable name s)) = m_errors s
  ∧ loop_stacks (snd (lookupVariable name s)) = loop_stacks s.
Proof.
  unfold lookupVariable. destruct (variables (m_symbolTable s) !! name); [done|].
  destruct (arrays (m_symbolTable s) !! name) as [arr|]; [|done].
  by destruct (arr_dimensions arr).
Qed.

Lemma useVariable_untouched name loc s :
  m_errors (useVariable name loc s) = m_errors s
  ∧ loop_stacks (useVariable name loc s) = loop_stacks s.
Proof.
  unfold useVariable. pose proof (lookupVariable_untouched name s) as [H1 H2].
  destruct (lookupVariable name s) as [sym s1]. simpl in *.
  destruct sym; simpl; [done|].
  unfold declareVariable. by destruct (variables (m_symbolTable s1) !! name).
Qed.

Lemma evolves_adds_quietly loops s s' : evolves loops s s' → adds_quietly s s'.
Proof.
  induction 1 as [loops s|loops s1 s2 s3 _ IH1 _ IH2|loops type loc s Hty|loops w s
                 |loops name s|loops name loc s|loops n loc s|loops name loc s
                 |loops n s|stack s|stack s|stack s|stack s];
    try (by apply adds_quietly_same).
  - by eapply adds_quietly_trans.
  - by apply adds_quietly_error.
  - apply adds_quietly_same, lookupVariable_untouched.
  - apply adds_quietly_same, useVariable_untouched.
Qed.

(** The validation of expressions leaves the loop stacks alone. *)
Lemma evolves_stacks loops s s' :
  evolves loops s s' → loops = false → loop_stacks s' = loop_stacks s.
Proof.
  induction 1 as [loops s|loops s1 s2 s3 _ IH1 _ IH2|loops type loc s Hty|loops w s
                 |loops name s|loops name loc s|loops n loc s|loops name loc s
                 |loops n s|stack s|stack s|stack s|stack s]; intros Hloops;
    try done.
  - by rewrite IH2, IH1.
  - apply lookupVariable_untouched.
  - apply useVariable_untouched.
Qed.

Lemma declares_untouched s s' :
  declares s s' → adds_quietly s s' ∧ loop_stacks s' = loop_stacks s.
Proof.
  induction 1 as [s|s1 s2 s3 _ [IH1 IH1'] _ [IH2 IH2']|type loc s Hty|w s|f s].
  - split; [apply adds_quietly_refl | done].
  - split; [by eapply adds_quietly_trans | by rewrite IH2', IH1'].
  - split; [by apply adds_quietly_error | done].
  - split; [by apply adds_quietly_same | done].
  - split; [by apply adds_quietly_same | done].
Qed.

(** *** Pass 1 *)

Lemma fold_left_declares {A} (f : Semantic.t → A → Semantic.t) (xs : list A) :
  (∀ s x, declares s (f s x)) → ∀ s, declares s (fold_left f xs s).
Proof.
  intros Hf. induction xs as [|x xs IH]; intros s; simpl; [apply declares_refl|].
  eapply declares_trans; [apply Hf | apply IH].
Qed.

Lemma collectLineNumbers_from_declares program_lines : ∀ i s,
  declares s (collectLineNumbers_from i program_lines s).
Proof.
  induction program_lines as [|l rest IH]; intros i s; simpl; [apply declares_refl|].
  eapply declares_trans; [|apply IH].
  destruct (lineNumber l >? 0); [|apply declares_refl].
  destruct (lineNumbers (m_symbolTable s) !! lineNumber l);
    [by apply declares_error | apply declares_symbols].
Qed.

Lemma collectLabels_from_declares program_lines : ∀ i s,
  declares s (collectLabels_from i program_lines s).
Proof.
  induction program_lines as [|l rest IH]; intros i s; simpl; [apply declares_refl|].
  eapply declares_trans; [|apply IH]. apply fold_left_declares.
  intros s2 stmt. destruct stmt; simpl; try apply declares_refl.
  unfold declareLabel. destruct (labels (m_symbolTable s2) !! _);
    [by apply declares_error | apply declares_symbols].
Qed.

Lemma processDimension_declares loc dims : ∀ acc,
  declares (snd acc) (snd (fold_left (processDimension loc) dims acc)).
Proof.
  induction dims as [|e es IH]; intros [[ds total] s]; simpl; [apply declares_refl|].
  eapply declares_trans; [|apply IH].
  destruct e; simpl; try apply declares_warning.
  destruct (_ <=? 0); simpl; [by apply declares_error | apply declares_refl].
Qed.

Lemma collectDimStatements_declares program s :
  declares s (collectDimStatements program s).
Proof.
  apply fold_left_declares. intros s1 l. apply fold_left_declares.
  intros s2 stmt. destruct stmt as [| | | | | | | | | | | | |loc arrayDims| | | |];
    try apply declares_refl.
  unfold processDimStatement. apply fold_left_declares. intros s3 d.
  unfold processArrayDim.
  destruct (arrays (m_symbolTable s3) !! _); [by apply declares_error|].
  pose proof (processDimension_declares loc (dim_dimensions d) ([], 1, s3)) as Hdims.
  destruct (fold_left _ _ _) as [[ds total] s4]. simpl in Hdims.
  eapply declares_trans; [exact Hdims | apply declares_symbols].
Qed.

Lemma collectDefStatements_declares program s :
  declares s (collectDefStatements program s).
Proof.
  apply fold_left_declares. intros s1 l. apply fold_left_declares.
  intros s2 stmt. destruct stmt; try apply declares_refl.
  unfold processDefStatement. destruct (functions (m_symbolTable s2) !! _);
    [by apply declares_error | apply declares_symbols].
Qed.

Lemma pass1_declares program s : declares s (pass1_collectDeclarations program s).
Proof.
  unfold pass1_collectDeclarations.
  eapply declares_trans; [apply collectLineNumbers_from_declares|].
  eapply declares_trans; [apply collectLabels_from_declares|].
  eapply declares_trans; [apply collectDimStatements_declares|].
  apply collectDefStatements_declares.
Qed.

(** *** Pass 2 *)

Lemma validateExpression_stacks e s :
  loop_stacks (validateExpression e s) = loop_stacks s.
Proof. by eapply evolves_stacks; [apply (validateExpression_evolves false)|]. Qed.

Lemma inferExpressionType_stacks e s :
  loop_stacks (snd (inferExpressionType e s)) = loop_stacks s.
Proof. by eapply evolves_stacks; [apply (inferExpressionType_evolves false)|]. Qed.

(** From the equality of the four stacks to the equality of each. *)
Ltac stacks H :=
  unfold loop_stacks in H; injection H as ? ? ? ?.

Lemma validateForStatement_stacks loc variable start end_ step s :
  loop_stacks (validateForStatement loc variable start end_ step s)
  = loop_step (loop_stacks s) (ForStatement loc variable start end_ step).
Proof.
  unfold validateForStatement.
  set (s4 := match step with Some e => validateExpression e _ | None => _ end).
  assert (H4 : loop_stacks s4 = loop_stacks s).
  { assert (H3 : loop_stacks (validateExpression end_
                    (validateExpression start (useVariable variable loc s)))
                 = loop_stacks s).
    { rewrite !validateExpression_stacks. apply useVariable_untouched. }
    subst s4. destruct step; [by rewrite validateExpression_stacks | done]. }
  clearbody s4.
  pose proof (inferExpressionType_stacks start s4) as H5.
  destruct (inferExpressionType start s4) as [st s5]. simpl in H5.
  pose proof (inferExpressionType_stacks end_ s5) as H6.
  destruct (inferExpressionType end_ s5) as [et s6]. simpl in H6.
  rewrite H5, H4 in H6. stacks H6.
  destruct (_ || _); unfold loop_stacks; simpl; congruence.
Qed.

Lemma validateStatement_stacks stmt : ∀ s,
  loop_stacks (validateStatement stmt s)
  = fold_left loop_step (validated stmt) (loop_stacks s).
Proof.
  induction stmt as [loc c h g thenS elseS IHt IHe|stmt Hother]
    using Statement_strong_ind; intros s.
  - assert (Hall : ∀ stmts, Forall (λ x, ∀ s, loop_stacks (validateStatement x s)
                      = fold_left loop_step (validated x) (loop_stacks s)) stmts →
              ∀ s, loop_stacks (validate_all validateStatement stmts s)
                   = fold_left loop_step (flat_map validated stmts) (loop_stacks s)).
    { induction 1 as [|x xs Hx _ IH]; intros s0; simpl; [done|].
      by rewrite IH, Hx, fold_left_app. }
    simpl. rewrite fold_left_app, (Hall _ IHe). f_equal.
    destruct h.
    + simpl. destruct (lookupLine g _); simpl; apply validateExpression_stacks.
    + by rewrite (Hall _ IHt), validateExpression_stacks.
  - destruct stmt as [loc items|loc variable indices value|loc isLabel label target
                     |loc isLabel label target|loc c h g t e
                     |loc variable start end_ step|loc variable|loc condition|loc
                     |loc|loc condition|loc kind condition|loc kind condition
                     |loc arrayDims|loc name params body|loc name|loc|loc]; simpl.
    + by eapply evolves_stacks;
        [apply (validate_each_evolves false), all_expressions_evolve|].
    + by eapply evolves_stacks; [apply (validateLetStatement_evolves false)|].
    + by eapply evolves_stacks; [apply (validateJump_evolves false)|].
    + by eapply evolves_stacks; [apply (validateJump_evolves false)|].
    + exfalso. by eapply Hother.
    + apply validateForStatement_stacks.
    + unfold validateNextStatement, loop_stacks.
      destruct (m_forStack s) eqn:Hfor; simpl; [by rewrite Hfor|]. by destruct (_ && _).
    + unfold validateWhileStatement.
      pose proof (validateExpression_stacks condition s) as H. stacks H.
      unfold loop_stacks. simpl. congruence.
    + unfold validateWendStatement, loop_stacks.
      destruct (m_whileStack s) eqn:Hwhile; simpl; by rewrite ?Hwhile.
    + done.
    + unfold validateUntilStatement. rewrite validateExpression_stacks.
      unfold loop_stacks. destruct (m_repeatStack s) eqn:Hrepeat; simpl; by rewrite ?Hrepeat.
    + unfold validateDoStatement. destruct condition; [|done].
      pose proof (validateExpression_stacks e s) as H. stacks H.
      unfold loop_stacks. simpl. congruence.
    + unfold validateLoopStatement.
      assert (H : loop_stacks (match m_doStack s with
                               | [] => error SemanticErrorType.LOOP_WITHOUT_DO loc s
                               | _ :: rest => set_doStack rest s
                               end)
                  = (m_forStack s, m_whileStack s, m_repeatStack s, tail (m_doStack s)))
        by (unfold loop_stacks; destruct (m_doStack s) eqn:Hdo; simpl; by rewrite ?Hdo).
      destruct condition; [by rewrite validateExpression_stacks | done].
    + done.
    + done.
    + done.
    + done.
    + done.
Qed.

Lemma validate_statements_stacks stmts : ∀ s,
  loop_stacks (validate_all validateStatement stmts s)
  = fold_left loop_step (flat_map validated stmts) (loop_stacks s).
Proof.
  induction stmts as [|x xs IH]; intros s; simpl; [done|].
  by rewrite IH, validateStatement_stacks, fold_left_app.
Qed.

Lemma pass2_validate_stacks program s :
  loop_stacks (pass2_validate program s)
  = fold_left loop_step (met program) (loop_stacks s).
Proof.
  unfold pass2_validate, met. revert s.
  induction (lines program) as [|l rest IH]; intros s; simpl; [done|].
  rewrite IH, fold_left_app. f_equal. unfold validateProgramLine.
  by rewrite validate_statements_stacks.
Qed.

(** *** The check at the end of the program *)

Lemma validateControlFlow_errors s :
  m_errors (validateControlFlow s)
  = m_errors s ++ end_of_program_errors (loop_stacks s)
  ∧ loop_stacks (validateControlFlow s) = loop_stacks s.
Proof.
  unfold validateControlFlow, end_of_program_errors, loop_stacks.
  destruct (m_forStack s) eqn:Hfor; simpl; rewrite ?Hfor;
    destruct (m_whileStack s) eqn:Hwhile; simpl; rewrite ?Hwhile;
    destruct (m_repeatStack s) eqn:Hrepeat; simpl; rewrite ?Hfor, ?Hwhile, ?Hrepeat;
    split; by rewrite <- ?app_assoc, ?app_nil_r.
Qed.

Lemma quiet_not_closing e added :
  closes_program (err_type e) = true → Forall quiet added → e ∉ added.
Proof.
  intros He Hq Hin. rewrite Forall_forall in Hq. apply Hq in Hin.
  unfold quiet in Hin. congruence.
Qed.

(** The loop stacks that the analysis leaves are those that the loop
    statements of the program build, in the order in which pass 2 meets
    them (a closing statement on an empty stack leaves it empty); the
    DO stack starts from what the analyzer held before.  The errors of
    the end of the program that the analysis reports are exactly one for
    the innermost open [FOR], one for the innermost open [WHILE] and one
    for the innermost open [REPEAT]. *)
Theorem open_loops_reported (program : Program) (options : CompilerOptions)
    (s : Semantic.t) :
  loop_stacks (snd (analyze program options s)) = open_loops program (m_doStack s)
  ∧ ∀ e, closes_program (err_type e) = true →
         (e ∈ m_errors (snd (analyze program options s))
          ↔ e ∈ end_of_program_errors (open_loops program (m_doStack s))).
Proof.
  rewrite analyze_unfold. simpl.
  set (s0 := reset_state options s).
  destruct (declares_untouched _ _ (pass1_declares program s0)) as [(a1 & Ha1 & Hq1) Hst1].
  set (s1 := pass1_collectDeclarations program s0) in *.
  destruct (evolves_adds_quietly _ _ _ (pass2_validate_evolves program s1))
    as (a2 & Ha2 & Hq2).
  pose proof (pass2_validate_stacks program s1) as Hst2.
  set (s2 := pass2_validate program s1) in *.
  destruct (validateControlFlow_errors s2) as [Ha3 Hst3].
  set (s3 := validateControlFlow s2) in *.
  assert (Hopen : loop_stacks s3 = open_loops program (m_doStack s)).
  { by rewrite Hst3, Hst2, Hst1. }
  assert (Herr : ∀ e, closes_program (err_type e) = true →
            (e ∈ m_errors s3
             ↔ e ∈ end_of_program_errors (open_loops program (m_doStack s)))).
  { intros e He. rewrite Ha3, Ha2, Ha1, Hst2, Hst1. simpl.
    change (fold_left loop_step (met program) (loop_stacks s0))
      with (open_loops program (m_doStack s)).
    rewrite !elem_of_app. split; [|by right].
    intros [[H|H]|H]; [|by apply quiet_not_closing in H|done].
    by apply quiet_not_closing in H. }
  destruct (m_warnUnused s3); [|done].
  destruct (evolves_adds_quietly _ _ _ (checkUnusedVariables_evolves false s3))
    as (a4 & Ha4 & Hq4).
  split.
  - rewrite <- Hopen. by eapply evolves_stacks; [apply checkUnusedVariables_evolves|].
  - intros e He. rewrite Ha4, elem_of_app, (Herr e He). split; [|by left].
    intros [H|H]; [done | by apply quiet_not_closing in H].
Qed.

End OpenLoops.

(** ** The IR generator: code, labels and literals *)

Section IRGenCode.
Import IRGen IRSpec.

(** Lowering an expression only appends instructions: the code emitted
    before stays in place, and the label counter, the block labels, the
    parameter map, the inlining flag, the stored [DEF FN] bodies and the
    stack of loop labels are afterwards what they were before. *)
Theorem expression_only_appends (fuel : nat) (e : Expression) (g g' : IRGen.t) :
  generateExpression fuel e g = Some g' →
  ∃ code,
    instructions g' = instructions g ++ code
    ∧ m_nextLabel g' = m_nextLabel g
    ∧ m_blockLabels g' = m_blockLabels g
    ∧ m_parameterMap g' = m_parameterMap g
    ∧ m_inFunctionInlining g' = m_inFunctionInlining g
    ∧ m_userFunctions g' = m_userFunctions g
    ∧ m_whileLoopLabels g' = m_whileLoopLabels g.
Proof.
  intros H. apply generateExpression_extends in H as [code ->]. by exists code.
Qed.

Lemma expression_only_appends_witness :
  ∃ code,
    instructions (emit IROpcode.STR_CONCAT
                    (emit1 IROpcode.LOAD_VAR (OpString "B")
                       (emit1 IROpcode.PUSH_STRING (OpString "a") blank)))
    = instructions blank ++ code
    ∧ m_nextLabel (emit IROpcode.STR_CONCAT
                    (emit1 IROpcode.LOAD_VAR (OpString "B")
                       (emit1 IROpcode.PUSH_STRING (OpString "a") blank)))
      = m_nextLabel blank
    ∧ m_blockLabels (emit IROpcode.STR_CONCAT
                    (emit1 IROpcode.LOAD_VAR (OpString "B")
                       (emit1 IROpcode.PUSH_STRING (OpString "a") blank)))
      = m_blockLabels blank
    ∧ m_parameterMap (emit IROpcode.STR_CONCAT
                    (emit1 IROpcode.LOAD_VAR (OpString "B")
                       (emit1 IROpcode.PUSH_STRING (OpString "a") blank)))
      = m_parameterMap blank
    ∧ m_inFunctionInlining (emit IROpcode.STR_CONCAT
                    (emit1 IROpcode.LOAD_VAR (OpString "B")
                       (emit1 IROpcode.PUSH_STRING (OpString "a") blank)))
      = m_inFunctionInlining blank
    ∧ m_userFunctions (emit IROpcode.STR_CONCAT
                    (emit1 IROpcode.LOAD_VAR (OpString "B")
                       (emit1 IROpcode.PUSH_STRING (OpString "a") blank)))
      = m_userFunctions blank
    ∧ m_whileLoopLabels (emit IROpcode.STR_CONCAT
                    (emit1 IROpcode.LOAD_VAR (OpString "B")
                       (emit1 IROpcode.PUSH_STRING (OpString "a") blank)))
      = m_whileLoopLabels blank.
Proof.
  apply (expression_only_appends 3
           (BinaryExpression (StringExpression "a") TokenType.PLUS
              (VariableExpression "B" (at_line 10)))).
  reflexivity.
Defined.

(** *** Labels of blocks *)

Lemma getLabelForBlock_fresh b g :
  labels_fresh g →
  labels_fresh (snd (getLabelForBlock b g))
  ∧ m_blockLabels (snd (getLabelForBlock b g)) !! b = Some (fst (getLabelForBlock b g))
  ∧ (∀ b' l, m_blockLabels g !! b' = Some l →
             m_blockLabels (snd (getLabelForBlock b g)) !! b' = Some l)
  ∧ instructions (snd (getLabelForBlock b g)) = instructions g.
Proof.
  intros (Hnext & Hrange & Hinj). unfold getLabelForBlock.
  destruct (m_blockLabels g !! b) as [l|] eqn:Hb; simpl; [done|].
  split; [|split; [apply lookup_insert_eq|split; [|done]]].
  - unfold labels_fresh. simpl. split; [lia|]. split.
    + intros b' l Hl. apply lookup_insert_Some in Hl as [[_ <-]|[_ Hl]]; [lia|].
      apply Hrange in Hl. lia.
    + intros b1 b2 l H1 H2.
      apply lookup_insert_Some in H1 as [[<- <-]|[_ H1]];
        apply lookup_insert_Some in H2 as [[<- Heq]|[_ H2]]; try done.
      * apply Hrange in H2. lia.
      * apply Hrange in H1. lia.
      * by eapply Hinj.
  - intros b' l Hl. rewrite lookup_insert_ne; [done|]. intros <-. congruence.
Qed.

Lemma label_blocks_fresh bs : ∀ g,
  labels_fresh g →
  labels_fresh (label_blocks bs g)
  ∧ (∀ b, b ∈ bs → is_Some (m_blockLabels (label_blocks bs g) !! block_id b))
  ∧ (∀ b l, m_blockLabels g !! b = Some l →
            m_blockLabels (label_blocks bs g) !! b = Some l)
  ∧ instructions (label_blocks bs g) = instructions g.
Proof.
  induction bs as [|b bs IH]; intros g Hg; simpl.
  { split; [done|]. split; [|done]. intros b Hb. by apply elem_of_nil in Hb. }
  destruct (getLabelForBlock_fresh (block_id b) g Hg) as (Hg1 & Hb & Hkeep & Hcode).
  destruct (IH _ Hg1) as (Hfresh & Hall & Hkeep' & Hcode').
  split; [done|]. split; [|split].
  - intros b' Hb'. apply elem_of_cons in Hb' as [->|Hb']; [|by apply Hall].
    eexists. by apply Hkeep'.
  - intros b' l Hl. by apply Hkeep', Hkeep.
  - by rewrite Hcode'.
Qed.

(** The first step of [generate] gives every block of the graph a label
    before any code is emitted: the labels run from 1, they are below the
    label counter, and two different blocks never have the same label.
    Asking for the label of a block again answers the same label and
    changes nothing. *)
Theorem block_labels_distinct (cfg : ControlFlowGraph) (symbols : SymbolTable)
    (functionDefs : gmap string FunctionDef) :
  let g := label_blocks (blocks cfg) (start cfg symbols functionDefs) in
  labels_fresh g
  ∧ instructions g = []
  ∧ ∀ b, b ∈ blocks cfg →
         ∃ l, m_blockLabels g !! block_id b = Some l
              ∧ getLabelForBlock (block_id b) g = (l, g).
Proof.
  intros g.
  destruct (label_blocks_fresh (blocks cfg) (start cfg symbols functionDefs))
    as (Hfresh & Hall & _ & Hcode).
  { split; [simpl; lia|]. split; simpl.
    - intros b l H. by rewrite lookup_empty in H.
    - intros b1 b2 l H. by rewrite lookup_empty in H. }
  split; [done|]. split; [done|].
  intros b Hb. destruct (Hall b Hb) as [l Hl]. exists l. split; [done|].
  unfold getLabelForBlock. subst g. by rewrite Hl.
Qed.

(** *** String literals of deferred conditions *)

Lemma replace_each_head c b s :
  b ≠ c → ∀ rest, replace_each c (String b (String c EmptyString)) s ≠ String c rest.
Proof.
  intros Hbc rest. destruct s as [|x s]; simpl; [done|].
  destruct (Ascii.eqb x c) eqn:Hx; simpl.
  - intros [= ? _]. done.
  - apply Ascii.eqb_neq in Hx. by intros [= ? _].
Qed.

Lemma replace_each_injective c b s1 : ∀ s2,
  replace_each c (String b (String c EmptyString)) s1
  = replace_each c (String b (String c EmptyString)) s2 →
  s1 = s2.
Proof.
  induction s1 as [|x s1 IH]; intros [|y s2]; simpl.
  - done.
  - by destruct (Ascii.eqb y c).
  - by destruct (Ascii.eqb x c).
  - destruct (Ascii.eqb x c) eqn:Hx, (Ascii.eqb y c) eqn:Hy; simpl.
    + apply Ascii.eqb_eq in Hx as ->. apply Ascii.eqb_eq in Hy as ->.
      intros [= H]. by rewrite (IH _ H).
    + apply Ascii.eqb_eq in Hx as ->. apply Ascii.eqb_neq in Hy.
      intros [= <- H]. exfalso. symmetry in H. by apply replace_each_head in H.
    + apply Ascii.eqb_neq in Hx. apply Ascii.eqb_eq in Hy as ->.
      intros [= -> H]. exfalso. by apply replace_each_head in H.
    + intros [= -> H]. by rewrite (IH _ H).
Qed.

(** Escaping loses nothing: two string literals with the same escaped
    text are the same literal, so the text that a deferred [WHILE]
    condition carries determines its string literals. *)
Theorem escape_string_injective (value1 value2 : string) :
  escape_string value1 = escape_string value2 → value1 = value2.
Proof.
  unfold escape_string. intros H.
  by apply replace_each_injective, replace_each_injective in H.
Qed.

Lemma escape_string_injective_witness :
  String backslash (String quote "x") = String backslash (String quote "x").
Proof. apply escape_string_injective. reflexivity. Defined.

(** *** Assignments *)

Lemma extends_context g g' :
  extends g g' →
  m_currentLineNumber g' = m_currentLineNumber g
  ∧ m_currentBlockId g' = m_currentBlockId g
  ∧ m_nextLabel g' = m_nextLabel g
  ∧ m_blockLabels g' = m_blockLabels g.
Proof. by intros [code ->]. Qed.

Lemma extends_code g g' : extends g g' → ∃ code, instructions g' = instructions g ++ code.
Proof. intros [code ->]. by exists code. Qed.

(** [LET], once its value and its indices are lowered: the code is that
    of the value in the context of the statement's line, then that of
    the indices from left to right, then exactly one store, stamped with
    the line of the statement and the current block: [STORE_VAR] with
    the name for a variable, [STORE_ARRAY] with the name, the number of
    indices and the type suffix of the name for an array element.  The
    label counter and the block labels are as before. *)
Theorem generateLet_stores (fuel : nat) (variable : string) (indices : list Expression)
    (value : Expression) (lineNumber : Z) (g g1 g2 : IRGen.t) :
  generateExpression fuel value (setSourceContext lineNumber (m_currentBlockId g) g)
  = Some g1 →
  generate_each (generateExpression fuel) indices g1 = Some g2 →
  ∃ g' store code_value code_indices,
    generateLet fuel variable indices value lineNumber g = Some g'
    ∧ instructions g1 = instructions g ++ code_value
    ∧ instructions g2 = instructions g1 ++ code_indices
    ∧ instructions g' = instructions g2 ++ [store]
    ∧ operand1 store = Some (OpString variable)
    ∧ sourceLineNumber store = lineNumber
    ∧ blockId store = m_currentBlockId g
    ∧ isLoopJump store = false
    ∧ opcode store
      = match indices with [] => IROpcode.STORE_VAR | _ :: _ => IROpcode.STORE_ARRAY end
    ∧ operand2 store
      = match indices with [] => None | _ :: _ => Some (arg_count indices) end
    ∧ arrayElementTypeSuffix store
      = match indices with [] => "" | _ :: _ => extractTypeSuffix variable end
    ∧ m_nextLabel g' = m_nextLabel g
    ∧ m_blockLabels g' = m_blockLabels g.
Proof.
  intros H1 H2. unfold generateLet. rewrite H1.
  pose proof (generateExpression_extends _ _ _ _ H1) as E1.
  pose proof (generate_each_extends _ (generateExpression_extends fuel) _ _ _ H2) as E2.
  destruct (extends_context _ _ E1) as (Hl1 & Hb1 & Hn1 & Hm1).
  destruct (extends_context _ _ E2) as (Hl2 & Hb2 & Hn2 & Hm2).
  apply extends_code in E1 as [code_value E1]. apply extends_code in E2 as [code_indices E2].
  simpl in Hl1, Hb1, Hn1, Hm1.
  destruct indices as [|i indices].
  - injection H2 as <-.
    exists (emit1 IROpcode.STORE_VAR (OpString variable) g1),
      (instruction IROpcode.STORE_VAR (Some (OpString variable)) None "" false g1),
      code_value, code_indices.
    split; [done|]. split; [exact E1|]. split; [exact E2|].
    split; [done|]. simpl. by rewrite Hl1, Hb1, Hn1, Hm1.
  - rewrite H2.
    exists (push_back
              (instruction IROpcode.STORE_ARRAY (Some (OpString variable))
                 (Some (arg_count (i :: indices))) (extractTypeSuffix variable) false g2)
              g2),
      (instruction IROpcode.STORE_ARRAY (Some (OpString variable))
         (Some (arg_count (i :: indices))) (extractTypeSuffix variable) false g2),
      code_value, code_indices.
    split; [done|]. split; [exact E1|]. split; [exact E2|].
    split; [done|]. simpl. by rewrite Hl2, Hb2, Hn2, Hm2, Hl1, Hb1, Hn1, Hm1.
Qed.

(** The property at [LET A$(2) = "x"] on line 10: a string is pushed,
    the index is pushed, and one [STORE_ARRAY] of one index with the
    suffix [$] follows. *)
Lemma generateLet_stores_witness :
  ∃ g' store,
    generateLet 2 "A$" [NumberExpression 2] (StringExpression "x") 10 blank = Some g'
    ∧ opcode <$> instructions g'
      = [IROpcode.PUSH_STRING; IROpcode.PUSH_INT; IROpcode.STORE_ARRAY]
    ∧ last (instructions g') = Some store
    ∧ operand1 store = Some (OpString "A$")
    ∧ operand2 store = Some (OpInt 1)
    ∧ arrayElementTypeSuffix store = "$"
    ∧ sourceLineNumber store = 10.
Proof.
  destruct (generateLet_stores 2 "A$" [NumberExpression 2] (StringExpression "x") 10 blank
              (emit1 IROpcode.PUSH_STRING (OpString "x") (setSourceContext 10 (-1) blank))
              (emit1 IROpcode.PUSH_INT (OpInt 2)
                 (emit1 IROpcode.PUSH_STRING (OpString "x")
                    (setSourceContext 10 (-1) blank)))
              eq_refl eq_refl)
    as (g' & store & code_value & code_indices & Hlet & _ & _ & Hcode & Hop1 & Hline
        & _ & _ & Hopcode & Hop2 & Hsuffix & _).
  exists g', store. split; [exact Hlet|]. rewrite Hcode. split.
  - rewrite fmap_app. simpl. rewrite Hopcode. reflexivity.
  - split; [apply last_snoc|]. split; [exact Hop1|]. split; [exact Hop2|].
    split; [exact Hsuffix | exact Hline].
Defined.

End IRGenCode.

(** ** The tables of declarations after an analysis *)

Section Declarations.
Import Semantic SemanticSpec IRSpec.

Lemma evolves_declared loops s s' : evolves loops s s' → declared s' = declared s.
Proof.
  induction 1 as [loops s|loops s1 s2 s3 _ IH1 _ IH2|loops type loc s Hty|loops w s
                 |loops name s|loops name loc s|loops n loc s|loops name loc s
                 |loops n s|stack s|stack s|stack s|stack s]; try done.
  - by rewrite IH2.
  - unfold lookupVariable. destruct (variables (m_symbolTable s) !! name); [done|].
    destruct (arrays (m_symbolTable s) !! name) as [arr|]; [|done].
    by destruct (arr_dimensions arr).
  - unfold useVariable, lookupVariable, declareVariable.
    destruct (variables (m_symbolTable s) !! name) eqn:Hv; simpl; [done|].
    destruct (arrays (m_symbolTable s) !! name) as [arr|]; simpl.
    + destruct (arr_dimensions arr); simpl; [done|]. by rewrite Hv.
    + by rewrite Hv.
  - unfold declared. simpl. by rewrite dom_alter_L.
Qed.

Lemma collectLineNumbers_from_declared program_lines : ∀ i s,
  declared (collectLineNumbers_from i program_lines s) = declared s.
Proof.
  induction program_lines as [|l rest IH]; intros i s; simpl; [done|].
  rewrite IH. destruct (lineNumber l >? 0); [|done].
  by destruct (lineNumbers (m_symbolTable s) !! lineNumber l).
Qed.

(** *** The loops of pass 1 *)

Lemma fold_left_names {A} (f : Semantic.t → A → Semantic.t)
    (table : Semantic.t → gset string) (names : A → gset string) (xs : list A) :
  (∀ s x, table (f s x) = table s ∪ names x) →
  ∀ s, table (fold_left f xs s) = table s ∪ ⋃ (names <$> xs).
Proof.
  intros Hf. induction xs as [|x xs IH]; intros s; simpl.
  - by rewrite union_empty_r_L.
  - by rewrite IH, Hf, (assoc_L (∪)).
Qed.

Lemma for_each_statement_names f (table : Semantic.t → gset string) names program :
  (∀ s stmt, table (f s stmt) = table s ∪ names stmt) →
  ∀ s, table (for_each_statement f program s) = table s ∪ program_names names program.
Proof.
  intros Hf s. unfold for_each_statement, program_names.
  apply (fold_left_names _ table (line_names names)).
  intros s1 l. by apply fold_left_names.
Qed.

Lemma collectLabels_from_names (table : Semantic.t → gset string) names :
  (∀ i s stmt, table (collectLabels_statement i s stmt) = table s ∪ names stmt) →
  ∀ program_lines i s,
    table (collectLabels_from i program_lines s)
    = table s ∪ ⋃ (line_names names <$> program_lines).
Proof.
  intros Hf. induction program_lines as [|l rest IH]; intros i s; simpl.
  - by rewrite union_empty_r_L.
  - rewrite IH, (fold_left_names _ table names) by apply Hf. by rewrite (assoc_L (∪)).
Qed.

Lemma elem_of_program_names names program name :
  name ∈ program_names names program
  ↔ ∃ stmt, top_level program stmt ∧ name ∈ names stmt.
Proof.
  unfold program_names, line_names, top_level.
  rewrite elem_of_union_list. split.
  - intros (X & HX & Hname). apply list_elem_of_fmap in HX as (l & -> & Hl).
    apply elem_of_union_list in Hname as (Y & HY & Hname).
    apply list_elem_of_fmap in HY as (stmt & -> & Hstmt).
    exists stmt. split; [by exists l | done].
  - intros (stmt & (l & Hl & Hstmt) & Hname).
    exists (⋃ (names <$> statements l)). split.
    + apply list_elem_of_fmap. by exists l.
    + apply elem_of_union_list. exists (names stmt). split; [|done].
      apply list_elem_of_fmap. by exists stmt.
Qed.

Lemma no_names (names : Statement → gset string) program :
  (∀ stmt, names stmt = ∅) → program_names names program = ∅.
Proof.
  intros Hnone. apply elem_of_equiv_empty_L. intros name Hname.
  apply elem_of_program_names in Hname as (stmt & _ & Hname).
  rewrite Hnone in Hname. by apply not_elem_of_empty in Hname.
Qed.

(** *** The tables, collector by collector *)

Lemma declared_tables s s' :
  declared s' = declared s →
  table_labels s' = table_labels s ∧ table_arrays s' = table_arrays s
  ∧ table_functions s' = table_functions s.
Proof. unfold declared, table_labels, table_arrays, table_functions. by intros [= -> -> ->]. Qed.

Lemma collectLabels_statement_labels i s stmt :
  table_labels (collectLabels_statement i s stmt) = table_labels s ∪ statement_labels stmt.
Proof.
  unfold table_labels. destruct stmt; simpl; try by rewrite union_empty_r_L.
  unfold declareLabel. destruct (labels (m_symbolTable s) !! _) eqn:Hname; simpl.
  - apply elem_of_dom_2 in Hname. symmetry. rewrite (comm_L (∪)).
    by apply subseteq_union_1_L, singleton_subseteq_l.
  - by rewrite dom_insert_L, (comm_L (∪)).
Qed.

Lemma collectLabels_statement_other i s stmt :
  arrays (m_symbolTable (collectLabels_statement i s stmt)) = arrays (m_symbolTable s)
  ∧ functions (m_symbolTable (collectLabels_statement i s stmt))
    = functions (m_symbolTable s).
Proof.
  destruct stmt; simpl; try done.
  unfold declareLabel. by destruct (labels (m_symbolTable s) !! _).
Qed.

Lemma processArrayDim_arrays loc s arrayDim :
  table_arrays (processArrayDim loc s arrayDim) = table_arrays s ∪ {[dim_name arrayDim]}.
Proof.
  unfold table_arrays, processArrayDim.
  destruct (arrays (m_symbolTable s) !! dim_name arrayDim) eqn:Hname; simpl.
  - apply elem_of_dom_2 in Hname. symmetry. rewrite (comm_L (∪)).
    by apply subseteq_union_1_L, singleton_subseteq_l.
  - pose proof (processDimension_symbols loc (dim_dimensions arrayDim) ([], 1, s)) as Hsym.
    destruct (fold_left _ _ _) as [[ds total] s1]. simpl in *.
    by rewrite dom_insert_L, Hsym, (comm_L (∪)).
Qed.

Lemma processArrayDim_other loc s arrayDim :
  labels (m_symbolTable (processArrayDim loc s arrayDim)) = labels (m_symbolTable s)
  ∧ functions (m_symbolTable (processArrayDim loc s arrayDim))
    = functions (m_symbolTable s).
Proof.
  unfold processArrayDim.
  destruct (arrays (m_symbolTable s) !! dim_name arrayDim); [done|].
  pose proof (processDimension_symbols loc (dim_dimensions arrayDim) ([], 1, s)) as Hsym.
  destruct (fold_left _ _ _) as [[ds total] s1]. simpl in *. by rewrite Hsym.
Qed.

Lemma processDimStatement_other loc arrayDims : ∀ s,
  labels (m_symbolTable (processDimStatement loc arrayDims s)) = labels (m_symbolTable s)
  ∧ functions (m_symbolTable (processDimStatement loc arrayDims s))
    = functions (m_symbolTable s).
Proof.
  unfold processDimStatement.
  induction arrayDims as [|d ds IH]; intros s; simpl; [done|].
  destruct (IH (processArrayDim loc s d)) as [-> ->]. apply processArrayDim_other.
Qed.

Lemma processDefStatement_functions loc name parameters body s :
  table_functions (processDefStatement loc name parameters body s)
  = table_functions s ∪ {[name]}.
Proof.
  unfold table_functions, processDefStatement.
  destruct (functions (m_symbolTable s) !! name) eqn:Hname; simpl.
  - apply elem_of_dom_2 in Hname. symmetry. rewrite (comm_L (∪)).
    by apply subseteq_union_1_L, singleton_subseteq_l.
  - by rewrite dom_insert_L, (comm_L (∪)).
Qed.

Lemma processDefStatement_other loc name parameters body s :
  labels (m_symbolTable (processDefStatement loc name parameters body s))
  = labels (m_symbolTable s)
  ∧ arrays (m_symbolTable (processDefStatement loc name parameters body s))
    = arrays (m_symbolTable s).
Proof. unfold processDefStatement. by destruct (functions (m_symbolTable s) !! name). Qed.

(** Pass 1 leaves in each table the names it held and the names that the
    statements of the lines declare. *)
Lemma pass1_tables program s :
  table_labels (pass1_collectDeclarations program s)
  = table_labels s ∪ program_names statement_labels program
  ∧ table_arrays (pass1_collectDeclarations program s)
    = table_arrays s ∪ program_names statement_arrays program
  ∧ table_functions (pass1_collectDeclarations program s)
    = table_functions s ∪ program_names statement_functions program.
Proof.
  unfold pass1_collectDeclarations, collectDefStatements, collectDimStatements,
    collectLabels, collectLineNumbers.
  destruct (declared_tables _ _ (collectLineNumbers_from_declared (lines program) 0 s))
    as (Hl & Ha & Hf).
  set (s1 := collectLineNumbers_from 0 (lines program) s) in *.
  split; [|split].
  - rewrite (for_each_statement_names _ table_labels (λ _, ∅)).
    2:{ intros s' stmt. rewrite union_empty_r_L. unfold table_labels.
        destruct stmt; try done. f_equal. apply processDefStatement_other. }
    rewrite no_names, union_empty_r_L by done.
    rewrite (for_each_statement_names _ table_labels (λ _, ∅)).
    2:{ intros s' stmt. rewrite union_empty_r_L. unfold table_labels.
        destruct stmt; try done. f_equal. apply processDimStatement_other. }
    rewrite no_names, union_empty_r_L by done.
    rewrite (collectLabels_from_names table_labels statement_labels)
      by apply collectLabels_statement_labels.
    by rewrite Hl.
  - rewrite (for_each_statement_names _ table_arrays (λ _, ∅)).
    2:{ intros s' stmt. rewrite union_empty_r_L. unfold table_arrays.
        destruct stmt; try done. f_equal. apply processDefStatement_other. }
    rewrite no_names, union_empty_r_L by done.
    rewrite (for_each_statement_names _ table_arrays statement_arrays).
    2:{ intros s' stmt. destruct stmt; simpl; try by rewrite union_empty_r_L.
        apply (fold_left_names _ table_arrays (λ arrayDim, {[dim_name arrayDim]})).
        intros s2 d. apply processArrayDim_arrays. }
    rewrite (collectLabels_from_names table_arrays (λ _, ∅)).
    2:{ intros i s' stmt. rewrite union_empty_r_L. unfold table_arrays.
        by destruct (collectLabels_statement_other i s' stmt) as [-> _]. }
    change (⋃ (line_names (λ _, ∅) <$> lines program))
      with (program_names (λ _ : Statement, (∅ : gset string)) program).
    by rewrite no_names, union_empty_r_L, Ha by done.
  - rewrite (for_each_statement_names _ table_functions statement_functions).
    2:{ intros s' stmt. destruct stmt; simpl; try by rewrite union_empty_r_L.
        apply processDefStatement_functions. }
    rewrite (for_each_statement_names _ table_functions (λ _, ∅)).
    2:{ intros s' stmt. rewrite union_empty_r_L. unfold table_functions.
        destruct stmt; try done. f_equal. apply processDimStatement_other. }
    rewrite no_names, union_empty_r_L by done.
    rewrite (collectLabels_from_names table_functions (λ _, ∅)).
    2:{ intros i s' stmt. rewrite union_empty_r_L. unfold table_functions.
        by destruct (collectLabels_statement_other i s' stmt) as [_ ->]. }
    change (⋃ (line_names (λ _, ∅) <$> lines program))
      with (program_names (λ _ : Statement, (∅ : gset string)) program).
    by rewrite no_names, union_empty_r_L, Hf by done.
Qed.

Lemma analyze_declared program options s :
  declared (snd (analyze program options s))
  = declared (pass1_collectDeclarations program (reset_state options s)).
Proof.
  rewrite analyze_unfold. simpl.
  set (s1 := pass1_collectDeclarations program (reset_state options s)).
  assert (H2 : declared (validateControlFlow (pass2_validate program s1)) = declared s1).
  { transitivity (declared (pass2_validate program s1)).
    - unfold validateControlFlow.
      by destruct (m_forStack _), (m_whileStack _), (m_repeatStack _).
    - eapply evolves_declared, pass2_validate_evolves. }
  destruct (m_warnUnused _); [|exact H2].
  rewrite <- H2. eapply evolves_declared, (checkUnusedVariables_evolves true).
Qed.

Lemma reset_tables options s :
  table_labels (reset_state options s) = ∅ ∧ table_arrays (reset_state options s) = ∅
  ∧ table_functions (reset_state options s) = ∅.
Proof.
  unfold table_labels, table_arrays, table_functions. simpl.
  by rewrite !dom_empty_L.
Qed.

(** The labels, the arrays and the functions that the analyzer knows
    after [analyze] are those that a statement of a line of the program
    declares: a name is in the table of labels exactly when a label
    statement names it, in the table of arrays exactly when an entry of
    a [DIM] names it, in the table of functions exactly when a [DEF FN]
    names it.  Only the statements of the lines count: a declaration
    inside the branch of an [IF] is not collected. *)
Theorem analyze_declarations (program : Program) (options : CompilerOptions)
    (s : Semantic.t) (name : string) :
  (is_Some (lookupLabel name (snd (analyze program options s)))
   ↔ declares_label program name)
  ∧ (is_Some (lookupArray name (snd (analyze program options s)))
     ↔ declares_array program name)
  ∧ (is_Some (lookupFunction name (snd (analyze program options s)))
     ↔ declares_function program name).
Proof.
  destruct (declared_tables _ _ (analyze_declared program options s)) as (Hl & Ha & Hf).
  destruct (pass1_tables program (reset_state options s)) as (Hl1 & Ha1 & Hf1).
  destruct (reset_tables options s) as (Hl0 & Ha0 & Hf0).
  rewrite Hl1, Hl0, union_empty_l_L in Hl. rewrite Ha1, Ha0, union_empty_l_L in Ha.
  rewrite Hf1, Hf0, union_empty_l_L in Hf.
  unfold table_labels, table_arrays, table_functions in Hl, Ha, Hf.
  unfold lookupLabel, lookupArray, lookupFunction.
  rewrite <- !elem_of_dom, Hl, Ha, Hf, !elem_of_program_names.
  unfold declares_label, declares_array, declares_function.
  split; [|split]; split.
  - intros (stmt & Htop & Hname). destruct stmt; simpl in Hname;
      try (by apply not_elem_of_empty in Hname).
    apply elem_of_singleton in Hname as ->. by eexists.
  - intros (loc & Htop). eexists. split; [exact Htop|].
    change (name ∈ ({[name]} : gset string)). by apply elem_of_singleton.
  - intros (stmt & Htop & Hname). destruct stmt; simpl in Hname;
      try (by apply not_elem_of_empty in Hname).
    apply elem_of_union_list in Hname as (X & HX & Hname).
    apply list_elem_of_fmap in HX as (d & -> & Hd).
    apply elem_of_singleton in Hname as ->. by eexists _, _, d.
  - intros (loc & arrayDims & d & Htop & Hd & <-). eexists. split; [exact Htop|].
    change (dim_name d ∈ (⋃ ((λ arrayDim, {[dim_name arrayDim]}) <$> arrayDims)
                          : gset string)).
    apply elem_of_union_list. exists {[dim_name d]}. split.
    + apply list_elem_of_fmap. by exists d.
    + by apply elem_of_singleton.
  - intros (stmt & Htop & Hname). destruct stmt; simpl in Hname;
      try (by apply not_elem_of_empty in Hname).
    apply elem_of_singleton in Hname as ->. by eexists _, _, _.
  - intros (loc & parameters & body & Htop). eexists. split; [exact Htop|].
    change (name ∈ ({[name]} : gset string)). by apply elem_of_singleton.
Qed.

(** *** Jumps *)

Lemma pass2_reports_jump program l stmt loc isLabel label target s :
  l ∈ lines program →
  stmt ∈ statements l →
  jump stmt = Some (loc, isLabel, label, target) →
  (if isLabel then labels (m_symbolTable s) !! label = None
   else lineNumbers (m_symbolTable s) !! target = None) →
  reports (undefined_target isLabel) loc (pass2_validate program s).
Proof.
  intros Hl Hstmt Hjump Hnone. unfold reports, pass2_validate.
  apply list_elem_of_split in Hl as (before & after & ->).
  rewrite fold_left_app. simpl.
  set (s1 := fold_left validateProgramLine before s).
  assert (H1 : evolves true s s1)
    by (apply fold_left_evolves; intros; apply validateProgramLine_evolves).
  eapply grows_elem.
  { apply (fold_left_keeps validateProgramLine after).
    intros. apply validateProgramLine_keeps. }
  unfold validateProgramLine.
  apply list_elem_of_split in Hstmt as (st1 & st2 & ->).
  rewrite validate_all_app. simpl.
  set (s2 := validate_all validateStatement st1 _).
  assert (H2 : evolves true s s2).
  { eapply evolves_trans; [exact H1|]. subst s2.
    eapply evolves_trans; [|apply validate_statements_evolves]. by constructor. }
  eapply grows_elem; [apply validate_statements_keeps|].
  assert (Hjumps : validateStatement stmt s2 = validateJump isLabel label target loc s2).
  { destruct stmt; try done; simpl in Hjump; by injection Hjump as -> -> -> ->. }
  rewrite Hjumps. unfold validateJump, lookupLabel, lookupLine.
  destruct isLabel.
  - assert (Hs2 : labels (m_symbolTable s2) !! label = None).
    { apply not_elem_of_dom. apply not_elem_of_dom in Hnone.
      destruct (declared_tables _ _ (evolves_declared _ _ _ H2)) as (Heq & _).
      unfold table_labels in Heq. by rewrite Heq. }
    rewrite Hs2. simpl. apply elem_of_app. right. by apply list_elem_of_singleton.
  - rewrite (keeps_lookup_line _ _ _ (evolves_keeps _ _ _ H2) Hnone).
    simpl. apply elem_of_app. right. by apply list_elem_of_singleton.
Qed.

(** A [GOTO] or a [GOSUB] among the statements of a line whose target
    the program does not have makes the analysis fail, with an error at
    the jump: [UNDEFINED_LABEL] for a label that no label statement of a
    line declares, [UNDEFINED_LINE] for a number that is not positive or
    not the number of a line. *)
Theorem jump_to_missing_target (program : Program) (options : CompilerOptions)
    (s : Semantic.t) (l : ProgramLine) (stmt : Statement) (loc : SourceLocation)
    (isLabel : bool) (label : string) (target : Z) :
  l ∈ lines program →
  stmt ∈ statements l →
  jump stmt = Some (loc, isLabel, label, target) →
  target_missing program isLabel label target →
  reports (undefined_target isLabel) loc (snd (analyze program options s))
  ∧ fst (analyze program options s) = false.
Proof.
  intros Hl Hstmt Hjump Hmissing.
  assert (Hrep : reports (undefined_target isLabel) loc (snd (analyze program options s))).
  { rewrite analyze_unfold. simpl.
    set (s1 := pass1_collectDeclarations program (reset_state options s)).
    assert (Hpass2 : reports (undefined_target isLabel) loc (pass2_validate program s1)).
    { apply (pass2_reports_jump program l stmt loc isLabel label target); try done.
      unfold target_missing in Hmissing. destruct isLabel.
      - apply not_elem_of_dom.
        destruct (pass1_tables program (reset_state options s)) as (Hl1 & _).
        destruct (reset_tables options s) as (Hl0 & _).
        rewrite Hl0, union_empty_l_L in Hl1. unfold table_labels in Hl1.
        fold s1 in Hl1. rewrite Hl1, elem_of_program_names.
        intros (st & Htop & Hname). apply Hmissing.
        destruct st; simpl in Hname; try (by apply not_elem_of_empty in Hname).
        apply elem_of_singleton in Hname as ->. by eexists.
      - apply not_elem_of_dom. subst s1. unfold pass1_collectDeclarations.
        intros Hin. apply Hmissing.
        assert (Hkeeps : keeps (collectLineNumbers program (reset_state options s))
                  (collectDefStatements program
                     (collectDimStatements program
                        (collectLabels program
                           (collectLineNumbers program (reset_state options s)))))).
        { eapply keeps_trans; [apply collectLabels_from_keeps|].
          eapply keeps_trans; [apply collectDimStatements_keeps|].
          apply collectDefStatements_keeps. }
        apply (keeps_dom _ _ target Hkeeps) in Hin.
        unfold collectLineNumbers in Hin. apply collectLineNumbers_from_dom in Hin.
        destruct Hin as [Hin|Hin]; [|done].
        simpl in Hin. rewrite dom_empty in Hin. by apply elem_of_empty in Hin. }
    unfold reports in *.
    eapply grows_elem; [|exact Hpass2].
    eapply grows_trans; [apply keeps_grows, validateControlFlow_keeps|].
    destruct (m_warnUnused _);
      [apply keeps_grows, checkUnusedVariables_keeps | apply grows_refl]. }
  split; [exact Hrep|].
  unfold reports in Hrep. unfold analyze in *. simpl in *.
  match goal with |- match ?errors with _ => _ end = _ => destruct errors end;
    [by apply elem_of_nil in Hrep | done].
Qed.

Lemma jump_to_missing_target_witness :
  reports SemanticErrorType.UNDEFINED_LABEL (at_line 10)
          (snd (analyze jumps_nowhere default_options fresh))
  ∧ fst (analyze jumps_nowhere default_options fresh) = false.
Proof.
  apply (jump_to_missing_target jumps_nowhere default_options fresh
           (program_line 10 [GosubStatement (at_line 10) true "DRAW" 0])
           (GosubStatement (at_line 10) true "DRAW" 0) (at_line 10) true "DRAW" 0).
  - by left.
  - by left.
  - reflexivity.
  - intros (loc & l & Hl & Hstmt).
    repeat (apply elem_of_cons in Hl as [->|Hl];
            [simpl in Hstmt;
             repeat (apply elem_of_cons in Hstmt as [Hstmt|Hstmt]; [discriminate|]);
             by apply elem_of_nil in Hstmt|]).
    by apply elem_of_nil in Hl.
Defined.

End Declarations.
